(** * MT5 tick receivers: sequence-gap detection and minute aggregation

    A shallow embedding of [python/high_performance_receiver.py]
    (class [HighPerformanceTickReceiver]) and [python/backup_receiver.py]
    (class [MT5TickSubscriber]), followed by the plain subscriber of
    [python/receive_ticks.py], the queries of
    [python/view_tick_gap_stats.py] and the publishers of
    [python/stress_test_high_volume.py] and [python/stress_test.py].

    Input domain.  A payload is taken after [json.loads]: a JSON object
    whose ["seq_num"], when present, converts with [int(...)], whose
    ["time"], when present, is in the range of [datetime.fromtimestamp],
    and whose ["bid"] is a number or is absent / [null].  A bid is held as
    the binary64 float of Python; an integer literal stands for its float
    value, which gives the same quotient while the integers stay below
    2^53.  Under these conditions the body of [_process_tick] raises one
    exception only: the OverflowError of sqlite3 when an integer bound to
    the INSERT of [_check_sequence] does not fit 64 bits.  It is no
    [sqlite3.Error], so it leaves [_check_sequence] and is caught by the
    [except Exception] clause of [_process_tick], which ends the tick.

    Time.  A datetime is kept as its epoch second: the code reads a
    datetime only through [replace(second=0, microsecond=0)], so the
    microseconds of [datetime.fromtimestamp(t)] play no part.  The local
    UTC offset is assumed to be a whole number of minutes and constant over
    the run, so that truncation to the minute commutes with the conversion
    and [int(minute.timestamp())] is the truncated epoch second.

    Persistence.  The two SQLite tables are lists of rows; the statements
    the code executes act on them by the meaning of their SQL text together
    with the PRIMARY KEY clauses of [_init_database].  I/O failures of the
    engine are outside the model.  The integers [_check_sequence] binds
    come from the payload and may be of any size; those [_save_gap_counts]
    binds (the start of a minute in the range of datetime, and counts that
    grow by one a tick) are taken to fit 64 bits.

    Threads.  Each loop body is a function on the receiver state; a run
    of the receiving and the processing thread is a sequence of passes
    through their loop bodies (section "The receiver and the processor
    taking turns").

    Randomness and clocks.  What [random] draws and what [time.time()]
    reads are arguments of the functions that use them. *)

From Stdlib Require Import ZArith String Ascii List Floats Lia.
From stdpp Require Import gmap strings list list_numbers fin_maps sorting.

Set Warnings "-inexact-float".
Open Scope Z_scope.

(** ** Data shared by both receivers *)

(** The fields of [tick_data] that the receivers read. *)
Record tick := Tick {
  tick_seq_num : option Z;      (* "seq_num" in tick_data, after int(...) *)
  tick_bid : option float;      (* tick_data.get("bid") *)
  tick_time : option Z          (* datetime.fromtimestamp(tick_data["time"]) *)
}.

(** One value of [gap_counts]: [{"large": n, "small": n}]. *)
Record counts := Counts { large : Z; small : Z }.

Definition zero_counts : counts := Counts 0 0.
Definition incr_large (c : counts) : counts := Counts (large c + 1) (small c).
Definition incr_small (c : counts) : counts := Counts (large c) (small c + 1).

(** Row of table [tick_gaps]; PRIMARY KEY (timestamp, symbol).  The column
    [minute] is the strftime rendering of the minute start, kept here as the
    minute start itself. *)
Record tick_gap_row := TickGapRow {
  tg_timestamp : Z;
  tg_symbol : string;
  tg_minute : Z;
  tg_large_gap_count : Z;
  tg_small_gap_count : Z
}.

(** Row of table [sequence_gaps]; PRIMARY KEY (timestamp, symbol,
    expected_seq). *)
Record sequence_gap_row := SequenceGapRow {
  sg_timestamp : Z;
  sg_symbol : string;
  sg_gap_size : Z;
  sg_expected_seq : Z;
  sg_received_seq : Z
}.

Definition tg_key (r : tick_gap_row) : Z * string :=
  (tg_timestamp r, tg_symbol r).

Definition sg_key (r : sequence_gap_row) : Z * string * Z :=
  (sg_timestamp r, sg_symbol r, sg_expected_seq r).

(** [INSERT OR REPLACE INTO tick_gaps ...]: rows that conflict on the
    primary key are deleted, then the new row is stored. *)
Definition insert_or_replace (r : tick_gap_row) (t : list tick_gap_row)
  : list tick_gap_row :=
  filter (λ r', tg_key r' ≠ tg_key r) t ++ [r].

(** An integer that sqlite3 can bind to a statement: a Python int that
    fits in 64 bits, signed.  Binding any other raises OverflowError
    before the statement runs. *)
Definition fits_int64 (x : Z) : bool := bool_decide (- 2 ^ 63 ≤ x < 2 ^ 63).

(** How [cursor.execute] ends for [INSERT INTO sequence_gaps ...]. *)
Inductive insert_result :=
| Inserted (t : list sequence_gap_row)
| IntegrityError    (* a sqlite3.Error: the primary key is already present *)
| OverflowError.    (* not a sqlite3.Error: a bound integer does not fit *)

(** [INSERT INTO sequence_gaps ...] with the four integers of the row
    bound as parameters. *)
Definition insert_sequence_gap (r : sequence_gap_row)
    (t : list sequence_gap_row) : insert_result :=
  if fits_int64 (sg_timestamp r) && fits_int64 (sg_gap_size r)
     && fits_int64 (sg_expected_seq r) && fits_int64 (sg_received_seq r)
  then if decide (sg_key r ∈ map sg_key t) then IntegrityError
       else Inserted (t ++ [r])
  else OverflowError.

(** The for-loop of [_save_gap_counts]: one upsert per bucket. *)
Definition save_rows (rows : list tick_gap_row) (t : list tick_gap_row)
  : list tick_gap_row :=
  foldl (λ acc r, insert_or_replace r acc) t rows.

Definition bucket_row (minute : Z) (kv : string * counts) : tick_gap_row :=
  TickGapRow minute kv.1 minute (large kv.2) (small kv.2).

(** [str.endswith]. *)
Fixpoint endswith (s suffix : string) : bool :=
  if String.eqb s suffix then true
  else match s with
       | EmptyString => false
       | String _ s' => endswith s' suffix
       end.

(** [tick_time.replace(second=0, microsecond=0)] *)
Definition truncate_minute (t : Z) : Z := 60 * (t / 60).

(** What the code does to the outside world besides the tables: console
    lines that matter below, and release of resources. *)
Inductive effect :=
| PrintSequenceGap (symbol : string) (gap_size expected_seq seq_num : Z)
| PrintSequenceGapDbError
| PrintQueueFull
| SaveGapCounts (rows : list tick_gap_row)   (* upserts + commit *)
| SubscriberClose                            (* self.subscriber.close() *)
| RequesterClose                             (* self.requester.close() *)
| SocketClose                                (* self.socket.close() *)
| ContextTerm                                (* self.context.term() *)
| DbClose.                                   (* self.db_conn.close() *)

Module HighPerformanceTickReceiver.

Record database := Database {
  tick_gaps : list tick_gap_row;
  sequence_gaps : list sequence_gap_row
}.

(** The attributes of [self] that the modelled methods read or write.
    [requester] tells whether the REQ socket exists; [trace] lists the
    effects performed so far, oldest first. *)
Record receiver := Receiver {
  running : bool;
  requester : bool;
  queue_size : Z;
  message_queue : list string;
  seq_nums : gmap string Z;
  missed_messages : Z;
  prev_bids : gmap string float;
  minute_start_time : option Z;
  gap_counts : gmap string counts;
  db_conn : option database;
  receive_count : Z;
  process_count : Z;
  trace : list effect
}.

Definition set_running v st :=
  Receiver v (requester st) (queue_size st) (message_queue st) (seq_nums st)
    (missed_messages st) (prev_bids st) (minute_start_time st) (gap_counts st)
    (db_conn st) (receive_count st) (process_count st) (trace st).
Definition set_message_queue v st :=
  Receiver (running st) (requester st) (queue_size st) v (seq_nums st)
    (missed_messages st) (prev_bids st) (minute_start_time st) (gap_counts st)
    (db_conn st) (receive_count st) (process_count st) (trace st).
Definition set_seq_nums v st :=
  Receiver (running st) (requester st) (queue_size st) (message_queue st) v
    (missed_messages st) (prev_bids st) (minute_start_time st) (gap_counts st)
    (db_conn st) (receive_count st) (process_count st) (trace st).
Definition set_missed_messages v st :=
  Receiver (running st) (requester st) (queue_size st) (message_queue st)
    (seq_nums st) v (prev_bids st) (minute_start_time st) (gap_counts st)
    (db_conn st) (receive_count st) (process_count st) (trace st).
Definition set_prev_bids v st :=
  Receiver (running st) (requester st) (queue_size st) (message_queue st)
    (seq_nums st) (missed_messages st) v (minute_start_time st) (gap_counts st)
    (db_conn st) (receive_count st) (process_count st) (trace st).
Definition set_minute_start_time v st :=
  Receiver (running st) (requester st) (queue_size st) (message_queue st)
    (seq_nums st) (missed_messages st) (prev_bids st) v (gap_counts st)
    (db_conn st) (receive_count st) (process_count st) (trace st).
Definition set_gap_counts v st :=
  Receiver (running st) (requester st) (queue_size st) (message_queue st)
    (seq_nums st) (missed_messages st) (prev_bids st) (minute_start_time st) v
    (db_conn st) (receive_count st) (process_count st) (trace st).
Definition set_db_conn v st :=
  Receiver (running st) (requester st) (queue_size st) (message_queue st)
    (seq_nums st) (missed_messages st) (prev_bids st) (minute_start_time st)
    (gap_counts st) v (receive_count st) (process_count st) (trace st).
Definition set_receive_count v st :=
  Receiver (running st) (requester st) (queue_size st) (message_queue st)
    (seq_nums st) (missed_messages st) (prev_bids st) (minute_start_time st)
    (gap_counts st) (db_conn st) v (process_count st) (trace st).
Definition set_process_count v st :=
  Receiver (running st) (requester st) (queue_size st) (message_queue st)
    (seq_nums st) (missed_messages st) (prev_bids st) (minute_start_time st)
    (gap_counts st) (db_conn st) (receive_count st) v (trace st).
Definition emit (e : effect) st :=
  Receiver (running st) (requester st) (queue_size st) (message_queue st)
    (seq_nums st) (missed_messages st) (prev_bids st) (minute_start_time st)
    (gap_counts st) (db_conn st) (receive_count st) (process_count st)
    (trace st ++ [e]).

(** [__init__] followed by [connect]: [db] is [None] when
    [_init_database] failed, else the content of the database file. *)
Definition init (enable_confirmations : bool) (queue_size : Z)
    (db : option database) : receiver :=
  Receiver false enable_confirmations queue_size [] ∅ 0 ∅ None ∅ db 0 0 [].

(** [start]: the three threads are the loop bodies below. *)
Definition start (st : receiver) : receiver :=
  if running st then st else set_running true st.

(** How a call of [_check_sequence] ends: it returns, or it is left by the
    OverflowError of the INSERT, which [except sqlite3.Error] does not
    catch.  [st] is the state of the receiver at that point. *)
Inductive outcome :=
| Returned (st : receiver)
| Raised (st : receiver).

Definition state_of (o : outcome) : receiver :=
  match o with
  | Returned st | Raised st => st
  end.

(** [_check_sequence]; [now] is the reading of [int(time.time())]. *)
Definition _check_sequence (st : receiver) (symbol : string)
    (seq_num now : Z) : outcome :=
  let update st :=
    Returned (set_seq_nums (<[symbol := seq_num]> (seq_nums st)) st) in
  match seq_nums st !! symbol with
  | Some last_seq =>
      let expected_seq := last_seq + 1 in
      if bool_decide (seq_num > expected_seq) then
        let gap_size := seq_num - expected_seq in
        let st := set_missed_messages (missed_messages st + gap_size) st in
        let st := emit (PrintSequenceGap symbol gap_size expected_seq seq_num) st in
        match db_conn st with
        | Some db =>
            let row := SequenceGapRow now symbol gap_size expected_seq seq_num in
            match insert_sequence_gap row (sequence_gaps db) with
            | Inserted t =>
                update (set_db_conn (Some (Database (tick_gaps db) t)) st)
            | IntegrityError => update (emit PrintSequenceGapDbError st)
            | OverflowError => Raised st
            end
        | None => update st
        end
      else update st
  | None => update st
  end.

(** [_get_pip_size] *)
Definition _get_pip_size (symbol : string) : float :=
  if endswith symbol "JPY" then 0.01%float else 0.0001%float.

(** [abs(current_bid - prev_bid) / pip_size] *)
Definition gap_pips (symbol : string) (current_bid prev_bid : float) : float :=
  PrimFloat.div (PrimFloat.abs (PrimFloat.sub current_bid prev_bid))
                (_get_pip_size symbol).

(** [_save_gap_counts].  The buckets are taken in the order of
    [map_to_list]; they have distinct symbols, so the order of the upserts
    within one flush does not change which row ends up under which key. *)
Definition _save_gap_counts (st : receiver) : receiver :=
  match db_conn st, minute_start_time st with
  | Some db, Some minute =>
      let rows := bucket_row minute <$> map_to_list (gap_counts st) in
      let st := set_db_conn
                  (Some (Database (save_rows rows (tick_gaps db))
                                  (sequence_gaps db))) st in
      emit (SaveGapCounts rows) st
  | _, _ => st
  end.

(** [_process_tick], after [json.loads] succeeded.  An exception that
    leaves [_check_sequence] is caught by [except Exception] at the end of
    the method: the error is printed and the rest of the body is skipped. *)
Definition _process_tick (st : receiver) (symbol : string)
    (tick_data : tick) (now : Z) : receiver :=
  match
    match tick_seq_num tick_data with
    | Some seq_num => _check_sequence st symbol seq_num now
    | None => Returned st
    end
  with
  | Raised st => st
  | Returned st =>
      match tick_bid tick_data with
      | None => st
      | Some current_bid =>
          let st :=
            match tick_time tick_data with
            | Some t =>
                let current_minute := truncate_minute t in
                let st :=
                  match minute_start_time st with
                  | Some m =>
                      if bool_decide (current_minute ≠ m)
                      then set_gap_counts ∅ (_save_gap_counts st)
                      else st
                  | None => st
                  end in
                let st := set_minute_start_time (Some current_minute) st in
                let st :=
                  match gap_counts st !! symbol with
                  | None =>
                      set_gap_counts (<[symbol := zero_counts]> (gap_counts st)) st
                  | Some _ => st
                  end in
                match prev_bids st !! symbol with
                | Some prev_bid =>
                    if PrimFloat.leb 1.0%float
                         (gap_pips symbol current_bid prev_bid)
                    then set_gap_counts (alter incr_large symbol (gap_counts st)) st
                    else set_gap_counts (alter incr_small symbol (gap_counts st)) st
                | None => st
                end
            | None => st
            end in
          set_prev_bids (<[symbol := current_bid]> (prev_bids st)) st
      end
  end.

(** The body of [_receive_loop] for one frame that the poll reports.
    The confirmation round trip writes no attribute and its failure is
    ignored.  [put(message, timeout=0.1)] raises [queue.Full] when no slot frees
    within the timeout; with the consumer not interleaved, that is the
    case in which the queue is full at the attempt.  [maxsize <= 0] means
    an unbounded queue. *)
Definition queue_full (st : receiver) : bool :=
  bool_decide (0 < queue_size st) &&
  bool_decide (queue_size st ≤ Z.of_nat (length (message_queue st))).

Definition _receive_loop_body (st : receiver) (message : string) : receiver :=
  let st := set_receive_count (receive_count st + 1) st in
  if queue_full st then emit PrintQueueFull st
  else set_message_queue (message_queue st ++ [message]) st.

(** [s.split('|', 1)] when the separator occurs: the text before the
    first '|' and the text after it. *)
Fixpoint split_bar (s : string) : option (string * string) :=
  match s with
  | EmptyString => None
  | String c s' =>
      if Ascii.eqb c "|"%char then Some (EmptyString, s')
      else match split_bar s' with
           | Some (a, b) => Some (String c a, b)
           | None => None
           end
  end.

(** [message.split('|', 2)] when it yields three parts. *)
Definition split_message (message : string)
  : option (string * string * string) :=
  match split_bar message with
  | Some (msg_type, rest) =>
      match split_bar rest with
      | Some (symbol, payload) => Some (msg_type, symbol, payload)
      | None => None
      end
  | None => None
  end.

(** The body of [_process_loop] for one turn; [json_loads] stands for
    [json.loads] followed by the reading of the three fields, [None] being
    a payload that does not decode. *)
Definition _process_loop_body (json_loads : string → option tick)
    (st : receiver) (now : Z) : receiver :=
  match message_queue st with
  | [] => st
  | message :: rest =>
      let st := set_message_queue rest st in
      match split_message message with
      | Some (msg_type, symbol, payload) =>
          if String.eqb msg_type "TICK" then
            let st := match json_loads payload with
                      | Some tick_data => _process_tick st symbol tick_data now
                      | None => st
                      end in
            set_process_count (process_count st + 1) st
          else st
      | None => st
      end
  end.

(** The line that [_stats_loop] prints every second, without the rates:
    received, processed, queue depth, missed. *)
Record stats_line := StatsLine {
  stat_received : Z; stat_processed : Z; stat_queue : Z; stat_missed : Z
}.

Definition _stats_loop_line (st : receiver) : stats_line :=
  StatsLine (receive_count st) (process_count st)
            (Z.of_nat (length (message_queue st))) (missed_messages st).

(** [stop], the threads having ended. *)
Definition stop (st : receiver) : receiver :=
  let st := set_running false st in
  let st := match minute_start_time st with
            | Some _ => _save_gap_counts st
            | None => st
            end in
  let st := emit SubscriberClose st in
  let st := if requester st then emit RequesterClose st else st in
  let st := emit ContextTerm st in
  match db_conn st with
  | Some _ => emit DbClose st
  | None => st
  end.

(** A run of the processor: ticks in the order they leave the queue, each
    with its symbol and the clock reading at that moment. *)
Definition process_all (st : receiver) (inputs : list (string * tick * Z))
  : receiver :=
  foldl (λ st i, _process_tick st i.1.1 i.1.2 i.2) st inputs.

End HighPerformanceTickReceiver.

Module MT5TickSubscriber.

(** The attributes of [self]; the database file of this receiver holds the
    single table [tick_gaps]. *)
Record subscriber := Subscriber {
  running : bool;
  tick_data : gmap string tick;
  previous_bids : gmap string float;
  minute_start_time : option Z;
  gap_counts : gmap string counts;
  db_conn : option (list tick_gap_row);
  trace : list effect
}.

Definition set_running v st :=
  Subscriber v (tick_data st) (previous_bids st) (minute_start_time st)
    (gap_counts st) (db_conn st) (trace st).
Definition set_tick_data v st :=
  Subscriber (running st) v (previous_bids st) (minute_start_time st)
    (gap_counts st) (db_conn st) (trace st).
Definition set_previous_bids v st :=
  Subscriber (running st) (tick_data st) v (minute_start_time st)
    (gap_counts st) (db_conn st) (trace st).
Definition set_minute_start_time v st :=
  Subscriber (running st) (tick_data st) (previous_bids st) v
    (gap_counts st) (db_conn st) (trace st).
Definition set_gap_counts v st :=
  Subscriber (running st) (tick_data st) (previous_bids st)
    (minute_start_time st) v (db_conn st) (trace st).
Definition set_db_conn v st :=
  Subscriber (running st) (tick_data st) (previous_bids st)
    (minute_start_time st) (gap_counts st) v (trace st).
Definition emit (e : effect) st :=
  Subscriber (running st) (tick_data st) (previous_bids st)
    (minute_start_time st) (gap_counts st) (db_conn st) (trace st ++ [e]).

(** [__init__] followed by [connect]. *)
Definition init (db : option (list tick_gap_row)) : subscriber :=
  Subscriber false ∅ ∅ None ∅ db [].

(** [_get_pip_size] *)
Definition _get_pip_size (symbol : string) : float :=
  if endswith symbol "JPY" then 0.01%float else 0.0001%float.

(** [abs(current_bid - prev_bid) / pip_size] *)
Definition gap_pips (symbol : string) (current_bid prev_bid : float) : float :=
  PrimFloat.div (PrimFloat.abs (PrimFloat.sub current_bid prev_bid))
                (_get_pip_size symbol).

(** [_save_gap_counts] *)
Definition _save_gap_counts (st : subscriber) : subscriber :=
  match db_conn st, minute_start_time st with
  | Some t, Some minute =>
      let rows := bucket_row minute <$> map_to_list (gap_counts st) in
      emit (SaveGapCounts rows) (set_db_conn (Some (save_rows rows t)) st)
  | _, _ => st
  end.

(** [_process_tick], after [json.loads] succeeded. *)
Definition _process_tick (st : subscriber) (symbol : string)
    (payload : tick) : subscriber :=
  match tick_bid payload with
  | None => st
  | Some current_bid =>
      let st :=
        match tick_time payload with
        | Some t =>
            let current_minute := truncate_minute t in
            let st :=
              match minute_start_time st with
              | Some m =>
                  if bool_decide (current_minute ≠ m)
                  then set_gap_counts ∅ (_save_gap_counts st)
                  else st
              | None => st
              end in
            let st := set_minute_start_time (Some current_minute) st in
            let st :=
              match gap_counts st !! symbol with
              | None => set_gap_counts (<[symbol := zero_counts]> (gap_counts st)) st
              | Some _ => st
              end in
            match previous_bids st !! symbol with
            | Some prev_bid =>
                if PrimFloat.leb 1.0%float (gap_pips symbol current_bid prev_bid)
                then set_gap_counts (alter incr_large symbol (gap_counts st)) st
                else set_gap_counts (alter incr_small symbol (gap_counts st)) st
            | None => st
            end
        | None => st
        end in
      let st := set_tick_data (<[symbol := payload]> (tick_data st)) st in
      set_previous_bids (<[symbol := current_bid]> (previous_bids st)) st
  end.

(** [stop], the receive thread having ended. *)
Definition stop (st : subscriber) : subscriber :=
  let st := set_running false st in
  let st := emit SocketClose st in
  let st := emit ContextTerm st in
  let st :=
    match minute_start_time st with
    | Some _ =>
        if bool_decide (gap_counts st ≠ ∅) then _save_gap_counts st else st
    | None => st
    end in
  match db_conn st with
  | Some _ => emit DbClose st
  | None => st
  end.

(** [get_latest_tick] *)
Definition get_latest_tick (st : subscriber) (symbol : string) : option tick :=
  tick_data st !! symbol.

Definition process_all (st : subscriber) (inputs : list (string * tick))
  : subscriber :=
  foldl (λ st i, _process_tick st i.1 i.2) st inputs.

End MT5TickSubscriber.

Module HP := HighPerformanceTickReceiver.
Module BK := MT5TickSubscriber.

(** ** The plain subscriber of [python/receive_ticks.py] *)

Module ReceiveTicks.

(** [l[-k:]]: the last [k] elements for a positive [k] (all of [l] when it
    is shorter); otherwise [-k] is a start index counted from the front,
    so that [l[-0:]] is [l]. *)
Definition slice_from_end {A} (k : Z) (l : list A) : list A :=
  if bool_decide (0 < k) then drop (length l - Z.to_nat k) l
  else drop (Z.to_nat (- k)) l.

(** The attributes of [self] that [_process_tick] and the getters use. *)
Record subscriber := Subscriber {
  running : bool;
  tick_data : gmap string tick;
  tick_history : gmap string (list tick);
  max_history : Z
}.

(** [__init__] *)
Definition init : subscriber := Subscriber false ∅ ∅ 1000.

(** [_process_tick]; [payload] is what [json.loads] gives, [None] when it
    raises [JSONDecodeError]. *)
Definition _process_tick (st : subscriber) (symbol : string)
    (payload : option tick) : subscriber :=
  match payload with
  | None => st
  | Some tick_data' =>
      let history := default [] (tick_history st !! symbol) ++ [tick_data'] in
      let history :=
        if bool_decide (Z.of_nat (length history) > max_history st)
        then slice_from_end (max_history st) history
        else history in
      Subscriber (running st) (<[symbol := tick_data']> (tick_data st))
        (<[symbol := history]> (tick_history st)) (max_history st)
  end.

(** [get_latest_tick] *)
Definition get_latest_tick (st : subscriber) (symbol : string) : option tick :=
  tick_data st !! symbol.

(** [get_tick_history] *)
Definition get_tick_history (st : subscriber) (symbol : string) : list tick :=
  default [] (tick_history st !! symbol).

Definition process_all (st : subscriber)
    (inputs : list (string * option tick)) : subscriber :=
  foldl (λ st i, _process_tick st i.1 i.2) st inputs.

End ReceiveTicks.

Module RT := ReceiveTicks.

(** ** The statistics viewer of [python/view_tick_gap_stats.py] *)

Module ViewTickGapStats.

(** [ORDER BY timestamp, symbol], texts being compared byte by byte. *)
Definition row_leb (r1 r2 : tick_gap_row) : bool :=
  bool_decide (tg_timestamp r1 < tg_timestamp r2)
  || (bool_decide (tg_timestamp r1 = tg_timestamp r2)
      && String.leb (tg_symbol r1) (tg_symbol r2)).

(** The WHERE clause that [get_gap_stats] builds: a filter is added for
    each argument that is truthy, so not for [None] nor for the empty
    text as [symbol].  The times are those of [int(t.timestamp())]. *)
Definition where_clauses (symbol : option string)
    (start_time end_time : option Z) (r : tick_gap_row) : bool :=
  match symbol with
  | Some s => if String.eqb s "" then true else String.eqb (tg_symbol r) s
  | None => true
  end
  && match start_time with
     | Some t => bool_decide (tg_timestamp r >= t)
     | None => true
     end
  && match end_time with
     | Some t => bool_decide (tg_timestamp r <= t)
     | None => true
     end.

(** [get_gap_stats]: the rows of the data frame, in order. *)
Definition get_gap_stats (conn : list tick_gap_row) (symbol : option string)
    (start_time end_time : option Z) : list tick_gap_row :=
  merge_sort (λ r1 r2, Is_true (row_leb r1 r2))
    (filter (λ r, where_clauses symbol start_time end_time r) conn).

(** The overall figures that [display_summary] prints; [None] when the
    data frame is empty and only the notice is printed. *)
Record summary := Summary {
  total_large : Z;
  total_small : Z;
  total_minutes : Z
}.

(** [df[column].sum()] as pandas computes it.  A column read from the
    database whose integers all fit signed 64 bits has dtype int64, one of
    non-negative integers below 2^64 has dtype uint64, and the sum is
    taken in that width and wraps around; any other column holds Python
    integers, which are added exactly. *)
Definition wrap_int64 (x : Z) : Z := (x + 2 ^ 63) mod 2 ^ 64 - 2 ^ 63.

Definition wrap_uint64 (x : Z) : Z := x mod 2 ^ 64.

Definition column_sum (column : list Z) : Z :=
  let total := foldr Z.add 0 column in
  if forallb fits_int64 column then wrap_int64 total
  else if forallb (λ x, bool_decide (0 ≤ x < 2 ^ 64)) column
       then wrap_uint64 total
       else total.

Definition display_summary (df : list tick_gap_row) : option summary :=
  match df with
  | [] => None
  | _ :: _ =>
      Some (Summary (column_sum (tg_large_gap_count <$> df))
                    (column_sum (tg_small_gap_count <$> df))
                    (Z.of_nat (length df)))
  end.

End ViewTickGapStats.

Module VW := ViewTickGapStats.

(** ** The publisher of [python/stress_test_high_volume.py] *)

Module StressTestHighVolume.

(** The attributes of [self] that [_send_tick] uses. *)
Record publisher := Publisher {
  symbols : list string;
  seq_nums : gmap string Z;
  sent_count : Z
}.

(** [__init__] *)
Definition init : publisher :=
  let symbols := ["EURUSD"; "GBPUSD"; "USDJPY"; "AUDUSD"; "USDCAD"] in
  Publisher symbols (list_to_map ((λ symbol, (symbol, 0)) <$> symbols)) 0.

(** [_send_tick].  [choice] is the index that [random.choice] draws, [u]
    the value of [random.uniform] and [now] the second of [time.time()];
    the result is the new state with the symbol and the tick data of the
    frame sent, as the receivers read it back from the JSON text.  [None]
    stands for the IndexError of a draw from no symbols and the KeyError
    of a symbol without a number. *)
Definition _send_tick (pub : publisher) (choice : nat) (u : float) (now : Z)
  : option (publisher * (string * tick)) :=
  symbol ← symbols pub !! choice;
  seq_num ← seq_nums pub !! symbol;
  let bid :=
    if String.eqb symbol "USDJPY" then PrimFloat.add 150.00%float u
    else PrimFloat.add 1.1000%float u in
  Some (Publisher (symbols pub) (<[symbol := seq_num + 1]> (seq_nums pub))
          (sent_count pub + 1),
        (symbol, Tick (Some seq_num) (Some bid) (Some now))).

(** Successive calls of [_send_tick], as in the loop of [start]. *)
Fixpoint send_all (pub : publisher) (draws : list (nat * float * Z))
  : option (publisher * list (string * tick)) :=
  match draws with
  | [] => Some (pub, [])
  | (choice, u, now) :: rest =>
      match _send_tick pub choice u now with
      | Some (pub, sent) =>
          match send_all pub rest with
          | Some (pub, more) => Some (pub, sent :: more)
          | None => None
          end
      | None => None
      end
  end.

End StressTestHighVolume.

Module TP := StressTestHighVolume.

(** ** The publisher of [python/stress_test.py] *)

Module StressTest.

(** The attributes of [self] that [start] and [stop] use. *)
Record publisher := Publisher {
  running : bool;
  tick_count : Z;
  start_time : option float;
  trace : list effect
}.

(** [__init__] *)
Definition init : publisher := Publisher false 0 None [].

(** [start]; [bind] tells whether [self.bind()] succeeds and [now] is the
    reading of [time.time()]. *)
Definition start (bind : bool) (now : float) (pub : publisher) : publisher :=
  if running pub then pub
  else if negb bind then pub
  else Publisher true (tick_count pub) (Some now) (trace pub).

(** How a call ends. *)
Inductive outcome :=
| Returns (pub : publisher)
| ZeroDivisionError (pub : publisher).

(** [time.time() - self.start_time if self.start_time else 0]: [None]
    stands for the integer 0 of the else branch, taken when [start_time]
    is [None] or 0.0. *)
Definition duration (now : float) (pub : publisher) : option float :=
  match start_time pub with
  | Some t => if PrimFloat.eqb t 0%float then None else Some (PrimFloat.sub now t)
  | None => None
  end.

(** [stop], the threads having ended; the division of the last line
    raises when [duration] equals zero. *)
Definition stop (now : float) (pub : publisher) : outcome :=
  let d := duration now pub in
  let pub := Publisher false (tick_count pub) (start_time pub)
               (trace pub ++ [SocketClose; ContextTerm]) in
  match d with
  | Some d => if PrimFloat.eqb d 0%float then ZeroDivisionError pub else Returns pub
  | None => ZeroDivisionError pub
  end.

End StressTest.

Module SP := StressTest.

(** ** Notions used in the statements *)

(** The state in which the sequence check of a tick leaves the receiver,
    and whether the check returns (a tick without [seq_num] has none). *)
Definition after_check (st : HP.receiver) (symbol : string) (tk : tick)
    (now : Z) : HP.receiver :=
  match tick_seq_num tk with
  | Some n => HP.state_of (HP._check_sequence st symbol n now)
  | None => st
  end.

Definition check_returns (st : HP.receiver) (symbol : string) (tk : tick)
    (now : Z) : bool :=
  match tick_seq_num tk with
  | Some n =>
      match HP._check_sequence st symbol n now with
      | HP.Returned _ => true
      | HP.Raised _ => false
      end
  | None => true
  end.

(** The sequence check of every tick of a run returns: no tick is
    abandoned. *)
Fixpoint checks_return (st : HP.receiver) (inputs : list (string * tick * Z))
  : bool :=
  match inputs with
  | [] => true
  | (s, tk, now) :: rest =>
      check_returns st s tk now
      && checks_return (HP._process_tick st s tk now) rest
  end.

(** Sequence numbers and clock readings for which no INSERT of the run can
    overflow: the numbers are not negative and, like the clock readings,
    fit in 64 bits. *)
Definition storable_number (n : Z) : bool := bool_decide (0 ≤ n < 2 ^ 63).

Definition storable_tick (i : string * tick * Z) : bool :=
  fits_int64 i.2
  && match tick_seq_num i.1.2 with
     | Some n => storable_number n
     | None => true
     end.

(** A detected discontinuity, as [_check_sequence] reports it. *)
Record GapEvent := MkGapEvent {
  ge_symbol : string;
  ge_gap_size : Z;
  ge_expected_seq : Z;
  ge_received_seq : Z
}.

Definition gap_event_of (e : effect) : option GapEvent :=
  match e with
  | PrintSequenceGap s g x r => Some (MkGapEvent s g x r)
  | _ => None
  end.

(** The gap events among the effects of a run, oldest first. *)
Definition gap_events (tr : list effect) : list GapEvent :=
  omap gap_event_of tr.

(** [seq_num] values that go up by exactly one per symbol; [last] holds the
    value seen last for each symbol.  Ticks without [seq_num] are skipped,
    as the receiver skips them. *)
Fixpoint consecutive_from (last : gmap string Z)
    (inputs : list (string * tick * Z)) : bool :=
  match inputs with
  | [] => true
  | (s, tk, _) :: rest =>
      match tick_seq_num tk with
      | None => consecutive_from last rest
      | Some n =>
          match last !! s with
          | Some l => bool_decide (n = l + 1) && consecutive_from (<[s := n]> last) rest
          | None => consecutive_from (<[s := n]> last) rest
          end
      end
  end.

(** [seq_num] values that never exceed the last one seen plus one. *)
Fixpoint no_jump_from (last : gmap string Z)
    (inputs : list (string * tick * Z)) : bool :=
  match inputs with
  | [] => true
  | (s, tk, _) :: rest =>
      match tick_seq_num tk with
      | None => no_jump_from last rest
      | Some n =>
          match last !! s with
          | Some l => bool_decide (n ≤ l + 1) && no_jump_from (<[s := n]> last) rest
          | None => no_jump_from (<[s := n]> last) rest
          end
      end
  end.

(** [seq_num] values that are strictly increasing per symbol. *)
Fixpoint strictly_increasing_from (last : gmap string Z)
    (inputs : list (string * tick * Z)) : bool :=
  match inputs with
  | [] => true
  | (s, tk, _) :: rest =>
      match tick_seq_num tk with
      | None => strictly_increasing_from last rest
      | Some n =>
          match last !! s with
          | Some l => bool_decide (l < n) && strictly_increasing_from (<[s := n]> last) rest
          | None => strictly_increasing_from (<[s := n]> last) rest
          end
      end
  end.

(** The sequence-gap part of a receiver state. *)
Definition sequence_gaps_of (st : HP.receiver) : list sequence_gap_row :=
  match HP.db_conn st with
  | Some db => HP.sequence_gaps db
  | None => []
  end.

(** The gap-bucket table of a receiver state. *)
Definition tick_gaps_of (st : HP.receiver) : list tick_gap_row :=
  match HP.db_conn st with
  | Some db => HP.tick_gaps db
  | None => []
  end.

(** The stored rows of [tick_gaps] under one primary key. *)
Definition rows_with_key (k : Z * string) (t : list tick_gap_row)
  : list tick_gap_row :=
  filter (λ r, tg_key r = k) t.

(** The primary-key constraint of [tick_gaps]. *)
Definition primary_key_ok (t : list tick_gap_row) : Prop :=
  NoDup (tg_key <$> t).

(** The bucket that a tick at time [t] finds for its symbol once the
    window has been rolled over if needed. *)
Definition bucket_before (minute : option Z) (gc : gmap string counts)
    (symbol : string) (t : Z) : counts :=
  match minute with
  | Some m =>
      if bool_decide (truncate_minute t ≠ m) then zero_counts
      else default zero_counts (gc !! symbol)
  | None => default zero_counts (gc !! symbol)
  end.

(** Whether a tick at time [t] closes the open window. *)
Definition closes_window (minute : option Z) (t : Z) : bool :=
  match minute with
  | Some m => bool_decide (truncate_minute t ≠ m)
  | None => false
  end.

(** The bucket after the tick has been classified against [prev]. *)
Definition classified (symbol : string) (bid : float) (prev : option float)
    (c : counts) : counts :=
  match prev with
  | Some p =>
      if PrimFloat.leb 1.0%float (HP.gap_pips symbol bid p)
      then incr_large c else incr_small c
  | None => c
  end.

(** Setting the bucket of [symbol] to each of [cs] in turn and flushing
    after each: repeated flushes under one (minute, symbol). *)
Definition reflush (symbol : string) (st : HP.receiver) (cs : list counts)
  : HP.receiver :=
  foldl (λ st c, HP._save_gap_counts
                   (HP.set_gap_counts (<[symbol := c]> (HP.gap_counts st)) st))
        st cs.

(** The batches of rows handed to the database by [_save_gap_counts],
    oldest first. *)
Definition flush_of (e : effect) : option (list tick_gap_row) :=
  match e with
  | SaveGapCounts rows => Some rows
  | _ => None
  end.

Definition flushes (tr : list effect) : list (list tick_gap_row) :=
  omap flush_of tr.

(** Release of the database connection, and of the sockets and context. *)
Definition releases_sink (e : effect) : bool :=
  match e with
  | DbClose => true
  | _ => false
  end.

Definition releases_network (e : effect) : bool :=
  match e with
  | SubscriberClose | RequesterClose | SocketClose | ContextTerm => true
  | _ => false
  end.

Definition releases_any (e : effect) : bool :=
  releases_sink e || releases_network e.

Definition is_flush (e : effect) : bool :=
  match e with
  | SaveGapCounts _ => true
  | _ => false
  end.

(** In [l] there is exactly one flush, and no effect selected by [release]
    comes before it. *)
Fixpoint flushed_once_before (release : effect → bool) (l : list effect)
  : bool :=
  match l with
  | [] => false
  | e :: l' =>
      if is_flush e then forallb (λ e', negb (is_flush e')) l'
      else negb (release e) && flushed_once_before release l'
  end.

(** The effects of [stop] in the high-performance receiver when a window
    is open and the database is connected. *)
Definition shutdown_effects (st : HP.receiver) (m : Z) : list effect :=
  [SaveGapCounts (bucket_row m <$> map_to_list (HP.gap_counts st));
   SubscriberClose]
  ++ (if HP.requester st then [RequesterClose] else [])
  ++ [ContextTerm; DbClose].

(** The same for the backup receiver. *)
Definition backup_shutdown_effects (st : BK.subscriber) (m : Z) : list effect :=
  [SocketClose; ContextTerm;
   SaveGapCounts (bucket_row m <$> map_to_list (BK.gap_counts st));
   DbClose].

(** The counters the receiver keeps. *)
Inductive counter := ReceiveCount | ProcessCount | MissedMessages.

Definition counter_value (c : counter) (st : HP.receiver) : Z :=
  match c with
  | ReceiveCount => HP.receive_count st
  | ProcessCount => HP.process_count st
  | MissedMessages => HP.missed_messages st
  end.

(** ** The receiver and the processor taking turns *)

(** One pass through the body of [_receive_loop] with a frame ready, or
    one pass through the body of [_process_loop].  The queue operations are
    atomic and each counter has one writer, so a run of the two threads is
    a sequence of such passes; a [put] that waits for a slot and gets it is
    the sequence in which the pass of the processor comes first. *)
Inductive turn :=
| Receive (message : string)
| Process (now : Z).

Definition take_turn (json_loads : string → option tick) (st : HP.receiver)
    (a : turn) : HP.receiver :=
  match a with
  | Receive message => HP._receive_loop_body st message
  | Process now => HP._process_loop_body json_loads st now
  end.

Definition interleave (json_loads : string → option tick) (st : HP.receiver)
    (schedule : list turn) : HP.receiver :=
  foldl (take_turn json_loads) st schedule.

(** The frames that arrived, in order of arrival. *)
Definition received (schedule : list turn) : list string :=
  omap (λ a, match a with Receive m => Some m | Process _ => None end) schedule.

(** The frames the processor took from the queue, in the order it took
    them. *)
Fixpoint taken (json_loads : string → option tick) (st : HP.receiver)
    (schedule : list turn) : list string :=
  match schedule with
  | [] => []
  | a :: rest =>
      match a, HP.message_queue st with
      | Process _, message :: _ => [message]
      | _, _ => []
      end ++ taken json_loads (take_turn json_loads st a) rest
  end.

(** The number of queue-full warnings among the effects. *)
Definition drops (tr : list effect) : Z :=
  Z.of_nat (length (omap (λ e, match e with
                               | PrintQueueFull => Some tt
                               | _ => None
                               end) tr)).

(** A frame that [_process_loop] hands to [_process_tick]: three parts, the
    first being TICK. *)
Definition is_tick_frame (message : string) : bool :=
  match HP.split_message message with
  | Some (msg_type, _, _) => String.eqb msg_type "TICK"
  | None => false
  end.

(** A text without the separator, and the number of separators in a text. *)
Fixpoint no_bar (s : string) : bool :=
  match s with
  | EmptyString => true
  | String c s' => negb (Ascii.eqb c "|"%char) && no_bar s'
  end.

Fixpoint count_bars (s : string) : nat :=
  match s with
  | EmptyString => O
  | String c s' => (if Ascii.eqb c "|"%char then 1 else 0)%nat + count_bars s'
  end.

(** The effects that [_process_tick] can perform. *)
Definition is_processing_effect (e : effect) : bool :=
  match e with
  | PrintSequenceGap _ _ _ _ | PrintSequenceGapDbError | SaveGapCounts _ => true
  | _ => false
  end.

(** The frame the publishers send: [f"TICK|{symbol}|{json_data}"]. *)
Definition format_frame (msg_type symbol payload : string) : string :=
  msg_type +:+ String "|"%char (symbol +:+ String "|"%char payload).

(** ** Notions about runs of sequence numbers *)

(** The sum of the gap sizes of a list of gap events. *)
Definition gap_total (l : list GapEvent) : Z :=
  foldr (λ e acc, ge_gap_size e + acc) 0 l.

(** The gap events of one symbol. *)
Definition gap_events_of (s : string) (l : list GapEvent) : list GapEvent :=
  filter (λ e, ge_symbol e = s) l.

(** The gap events a run added to those reported before it. *)
Definition new_gap_events (st st' : HP.receiver) : list GapEvent :=
  drop (length (gap_events (HP.trace st))) (gap_events (HP.trace st')).

(** The rows a run added to [sequence_gaps]. *)
Definition new_sequence_gaps (st st' : HP.receiver) : list sequence_gap_row :=
  drop (length (sequence_gaps_of st)) (sequence_gaps_of st').

(** The [seq_num] values the ticks of one symbol carry, in order. *)
Definition symbol_seqs (s : string) (inputs : list (string * tick * Z))
  : list Z :=
  omap (λ i, if decide (i.1.1 = s) then tick_seq_num i.1.2 else None) inputs.

(** The bids the ticks of one symbol carry, in order. *)
Definition symbol_bids (s : string) (inputs : list (string * tick * Z))
  : list float :=
  omap (λ i, if decide (i.1.1 = s) then tick_bid i.1.2 else None) inputs.

Fixpoint increasing_from (l : Z) (ns : list Z) : bool :=
  match ns with
  | [] => true
  | n :: rest => bool_decide (l < n) && increasing_from n rest
  end.

(** What [_check_sequence] reports for [seq_num] [n] when [last] is the
    value kept for the symbol. *)
Definition step_events (last : option Z) (s : string) (n : Z)
  : list GapEvent :=
  match last with
  | Some l =>
      if bool_decide (n > l + 1) then [MkGapEvent s (n - (l + 1)) (l + 1) n]
      else []
  | None => []
  end.

(** The gap event a row of [sequence_gaps] records. *)
Definition row_event (r : sequence_gap_row) : GapEvent :=
  MkGapEvent (sg_symbol r) (sg_gap_size r) (sg_expected_seq r)
             (sg_received_seq r).

(** ** Notions about the buckets *)

(** The number of classifications a bucket holds. *)
Definition weight (c : counts) : Z := large c + small c.

(** The classifications held by the buckets of the open window, by the
    rows of one flush, and by a list of flushes. *)
Definition bucket_total (gc : gmap string counts) : Z :=
  map_fold (λ _ c acc, weight c + acc) 0 gc.

Definition rows_total (rows : list tick_gap_row) : Z :=
  foldr (λ r acc, tg_large_gap_count r + tg_small_gap_count r + acc) 0 rows.

Definition flushed_total (fl : list (list tick_gap_row)) : Z :=
  foldr (λ rows acc, rows_total rows + acc) 0 fl.

(** The ticks of a run that get classified: those with a bid and a time
    whose symbol has a previous bid when they arrive, [known] being the
    symbols that have one at the start. *)
Fixpoint classified_ticks (known : gset string)
    (inputs : list (string * tick * Z)) : Z :=
  match inputs with
  | [] => 0
  | (s, tk, _) :: rest =>
      match tick_bid tk with
      | Some _ =>
          match tick_time tk with
          | Some _ => if decide (s ∈ known) then 1 else 0
          | None => 0
          end + classified_ticks ({[ s ]} ∪ known) rest
      | None => classified_ticks known rest
      end
  end.

(** What holds of the window in every state the receiver reaches. *)
Definition window_ok (st : HP.receiver) : Prop :=
  (HP.minute_start_time st = None ↔ HP.gap_counts st = ∅)
  ∧ dom (HP.gap_counts st) ⊆ dom (HP.prev_bids st)
  ∧ map_Forall (λ _ c, 0 ≤ large c ∧ 0 ≤ small c) (HP.gap_counts st)
  ∧ (∀ m, HP.minute_start_time st = Some m → truncate_minute m = m).

(** The two receivers hold the same aggregation state and have handed the
    same batches to their databases. *)
Definition same_aggregation (hp : HP.receiver) (bk : BK.subscriber) : Prop :=
  HP.prev_bids hp = BK.previous_bids bk
  ∧ HP.minute_start_time hp = BK.minute_start_time bk
  ∧ HP.gap_counts hp = BK.gap_counts bk
  ∧ HP.tick_gaps <$> HP.db_conn hp = BK.db_conn bk
  ∧ flushes (HP.trace hp) = flushes (BK.trace bk).

(** ** Notions about the tick history *)

(** The ticks of one symbol that decoded, in order of arrival. *)
Definition ticks_of (s : string) (inputs : list (string * option tick))
  : list tick :=
  omap (λ i, if decide (i.1 = s) then i.2 else None) inputs.

(** ** Notions about the publisher *)

(** Every symbol the publisher draws from has a number. *)
Definition numbered (pub : TP.publisher) : Prop :=
  ∀ s, s ∈ TP.symbols pub → is_Some (TP.seq_nums pub !! s).

(** The draws that [random.choice] can make. *)
Definition drawn_from (pub : TP.publisher) (draws : list (nat * float * Z))
  : Prop :=
  Forall (λ d, (d.1.1 < length (TP.symbols pub))%nat) draws.

(** The [seq_num] values sent for one symbol, in order. *)
Definition sent_seqs (s : string) (sent : list (string * tick)) : list Z :=
  omap (λ o, if decide (o.1 = s) then tick_seq_num o.2 else None) sent.

(** ** Notions about the latest tick *)

(** The ticks of one symbol that carry a bid, in order of arrival. *)
Definition ticks_with_bid (s : string) (inputs : list (string * tick))
  : list tick :=
  omap (λ i, if decide (i.1 = s) then
               match tick_bid i.2 with Some _ => Some i.2 | None => None end
             else None) inputs.

(** ** Concrete inputs used in the examples *)

(** 2024-01-01 12:00:00 UTC. *)
Definition noon : Z := 1704110400.

(** A receiver just connected to an empty database and started. *)
Definition fresh : HP.receiver :=
  HP.start (HP.init true 10000 (Some (HP.Database [] []))).

(** [seq_num] 1, 2, 5 for one symbol. *)
Definition inputs_1_2_5 : list (string * tick * Z) :=
  [ ("EURUSD", Tick (Some 1) (Some 1.1%float) (Some noon), noon);
    ("EURUSD", Tick (Some 2) (Some 1.1%float) (Some (noon + 1)), noon + 1);
    ("EURUSD", Tick (Some 5) (Some 1.1%float) (Some (noon + 2)), noon + 2) ].

(** A receiver that saw [seq_num] 10 for EURUSD. *)
Definition seen_10 : HP.receiver :=
  HP.set_seq_nums {[ "EURUSD" := 10 ]} fresh.

(** Two EURUSD ticks at 12:00:30 and 12:00:59, the second 1.1 pips above
    the first, and one at 12:01:00, half a pip above the second. *)
Definition ticks_in_1200 : list (string * tick * Z) :=
  [ ("EURUSD", Tick None (Some 1.1%float) (Some (noon + 30)), noon + 30);
    ("EURUSD", Tick None (Some 1.10011%float) (Some (noon + 59)), noon + 59) ].

Definition tick_at_1201 : tick :=
  Tick None (Some 1.10016%float) (Some (noon + 60)).

(** A receiver whose last EURUSD bid is 1.10000, window 12:00 open. *)
Definition after_first_tick : HP.receiver :=
  HP.process_all fresh
    [ ("EURUSD", Tick None (Some 1.1%float) (Some (noon + 30)), noon + 30) ].

(** [seq_num] 1, 2, 3 for one symbol. *)
Definition inputs_1_2_3 : list (string * tick * Z) :=
  [ ("EURUSD", Tick (Some 1) (Some 1.1%float) (Some noon), noon);
    ("EURUSD", Tick (Some 2) (Some 1.1%float) (Some (noon + 1)), noon + 1);
    ("EURUSD", Tick (Some 3) (Some 1.1%float) (Some (noon + 2)), noon + 2) ].


(** The backup receiver after the same first tick. *)
Definition backup_after_first_tick : BK.subscriber :=
  BK.process_all (BK.init (Some []))
    [ ("EURUSD", Tick None (Some 1.1%float) (Some (noon + 30))) ].

(** A bid of 1.2 without [time], then a bid of 1.20001 at 12:01:00. *)
Definition untimed_tick : tick := Tick None (Some 1.2%float) None.
Definition timed_tick : tick := Tick None (Some 1.20001%float) (Some (noon + 60)).

(** A receiver with room for two messages: one queued, and two queued. *)
Definition with_room : HP.receiver :=
  HP.set_message_queue ["TICK|EURUSD|{}"] (HP.start (HP.init true 2 None)).
Definition queue_is_full : HP.receiver :=
  HP.set_message_queue ["TICK|EURUSD|{}"; "TICK|EURUSD|{}"]
    (HP.start (HP.init true 2 None)).

(** EURUSD ticks at 12:00:30, 12:00:59, 12:01:00, then one stamped
    12:00:40 that arrives late, then one at 12:02:00. *)
Definition late_tick_run : list (string * tick * Z) :=
  [ ("EURUSD", Tick None (Some 1.1%float) (Some (noon + 30)), noon + 30);
    ("EURUSD", Tick None (Some 1.10011%float) (Some (noon + 59)), noon + 59);
    ("EURUSD", Tick None (Some 1.10016%float) (Some (noon + 60)), noon + 60);
    ("EURUSD", Tick None (Some 1.10017%float) (Some (noon + 40)), noon + 61);
    ("EURUSD", Tick None (Some 1.10018%float) (Some (noon + 120)), noon + 120) ].

(** ** Sequence-gap detector *)

Lemma check_sequence_first_sighting st symbol seq_num now :
  HP.seq_nums st !! symbol = None →
  HP._check_sequence st symbol seq_num now
  = HP.Returned (HP.set_seq_nums (<[symbol := seq_num]> (HP.seq_nums st)) st).
Proof. intros H. unfold HP._check_sequence. by rewrite H. Qed.
Lemma check_sequence_no_jump st symbol last seq_num now :
  HP.seq_nums st !! symbol = Some last →
  seq_num ≤ last + 1 →
  HP._check_sequence st symbol seq_num now
  = HP.Returned (HP.set_seq_nums (<[symbol := seq_num]> (HP.seq_nums st)) st).
Proof.
  intros H Hle. unfold HP._check_sequence. rewrite H.
  rewrite bool_decide_eq_false_2; [done | lia].
Qed.

(** The check is left by an exception exactly on a jump, with the database
    connected, when one of the four integers of the row does not fit. *)
Lemma check_returns_spec st symbol tk now :
  check_returns st symbol tk now
  = match tick_seq_num tk, HP.seq_nums st !! symbol, HP.db_conn st with
    | Some n, Some last, Some _ =>
        negb (bool_decide (n > last + 1))
        || (fits_int64 now && fits_int64 (n - (last + 1))
            && fits_int64 (last + 1) && fits_int64 n)
    | _, _, _ => true
    end.
Proof.
  unfold check_returns, HP._check_sequence.
  destruct (tick_seq_num tk) as [n|]; [|done].
  destruct (HP.seq_nums st !! symbol) as [last|]; [|done].
  case_bool_decide; simpl; [|by destruct (HP.db_conn st)].
  destruct (HP.db_conn st) as [db|]; [|done].
  unfold insert_sequence_gap. simpl.
  destruct (fits_int64 now && fits_int64 (n - (last + 1))
            && fits_int64 (last + 1) && fits_int64 n); [|done].
  by case_decide.
Qed.

Lemma check_returns_no_database st symbol tk now :
  HP.db_conn st = None → check_returns st symbol tk now = true.
Proof.
  intros Hdb. rewrite check_returns_spec, Hdb.
  destruct (tick_seq_num tk); [|done]. by destruct (HP.seq_nums st !! symbol).
Qed.

Lemma check_returns_quiet st symbol tk now :
  match tick_seq_num tk, HP.seq_nums st !! symbol with
  | Some n, Some last => n ≤ last + 1
  | _, _ => True
  end →
  check_returns st symbol tk now = true.
Proof.
  intros Hq. rewrite check_returns_spec.
  destruct (tick_seq_num tk) as [n|]; [|done].
  destruct (HP.seq_nums st !! symbol) as [last|]; [|done].
  destruct (HP.db_conn st); [|done].
  rewrite bool_decide_eq_false_2 by lia. done.
Qed.

Lemma check_sequence_seq_nums st symbol seq_num now :
  HP.seq_nums (HP.state_of (HP._check_sequence st symbol seq_num now))
  = match HP._check_sequence st symbol seq_num now with
    | HP.Returned _ => <[symbol := seq_num]> (HP.seq_nums st)
    | HP.Raised _ => HP.seq_nums st
    end.
Proof.
  unfold HP._check_sequence.
  destruct (HP.seq_nums st !! symbol) as [last|]; [|done].
  case_bool_decide; [|done].
  simpl. destruct (HP.db_conn st) as [db|]; [|done].
  simpl. by destruct (insert_sequence_gap _ _).
Qed.

Lemma check_sequence_aggregation st symbol seq_num now :
  let st' := HP.state_of (HP._check_sequence st symbol seq_num now) in
  HP.prev_bids st' = HP.prev_bids st
  ∧ HP.minute_start_time st' = HP.minute_start_time st
  ∧ HP.gap_counts st' = HP.gap_counts st
  ∧ tick_gaps_of st' = tick_gaps_of st
  ∧ (HP.db_conn st' = None ↔ HP.db_conn st = None).
Proof.
  unfold HP._check_sequence, tick_gaps_of.
  destruct (HP.seq_nums st !! symbol) as [last|]; [|done].
  case_bool_decide; [|done].
  simpl. destruct (HP.db_conn st) as [db|] eqn:Hdb; simpl; rewrite ?Hdb; [|done].
  destruct (insert_sequence_gap _ _); simpl; by rewrite ?Hdb.
Qed.

(** A jump forward: one report, the counter grows by the size of the gap,
    whether or not the row can be stored. *)
Lemma check_sequence_jump st symbol last seq_num now :
  HP.seq_nums st !! symbol = Some last →
  last + 1 < seq_num →
  let st' := HP.state_of (HP._check_sequence st symbol seq_num now) in
  HP.missed_messages st' = HP.missed_messages st + (seq_num - (last + 1))
  ∧ gap_events (HP.trace st')
    = gap_events (HP.trace st)
      ++ [MkGapEvent symbol (seq_num - (last + 1)) (last + 1) seq_num].
Proof.
  intros H Hlt. unfold HP._check_sequence. rewrite H.
  rewrite bool_decide_eq_true_2; [|lia].
  simpl. destruct (HP.db_conn st) as [db|]; simpl.
  - destruct (insert_sequence_gap _ _); simpl; split; try done;
      unfold gap_events; rewrite ?omap_app; simpl; by rewrite ?app_nil_r.
  - split; [done|]. unfold gap_events. by rewrite omap_app.
Qed.

(** What the rest of [_process_tick] leaves alone. *)
Lemma save_gap_counts_frame st :
  let st' := HP._save_gap_counts st in
  HP.seq_nums st' = HP.seq_nums st
  ∧ HP.missed_messages st' = HP.missed_messages st
  ∧ gap_events (HP.trace st') = gap_events (HP.trace st)
  ∧ sequence_gaps_of st' = sequence_gaps_of st
  ∧ HP.prev_bids st' = HP.prev_bids st
  ∧ HP.minute_start_time st' = HP.minute_start_time st
  ∧ HP.gap_counts st' = HP.gap_counts st.
Proof.
  unfold HP._save_gap_counts, sequence_gaps_of.
  destruct (HP.db_conn st) as [db|] eqn:Hdb; [|by rewrite ?Hdb].
  destruct (HP.minute_start_time st) as [m|] eqn:Hm; [|by rewrite ?Hdb, ?Hm].
  simpl. unfold gap_events. rewrite omap_app. simpl. by rewrite app_nil_r.
Qed.

Ltac tick_cases :=
  repeat match goal with
         | |- context [match ?x with _ => _ end] => destruct x eqn:?
         end; simpl in *.

(** [_process_tick] is the sequence check followed, when the check
    returns, by the part that reads the bid and the time. *)
Lemma process_tick_split st symbol tk now :
  HP._process_tick st symbol tk now
  = if check_returns st symbol tk now
    then HP._process_tick (after_check st symbol tk now) symbol
           (Tick None (tick_bid tk) (tick_time tk)) now
    else after_check st symbol tk now.
Proof.
  unfold HP._process_tick, check_returns, after_check. simpl.
  destruct (tick_seq_num tk) as [n|]; [|done].
  by destruct (HP._check_sequence st symbol n now).
Qed.

Lemma process_tick_abandoned st symbol tk now :
  check_returns st symbol tk now = false →
  HP._process_tick st symbol tk now = after_check st symbol tk now.
Proof. intros H. by rewrite process_tick_split, H. Qed.

Lemma process_tick_sequence_frame st symbol tk now :
  let st1 := after_check st symbol tk now in
  let st' := HP._process_tick st symbol tk now in
  HP.seq_nums st' = HP.seq_nums st1
  ∧ HP.missed_messages st' = HP.missed_messages st1
  ∧ gap_events (HP.trace st') = gap_events (HP.trace st1)
  ∧ sequence_gaps_of st' = sequence_gaps_of st1.
Proof.
  cbv zeta. rewrite process_tick_split.
  destruct (check_returns st symbol tk now); [|done].
  set (st1 := after_check st symbol tk now). clearbody st1.
  unfold HP._process_tick. simpl.
  destruct (save_gap_counts_frame st1) as (? & ? & ? & ? & _).
  tick_cases; done.
Qed.

Lemma after_check_aggregation st symbol tk now :
  let st' := after_check st symbol tk now in
  HP.prev_bids st' = HP.prev_bids st
  ∧ HP.minute_start_time st' = HP.minute_start_time st
  ∧ HP.gap_counts st' = HP.gap_counts st
  ∧ tick_gaps_of st' = tick_gaps_of st
  ∧ (HP.db_conn st' = None ↔ HP.db_conn st = None).
Proof.
  unfold after_check. destruct (tick_seq_num tk); [|done].
  apply check_sequence_aggregation.
Qed.

Lemma process_tick_seq_nums st symbol tk now :
  HP.seq_nums (HP._process_tick st symbol tk now)
  = match tick_seq_num tk with
    | Some n =>
        if check_returns st symbol tk now then <[symbol := n]> (HP.seq_nums st)
        else HP.seq_nums st
    | None => HP.seq_nums st
    end.
Proof.
  destruct (process_tick_sequence_frame st symbol tk now) as (-> & _).
  unfold after_check, check_returns.
  destruct (tick_seq_num tk) as [n|]; [|done].
  rewrite check_sequence_seq_nums.
  by destruct (HP._check_sequence st symbol n now).
Qed.

Lemma process_tick_quiet st symbol tk now :
  match tick_seq_num tk, HP.seq_nums st !! symbol with
  | Some n, Some last => n ≤ last + 1
  | _, _ => True
  end →
  let st' := HP._process_tick st symbol tk now in
  HP.missed_messages st' = HP.missed_messages st
  ∧ gap_events (HP.trace st') = gap_events (HP.trace st)
  ∧ sequence_gaps_of st' = sequence_gaps_of st.
Proof.
  intros Hq. cbv zeta.
  destruct (process_tick_sequence_frame st symbol tk now) as (_ & -> & -> & ->).
  unfold after_check.
  destruct (tick_seq_num tk) as [n|]; [|done].
  destruct (HP.seq_nums st !! symbol) as [last|] eqn:Hl.
  - by rewrite (check_sequence_no_jump _ _ _ _ _ Hl Hq).
  - by rewrite (check_sequence_first_sighting _ _ _ _ Hl).
Qed.

Lemma process_tick_jump st symbol tk now n last :
  tick_seq_num tk = Some n →
  HP.seq_nums st !! symbol = Some last →
  last + 1 < n →
  let st' := HP._process_tick st symbol tk now in
  HP.missed_messages st' = HP.missed_messages st + (n - (last + 1))
  ∧ gap_events (HP.trace st')
    = gap_events (HP.trace st) ++ [MkGapEvent symbol (n - (last + 1)) (last + 1) n].
Proof.
  intros Hn Hl Hlt. cbv zeta.
  destruct (process_tick_sequence_frame st symbol tk now) as (_ & -> & -> & _).
  unfold after_check. rewrite Hn. by apply check_sequence_jump.
Qed.

Lemma process_tick_sequence_gaps st symbol tk now n last :
  tick_seq_num tk = Some n →
  HP.seq_nums st !! symbol = Some last →
  last + 1 < n →
  let row := SequenceGapRow now symbol (n - (last + 1)) (last + 1) n in
  sequence_gaps_of (HP._process_tick st symbol tk now)
  = match HP.db_conn st with
    | Some db =>
        match insert_sequence_gap row (HP.sequence_gaps db) with
        | Inserted t => t
        | IntegrityError | OverflowError => HP.sequence_gaps db
        end
    | None => []
    end.
Proof.
  intros Hn Hl Hlt. cbv zeta.
  destruct (process_tick_sequence_frame st symbol tk now) as (_ & _ & _ & ->).
  unfold after_check. rewrite Hn.
  unfold HP._check_sequence, sequence_gaps_of. rewrite Hl.
  rewrite bool_decide_eq_true_2; [|lia].
  simpl. destruct (HP.db_conn st) as [db|] eqn:Hdb; simpl; [|by rewrite Hdb].
  destruct (insert_sequence_gap _ _); simpl; by rewrite ?Hdb.
Qed.

Lemma no_jump_step st s tk now rest :
  no_jump_from (HP.seq_nums st) ((s, tk, now) :: rest) = true →
  match tick_seq_num tk, HP.seq_nums st !! s with
  | Some n, Some last => n ≤ last + 1
  | _, _ => True
  end
  ∧ no_jump_from (HP.seq_nums (HP._process_tick st s tk now)) rest = true.
Proof.
  simpl. intros Hnj.
  assert (Hq : match tick_seq_num tk, HP.seq_nums st !! s with
               | Some n, Some last => n ≤ last + 1
               | _, _ => True
               end).
  { destruct (tick_seq_num tk) as [n|]; [|done].
    destruct (HP.seq_nums st !! s) as [l|]; [|done].
    apply andb_prop in Hnj as [Hle _]. by apply bool_decide_eq_true_1 in Hle. }
  split; [done|].
  rewrite process_tick_seq_nums, (check_returns_quiet _ _ _ _ Hq).
  destruct (tick_seq_num tk) as [n|]; [|done].
  destruct (HP.seq_nums st !! s) as [l|]; [|done].
  by apply andb_prop in Hnj as [_ ?].
Qed.

Lemma no_jump_missed inputs : ∀ st,
  no_jump_from (HP.seq_nums st) inputs = true →
  HP.missed_messages (HP.process_all st inputs) = HP.missed_messages st
  ∧ gap_events (HP.trace (HP.process_all st inputs)) = gap_events (HP.trace st).
Proof.
  induction inputs as [|[[s tk] now] rest IH]; intros st Hnj; [done|].
  apply no_jump_step in Hnj as [Hq Hrest].
  unfold HP.process_all in *. simpl.
  destruct (process_tick_quiet st s tk now Hq) as (Hm & Hg & _).
  destruct (IH (HP._process_tick st s tk now) Hrest) as [IHm IHg].
  by rewrite IHm, IHg, Hm, Hg.
Qed.

Lemma consecutive_no_jump inputs : ∀ last,
  consecutive_from last inputs = true → no_jump_from last inputs = true.
Proof.
  induction inputs as [|[[s tk] now] rest IH]; intros last H; [done|].
  simpl in *. destruct (tick_seq_num tk) as [n|]; [|by apply IH].
  destruct (last !! s) as [l|]; [|by apply IH].
  apply andb_prop in H as [Hn Hr]. apply bool_decide_eq_true_1 in Hn.
  rewrite (IH _ Hr), andb_true_r. apply bool_decide_eq_true_2. lia.
Qed.

(** C6, the failing input.  A receiver with its database connected has
    kept 10 for EURUSD and gets a tick with [seq_num] 2^63 + 5.  The gap
    is counted and reported, the INSERT raises OverflowError, which leaves
    [_check_sequence] before the assignment to [seq_nums]: the number kept
    is still 10, and no row is stored.  On the sibling path, where the
    INSERT fails with a sqlite3.Error (the key of the row is stored
    already), the error is printed and the number is overwritten. *)
Lemma overflow_skips_the_overwrite :
  let st' := HP._process_tick seen_10 "EURUSD"
               (Tick (Some (2 ^ 63 + 5)) None None) noon in
  let stored := HP.set_db_conn
                  (Some (HP.Database [] [SequenceGapRow noon "EURUSD" 1 11 12]))
                  seen_10 in
  let st'' := HP._process_tick stored "EURUSD" (Tick (Some 15) None None) noon in
  HP.seq_nums seen_10 !! "EURUSD" = Some 10
  ∧ HP.seq_nums st' !! "EURUSD" = Some 10
  ∧ HP.missed_messages st' = 2 ^ 63 + 5 - 11
  ∧ gap_events (HP.trace st')
    = [MkGapEvent "EURUSD" (2 ^ 63 + 5 - 11) 11 (2 ^ 63 + 5)]
  ∧ sequence_gaps_of st' = []
  ∧ HP.seq_nums st'' !! "EURUSD" = Some 15
  ∧ HP.trace st'' = [PrintSequenceGap "EURUSD" 4 11 15; PrintSequenceGapDbError].
Proof. vm_compute. by repeat split. Qed.

(** X24.  A tick that carries [seq_num] overwrites the number kept for its
    symbol, whatever was kept before (lower, equal or higher: an
    overwrite, not a maximum), and leaves the numbers of the other symbols
    alone, whenever its sequence check returns.  The check fails to return
    exactly on a jump, at a receiver with its database connected, when the
    clock reading, the gap size, the expected or the received number does
    not fit in 64 bits; then every kept number stays.  When the symbol was
    not seen before, nothing is added to the missed-message counter, no
    gap is reported and no row is stored. *)
Theorem last_seen_is_overwritten st symbol tk now seq_num :
  tick_seq_num tk = Some seq_num →
  let st' := HP._process_tick st symbol tk now in
  HP.seq_nums st'
  = (if check_returns st symbol tk now
     then <[symbol := seq_num]> (HP.seq_nums st)
     else HP.seq_nums st)
  ∧ check_returns st symbol tk now
    = match HP.seq_nums st !! symbol, HP.db_conn st with
      | Some last, Some _ =>
          negb (bool_decide (seq_num > last + 1))
          || (fits_int64 now && fits_int64 (seq_num - (last + 1))
              && fits_int64 (last + 1) && fits_int64 seq_num)
      | _, _ => true
      end
  ∧ match HP.seq_nums st !! symbol with
    | None =>
        HP.missed_messages st' = HP.missed_messages st
        ∧ gap_events (HP.trace st') = gap_events (HP.trace st)
        ∧ sequence_gaps_of st' = sequence_gaps_of st
    | Some _ => True
    end.
Proof.
  intros Hn st'. subst st'. split; [|split].
  - by rewrite process_tick_seq_nums, Hn.
  - rewrite check_returns_spec, Hn.
    destruct (HP.seq_nums st !! symbol); [|done]. by destruct (HP.db_conn st).
  - destruct (HP.seq_nums st !! symbol) eqn:Hl; [done|].
    apply process_tick_quiet. by rewrite Hn, Hl.
Qed.

(** A lower value replaces a higher one: 10 is followed by 4, and 4 is kept. *)
Lemma last_seen_is_overwritten_witness :
  HP.seq_nums (HP._process_tick seen_10 "EURUSD" (Tick (Some 4) None None) noon)
  = <[ "EURUSD" := 4 ]> (HP.seq_nums seen_10).
Proof.
  exact (proj1 (last_seen_is_overwritten seen_10 "EURUSD"
                  (Tick (Some 4) None None) noon 4 eq_refl)).
Defined.

(** C2, the claim as worded: after [seq_num] 1, 2, 5 the one gap event does
    not have gap_size 3 and the missed-message counter has not grown by 3. *)
Lemma seq_1_2_5_gap_size_is_not_3 :
  let st3 := HP.process_all fresh inputs_1_2_5 in
  gap_events (HP.trace st3) ≠ [MkGapEvent "EURUSD" 3 3 5]
  ∧ HP.missed_messages st3 ≠ HP.missed_messages fresh + 3.
Proof. split; vm_compute; discriminate. Qed.

(** C2, amended.  From a state that holds no sequence number for the
    symbol, ticks with [seq_num] 1, 2 and 5 yield no gap event at 1 (first
    sighting), none at 2 (last seen plus one) and exactly one at 5, with
    gap_size 2 (= 5 - 3), expected_seq 3 and received_seq 5; the
    missed-message counter is unchanged by the first two and grows by 2 in
    all; at most the one row (now, symbol, 2, 3, 5) is stored in
    [sequence_gaps]. *)
Theorem seq_1_2_5_one_gap_event st symbol tk1 tk2 tk3 n1 n2 n3 :
  HP.seq_nums st !! symbol = None →
  tick_seq_num tk1 = Some 1 →
  tick_seq_num tk2 = Some 2 →
  tick_seq_num tk3 = Some 5 →
  let st1 := HP._process_tick st symbol tk1 n1 in
  let st2 := HP._process_tick st1 symbol tk2 n2 in
  let st3 := HP._process_tick st2 symbol tk3 n3 in
  gap_events (HP.trace st1) = gap_events (HP.trace st)
  ∧ gap_events (HP.trace st2) = gap_events (HP.trace st)
  ∧ gap_events (HP.trace st3)
    = gap_events (HP.trace st) ++ [MkGapEvent symbol 2 3 5]
  ∧ HP.missed_messages st1 = HP.missed_messages st
  ∧ HP.missed_messages st2 = HP.missed_messages st
  ∧ HP.missed_messages st3 = HP.missed_messages st + 2
  ∧ (sequence_gaps_of st3 = sequence_gaps_of st
     ∨ sequence_gaps_of st3
       = sequence_gaps_of st ++ [SequenceGapRow n3 symbol 2 3 5]).
Proof.
  intros H0 H1 H2 H5 st1 st2 st3.
  assert (Hs1 : HP.seq_nums st1 !! symbol = Some 1).
  { subst st1. rewrite process_tick_seq_nums, H1, check_returns_quiet.
    - apply lookup_insert_eq.
    - by rewrite H1, H0. }
  assert (Hs2 : HP.seq_nums st2 !! symbol = Some 2).
  { subst st2. rewrite process_tick_seq_nums, H2, check_returns_quiet.
    - apply lookup_insert_eq.
    - rewrite H2, Hs1. lia. }
  destruct (process_tick_quiet st symbol tk1 n1) as (Hm1 & Hg1 & Hr1).
  { by rewrite H1, H0. }
  destruct (process_tick_quiet st1 symbol tk2 n2) as (Hm2 & Hg2 & Hr2).
  { rewrite H2, Hs1. lia. }
  destruct (process_tick_jump st2 symbol tk3 n3 5 2 H5 Hs2) as (Hm3 & Hg3); [lia|].
  pose proof (process_tick_sequence_gaps st2 symbol tk3 n3 5 2 H5 Hs2 eq_refl) as Hr3.
  cbv zeta in Hr3.
  fold st1 in Hm1, Hg1, Hr1, Hm2, Hg2, Hr2. fold st2 in Hm2, Hg2, Hr2, Hm3, Hg3, Hr3.
  fold st3 in Hm3, Hg3, Hr3.
  change (5 - (2 + 1)) with 2 in *. change (2 + 1) with 3 in *.
  repeat split.
  - done.
  - congruence.
  - rewrite Hg3. congruence.
  - done.
  - congruence.
  - rewrite Hm3. lia.
  - rewrite Hr3, <- Hr1, <- Hr2. unfold sequence_gaps_of.
    destruct (HP.db_conn st2) as [db|]; [|by left].
    unfold insert_sequence_gap. simpl.
    destruct (_ && _); [|by left].
    case_decide; [by left | by right].
Qed.

Lemma seq_1_2_5_one_gap_event_witness :
  let st3 := HP.process_all fresh inputs_1_2_5 in
  gap_events (HP.trace st3) = [MkGapEvent "EURUSD" 2 3 5]
  ∧ HP.missed_messages st3 = 2.
Proof.
  pose proof (seq_1_2_5_one_gap_event
                fresh "EURUSD"
                (Tick (Some 1) (Some 1.1%float) (Some noon))
                (Tick (Some 2) (Some 1.1%float) (Some (noon + 1)))
                (Tick (Some 5) (Some 1.1%float) (Some (noon + 2)))
                noon (noon + 1) (noon + 2)
                eq_refl eq_refl eq_refl eq_refl) as H.
  cbv zeta in H. destruct H as (_ & _ & Hg & _ & _ & Hm & _).
  split; [exact Hg | exact Hm].
Defined.

(** C3, the claim as worded: the strictly increasing values 1, 2, 5 leave
    the missed-message counter at 2, not 0. *)
Lemma strictly_increasing_counts_missed :
  strictly_increasing_from ∅ inputs_1_2_5 = true
  ∧ HP.missed_messages
      (HP.process_all fresh inputs_1_2_5)
    ≠ 0.
Proof. split; [reflexivity | vm_compute; discriminate]. Qed.

(** C3, amended.  When the [seq_num] values go up by exactly one per
    symbol, the missed-message counter is 0 after the whole run of a
    receiver just started, and no gap event was reported. *)
Theorem consecutive_seq_nums_miss_nothing ec qs db inputs :
  consecutive_from ∅ inputs = true →
  let st' := HP.process_all (HP.start (HP.init ec qs db)) inputs in
  HP.missed_messages st' = 0 ∧ gap_events (HP.trace st') = [].
Proof.
  intros H st'. apply consecutive_no_jump in H.
  by destruct (no_jump_missed inputs (HP.start (HP.init ec qs db)) H) as [Hm Hg].
Qed.

(** The run 1, 2, 3. *)
Lemma consecutive_seq_nums_miss_nothing_witness :
  HP.missed_messages (HP.process_all fresh inputs_1_2_3) = 0
  ∧ gap_events (HP.trace (HP.process_all fresh inputs_1_2_3)) = [].
Proof.
  exact (consecutive_seq_nums_miss_nothing true 10000
           (Some (HP.Database [] [])) inputs_1_2_3 eq_refl).
Defined.

(** ** The upsert into [tick_gaps] *)

Lemma filter_key_excluded (k : Z * string) (t : list tick_gap_row) :
  filter (λ r, tg_key r = k) (filter (λ r, tg_key r ≠ k) t) = [].
Proof.
  induction t as [|r t IH]; [done|].
  rewrite (filter_cons (λ r, tg_key r ≠ k)). case_decide; [|done].
  rewrite filter_cons. by case_decide.
Qed.

Lemma filter_key_other (k k' : Z * string) (t : list tick_gap_row) :
  k ≠ k' →
  filter (λ r, tg_key r = k) (filter (λ r, tg_key r ≠ k') t)
  = filter (λ r, tg_key r = k) t.
Proof.
  intros Hne. induction t as [|r t IH]; [done|].
  rewrite (filter_cons (λ r, tg_key r ≠ k')). case_decide.
  - rewrite !filter_cons. case_decide; by rewrite IH.
  - rewrite IH, filter_cons. case_decide; [congruence | done].
Qed.

Lemma insert_or_replace_same r t :
  rows_with_key (tg_key r) (insert_or_replace r t) = [r].
Proof.
  unfold rows_with_key, insert_or_replace.
  rewrite filter_app, filter_key_excluded. simpl.
  rewrite filter_cons. by case_decide.
Qed.

Lemma insert_or_replace_other r t k :
  k ≠ tg_key r →
  rows_with_key k (insert_or_replace r t) = rows_with_key k t.
Proof.
  intros Hne. unfold rows_with_key, insert_or_replace.
  rewrite filter_app, filter_key_other by done.
  rewrite (filter_cons _ r). case_decide; [congruence|]. by rewrite app_nil_r.
Qed.

Lemma primary_key_filter (P : tick_gap_row → Prop) `{∀ r, Decision (P r)} t :
  primary_key_ok t → primary_key_ok (filter P t).
Proof.
  unfold primary_key_ok. induction t as [|r t IH]; [done|].
  rewrite fmap_cons, NoDup_cons. intros [Hr Ht].
  rewrite filter_cons. case_decide; [|by apply IH].
  rewrite fmap_cons, NoDup_cons. split; [|by apply IH].
  rewrite list_elem_of_fmap in *. intros (r' & Hk & Hin).
  apply list_elem_of_filter in Hin as [_ Hin]. apply Hr. by exists r'.
Qed.

Lemma insert_or_replace_primary_key r t :
  primary_key_ok t → primary_key_ok (insert_or_replace r t).
Proof.
  intros Ht. unfold insert_or_replace, primary_key_ok.
  rewrite fmap_app. apply NoDup_app. split; [|split].
  - by apply (primary_key_filter (λ r', tg_key r' ≠ tg_key r)).
  - intros k Hk Hk'. apply list_elem_of_fmap in Hk as (r' & -> & Hin).
    apply list_elem_of_filter in Hin as [Hne _].
    simpl in Hk'. apply list_elem_of_singleton in Hk'. done.
  - simpl. apply NoDup_singleton.
Qed.

Lemma save_rows_snoc rows r t :
  save_rows (rows ++ [r]) t = insert_or_replace r (save_rows rows t).
Proof. unfold save_rows. by rewrite foldl_snoc. Qed.

Lemma save_rows_primary_key rows t :
  primary_key_ok t → primary_key_ok (save_rows rows t).
Proof.
  intros Ht. induction rows as [|r rows IH] using rev_ind; [done|].
  rewrite save_rows_snoc. by apply insert_or_replace_primary_key.
Qed.

(** After a batch of upserts a key holds the last row written under it,
    or what it held before when the batch did not write it. *)
Lemma save_rows_latest rows t k :
  rows_with_key k (save_rows rows t)
  = match last (filter (λ r, tg_key r = k) rows) with
    | Some r => [r]
    | None => rows_with_key k t
    end.
Proof.
  induction rows as [|r rows IH] using rev_ind; [done|].
  rewrite save_rows_snoc, filter_app, (filter_cons _ r), filter_nil.
  case_decide as Hk.
  - rewrite last_snoc. subst k. apply insert_or_replace_same.
  - rewrite app_nil_r, <- IH. apply insert_or_replace_other. congruence.
Qed.

(** The rows written for the buckets of one window have distinct keys. *)
Lemma bucket_rows_key minute (gc : gmap string counts) s :
  filter (λ r, tg_key r = (minute, s)) (bucket_row minute <$> map_to_list gc)
  = match gc !! s with
    | Some c => [bucket_row minute (s, c)]
    | None => []
    end.
Proof.
  induction gc as [|s' c' gc Hs' Hfirst IH] using map_first_key_ind.
  - by rewrite map_to_list_empty, lookup_empty.
  - rewrite map_to_list_insert_first_key by done.
    rewrite fmap_cons, filter_cons, IH. unfold bucket_row at 1, tg_key at 1. simpl.
    case_decide as Hk.
    + assert (s' = s) as -> by congruence.
      by rewrite lookup_insert_eq, Hs'.
    + rewrite lookup_insert_ne; [done | congruence].
Qed.

Lemma save_window_rows minute (gc : gmap string counts) t s :
  rows_with_key (minute, s) (save_rows (bucket_row minute <$> map_to_list gc) t)
  = match gc !! s with
    | Some c => [bucket_row minute (s, c)]
    | None => rows_with_key (minute, s) t
    end.
Proof.
  rewrite save_rows_latest, bucket_rows_key. by destruct (gc !! s).
Qed.

Lemma save_window_other_minute minute (gc : gmap string counts) t k :
  k.1 ≠ minute →
  rows_with_key k (save_rows (bucket_row minute <$> map_to_list gc) t)
  = rows_with_key k t.
Proof.
  intros Hne. rewrite save_rows_latest.
  replace (filter _ (bucket_row minute <$> map_to_list gc)) with (@nil tick_gap_row);
    [done|].
  symmetry. induction (map_to_list gc) as [|kv l IH]; [done|].
  rewrite fmap_cons, filter_cons. case_decide as Hk; [|done].
  destruct k; simpl in *. unfold tg_key, bucket_row in Hk. simpl in Hk. congruence.
Qed.

(** ** Minute aggregator of the high-performance receiver *)

Lemma alter_present {A} (f : A → A) (m : gmap string A) k c :
  m !! k = Some c → alter f k m = <[k := f c]> m.
Proof.
  intros H. apply map_eq. intros j. rewrite lookup_alter, lookup_insert.
  case_decide; [subst; by rewrite H | done].
Qed.

Lemma bucket_before_closes minute (gc : gmap string counts) symbol t :
  closes_window minute t = true → bucket_before minute gc symbol t = zero_counts.
Proof.
  unfold closes_window, bucket_before. destruct minute; [|done]. by intros ->.
Qed.

Lemma aggregate_timed st symbol now b t :
  let st' := HP._process_tick st symbol (Tick None (Some b) (Some t)) now in
  let closes := closes_window (HP.minute_start_time st) t in
  HP.minute_start_time st' = Some (truncate_minute t)
  ∧ HP.prev_bids st' = <[symbol := b]> (HP.prev_bids st)
  ∧ HP.gap_counts st'
    = <[symbol := classified symbol b (HP.prev_bids st !! symbol)
                    (bucket_before (HP.minute_start_time st) (HP.gap_counts st)
                                   symbol t)]>
        (if closes then ∅ else HP.gap_counts st)
  ∧ HP.db_conn st'
    = (if closes then HP.db_conn (HP._save_gap_counts st) else HP.db_conn st)
  ∧ HP.trace st'
    = (if closes then HP.trace (HP._save_gap_counts st) else HP.trace st).
Proof.
  destruct st as [rn rq qs mq sn mm pb ms gc db rc pc tr].
  unfold HP._process_tick, HP._save_gap_counts, closes_window, bucket_before,
    classified.
  simpl.
  destruct ms as [m|]; simpl; [case_bool_decide; simpl|];
    try (destruct db as [db|]; simpl);
    rewrite ?lookup_empty; simpl;
    destruct (gc !! symbol) as [c|] eqn:Hc; simpl;
    destruct (pb !! symbol) as [p|] eqn:Hprev; simpl;
    try destruct (PrimFloat.leb _ _); simpl;
    rewrite ?alter_insert_eq, ?(alter_present _ _ _ _ Hc), ?(insert_id _ _ _ Hc);
    done.
Qed.

Lemma save_gap_counts_connected st db m :
  HP.db_conn st = Some db →
  HP.minute_start_time st = Some m →
  let rows := bucket_row m <$> map_to_list (HP.gap_counts st) in
  tick_gaps_of (HP._save_gap_counts st) = save_rows rows (HP.tick_gaps db)
  ∧ flushes (HP.trace (HP._save_gap_counts st)) = flushes (HP.trace st) ++ [rows]
  ∧ HP.minute_start_time (HP._save_gap_counts st) = Some m
  ∧ HP.gap_counts (HP._save_gap_counts st) = HP.gap_counts st
  ∧ is_Some (HP.db_conn (HP._save_gap_counts st)).
Proof.
  intros Hdb Hm. unfold HP._save_gap_counts, tick_gaps_of, flushes.
  rewrite Hdb, Hm. simpl. rewrite omap_app. by eauto.
Qed.

Lemma check_sequence_flushes st symbol seq_num now :
  flushes (HP.trace (HP.state_of (HP._check_sequence st symbol seq_num now)))
  = flushes (HP.trace st).
Proof.
  unfold HP._check_sequence, flushes.
  destruct (HP.seq_nums st !! symbol) as [last|]; [|done].
  case_bool_decide; [|done].
  simpl. destruct (HP.db_conn st) as [db|]; simpl.
  - destruct (insert_sequence_gap _ _); simpl;
      rewrite ?omap_app; simpl; by rewrite ?app_nil_r.
  - rewrite omap_app. simpl. by rewrite app_nil_r.
Qed.

Lemma after_check_flushes st symbol tk now :
  flushes (HP.trace (after_check st symbol tk now)) = flushes (HP.trace st).
Proof.
  unfold after_check. destruct (tick_seq_num tk); [|done].
  apply check_sequence_flushes.
Qed.

Lemma process_tick_returned st symbol tk now :
  check_returns st symbol tk now = true →
  HP._process_tick st symbol tk now
  = HP._process_tick (after_check st symbol tk now) symbol
      (Tick None (tick_bid tk) (tick_time tk)) now.
Proof. intros H. by rewrite process_tick_split, H. Qed.
Lemma append_empty_l (s : string) : "" +:+ s = s.
Proof. reflexivity. Qed.

Lemma append_cons_l a (s s' : string) : String a s +:+ s' = String a (s +:+ s').
Proof. reflexivity. Qed.

Lemma endswith_spec s suffix :
  endswith s suffix = true ↔ ∃ pre, s = pre +:+ suffix.
Proof.
  induction s as [|a s IH]; cbn [endswith].
  - destruct (String.eqb_spec "" suffix) as [<-|Hne].
    + split; [by exists "" | done].
    + split; [done|]. intros [pre Hpre].
      destruct pre; rewrite ?append_empty_l, ?append_cons_l in Hpre; congruence.
  - destruct (String.eqb_spec (String a s) suffix) as [<-|Hne].
    + split; [by exists "" | done].
    + rewrite IH. split.
      * intros [pre ->]. by exists (String a pre).
      * intros [pre Hpre].
        destruct pre as [|a' pre];
          rewrite ?append_empty_l, ?append_cons_l in Hpre; [congruence|].
        exists pre. congruence.
Qed.

(** C1, the failing input.  A receiver with its database connected has
    the window of 12:00 open with one EURUSD bucket and has kept 10 for
    EURUSD; the next tick is stamped 12:01:00 and carries [seq_num]
    2^63 + 5.  The INSERT of the gap row raises OverflowError, the rest of
    [_process_tick] is skipped: nothing is flushed, the window of 12:00
    stays open with its bucket, and no bucket is opened at 12:01.  The
    same tick with [seq_num] 12 closes the window as the claim says. *)
Lemma overflow_tick_leaves_window_open :
  let st := HP.process_all fresh
              [ ("EURUSD", Tick (Some 10) (Some 1.1%float) (Some (noon + 30)),
                 noon + 30) ] in
  let st' := HP._process_tick st "EURUSD"
               (Tick (Some (2 ^ 63 + 5)) (Some 1.10011%float) (Some (noon + 60)))
               (noon + 60) in
  let st'' := HP._process_tick st "EURUSD"
                (Tick (Some 12) (Some 1.10011%float) (Some (noon + 60)))
                (noon + 60) in
  HP.minute_start_time st = Some noon
  ∧ truncate_minute (noon + 60) ≠ noon
  ∧ HP.minute_start_time st' = Some noon
  ∧ HP.gap_counts st' = HP.gap_counts st
  ∧ flushes (HP.trace st') = []
  ∧ tick_gaps_of st' = []
  ∧ HP.minute_start_time st'' = Some (noon + 60)
  ∧ flushes (HP.trace st'') = [[TickGapRow noon "EURUSD" noon 0 0]].
Proof. vm_compute. by repeat split. Qed.

(** X25.  A tick with a bid and a [time] whose minute differs from the
    open window, at a receiver whose database is connected, when the
    sequence check of the tick returns: every bucket of the open window is
    written to [tick_gaps] under (minute, symbol) with the counts it had
    before this tick, in one flush; the window is then empty and reopened
    at the new minute, and the only bucket of the new window is that of
    the tick's symbol, counted from zero.  Rows of other minutes are left
    as they were. *)
Theorem minute_change_flushes_before_reopening st symbol tk now b t m db :
  check_returns st symbol tk now = true →
  tick_bid tk = Some b →
  tick_time tk = Some t →
  HP.minute_start_time st = Some m →
  truncate_minute t ≠ m →
  HP.db_conn st = Some db →
  let st' := HP._process_tick st symbol tk now in
  (∀ s c, HP.gap_counts st !! s = Some c →
          rows_with_key (m, s) (tick_gaps_of st')
          = [TickGapRow m s m (large c) (small c)])
  ∧ flushes (HP.trace st')
    = flushes (HP.trace st) ++ [bucket_row m <$> map_to_list (HP.gap_counts st)]
  ∧ HP.minute_start_time st' = Some (truncate_minute t)
  ∧ HP.gap_counts st'
    = {[ symbol := classified symbol b (HP.prev_bids st !! symbol) zero_counts ]}
  ∧ (∀ k, k.1 ≠ m →
          rows_with_key k (tick_gaps_of st') = rows_with_key k (HP.tick_gaps db)).
Proof.
  intros Hret Hb Ht Hm Hne Hdb st'. subst st'.
  rewrite (process_tick_returned _ _ _ _ Hret), Hb, Ht.
  set (st1 := after_check st symbol tk now).
  destruct (after_check_aggregation st symbol tk now)
    as (Hp1 & Hm1 & Hg1 & Ht1 & Hd1).
  pose proof (after_check_flushes st symbol tk now) as Hf1.
  fold st1 in Hp1, Hm1, Hg1, Ht1, Hd1, Hf1.
  clearbody st1.
  destruct (HP.db_conn st1) as [db1|] eqn:Hdb1;
    [|destruct Hd1 as [Hd1 _]; rewrite Hd1 in Hdb; done].
  assert (HP.tick_gaps db1 = HP.tick_gaps db) as Htg.
  { unfold tick_gaps_of in Ht1. by rewrite Hdb1, Hdb in Ht1. }
  rewrite Hm in Hm1.
  destruct (save_gap_counts_connected st1 db1 m Hdb1 Hm1)
    as (Hrows & Hfl & _ & _ & _).
  destruct (aggregate_timed st1 symbol now b t) as (Hmin & _ & Hgc & Hdbc & Htr).
  unfold closes_window, bucket_before in *. rewrite Hm1 in *.
  rewrite bool_decide_eq_true_2 in * by done.
  assert (tick_gaps_of (HP._process_tick st1 symbol (Tick None (Some b) (Some t)) now)
          = save_rows (bucket_row m <$> map_to_list (HP.gap_counts st))
                      (HP.tick_gaps db)) as Htab.
  { unfold tick_gaps_of at 1. rewrite Hdbc. fold (tick_gaps_of (HP._save_gap_counts st1)).
    by rewrite Hrows, Hg1, Htg. }
  repeat split.
  - intros s c Hs. rewrite Htab, save_window_rows, Hs. done.
  - by rewrite Htr, Hfl, Hf1, Hg1.
  - done.
  - by rewrite Hgc, Hp1, insert_empty.
  - intros k Hk. rewrite Htab. by apply save_window_other_minute.
Qed.

(** Ticks at 12:00:30 and 12:00:59, then one at 12:01:00: the row stored for
    12:00 counts the one jump seen before 12:01:00, and the 12:01 tick is
    counted in the new window only. *)
Lemma minute_change_flushes_before_reopening_witness :
  let st := HP.process_all fresh ticks_in_1200 in
  let st' := HP._process_tick st "EURUSD" tick_at_1201 (noon + 60) in
  rows_with_key (noon, "EURUSD") (tick_gaps_of st')
  = [TickGapRow noon "EURUSD" noon 1 0]
  ∧ flushes (HP.trace st') = [[TickGapRow noon "EURUSD" noon 1 0]]
  ∧ HP.minute_start_time st' = Some (noon + 60)
  ∧ HP.gap_counts st' = {[ "EURUSD" := Counts 0 1 ]}.
Proof.
  intros st st'.
  assert (Hm : HP.minute_start_time st = Some noon) by (vm_compute; reflexivity).
  assert (Hne : truncate_minute (noon + 60) ≠ noon) by (vm_compute; discriminate).
  assert (Hdb : HP.db_conn st = Some (HP.Database [] [])) by (vm_compute; reflexivity).
  assert (Hc : HP.gap_counts st !! "EURUSD" = Some (Counts 1 0))
    by (vm_compute; reflexivity).
  destruct (minute_change_flushes_before_reopening st "EURUSD" tick_at_1201
              (noon + 60) 1.10016%float (noon + 60) noon (HP.Database [] [])
              eq_refl eq_refl eq_refl Hm Hne Hdb) as (Hrows & Hfl & Hmin & Hgc & _).
  split; [exact (Hrows "EURUSD" (Counts 1 0) Hc)|].
  split; [|split].
  - etrans; [exact Hfl|]. vm_compute. reflexivity.
  - etrans; [exact Hmin|]. vm_compute. reflexivity.
  - etrans; [exact Hgc|]. vm_compute. reflexivity.
Defined.

Lemma process_tick_timed st symbol tk now b t :
  check_returns st symbol tk now = true →
  tick_bid tk = Some b →
  tick_time tk = Some t →
  let st' := HP._process_tick st symbol tk now in
  HP.minute_start_time st' = Some (truncate_minute t)
  ∧ HP.prev_bids st' = <[symbol := b]> (HP.prev_bids st)
  ∧ HP.gap_counts st'
    = <[symbol := classified symbol b (HP.prev_bids st !! symbol)
                    (bucket_before (HP.minute_start_time st) (HP.gap_counts st)
                                   symbol t)]>
        (if closes_window (HP.minute_start_time st) t then ∅ else HP.gap_counts st).
Proof.
  intros Hret Hb Ht st'. subst st'.
  rewrite (process_tick_returned _ _ _ _ Hret), Hb, Ht.
  destruct (after_check_aggregation st symbol tk now) as (Hp1 & Hm1 & Hg1 & _).
  destruct (aggregate_timed (after_check st symbol tk now) symbol now b t)
    as (Hmin & Hprev & Hgc & _).
  by rewrite Hmin, Hprev, Hgc, Hp1, Hm1, Hg1.
Qed.

Lemma process_tick_untimed st symbol tk now b :
  check_returns st symbol tk now = true →
  tick_bid tk = Some b →
  tick_time tk = None →
  let st' := HP._process_tick st symbol tk now in
  HP.prev_bids st' = <[symbol := b]> (HP.prev_bids st)
  ∧ HP.minute_start_time st' = HP.minute_start_time st
  ∧ HP.gap_counts st' = HP.gap_counts st
  ∧ tick_gaps_of st' = tick_gaps_of st
  ∧ flushes (HP.trace st') = flushes (HP.trace st).
Proof.
  intros Hret Hb Ht st'. subst st'.
  rewrite (process_tick_returned _ _ _ _ Hret), Hb, Ht.
  destruct (after_check_aggregation st symbol tk now)
    as (Hp1 & Hm1 & Hg1 & Ht1 & _).
  pose proof (after_check_flushes st symbol tk now) as Hf1.
  set (st1 := after_check st symbol tk now) in *. clearbody st1.
  by rewrite <- Hp1, <- Hm1, <- Hg1, <- Ht1, <- Hf1.
Qed.

Lemma process_tick_no_bid st symbol tk now :
  tick_bid tk = None →
  HP._process_tick st symbol tk now = after_check st symbol tk now.
Proof.
  intros Hb. rewrite process_tick_split.
  destruct (check_returns st symbol tk now); [|done].
  unfold HP._process_tick. simpl. by rewrite Hb.
Qed.

(** A tick whose sequence check does not return changes nothing of the
    aggregation. *)
Lemma process_tick_abandoned_aggregation st symbol tk now :
  check_returns st symbol tk now = false →
  let st' := HP._process_tick st symbol tk now in
  HP.prev_bids st' = HP.prev_bids st
  ∧ HP.minute_start_time st' = HP.minute_start_time st
  ∧ HP.gap_counts st' = HP.gap_counts st
  ∧ tick_gaps_of st' = tick_gaps_of st
  ∧ (HP.db_conn st' = None ↔ HP.db_conn st = None)
  ∧ flushes (HP.trace st') = flushes (HP.trace st).
Proof.
  intros Hret. cbv zeta. rewrite (process_tick_abandoned _ _ _ _ Hret).
  destruct (after_check_aggregation st symbol tk now) as (? & ? & ? & ? & ?).
  by rewrite after_check_flushes.
Qed.

(** Without a database connection the same tick still empties the window
    and reopens it; the buckets of the old window are stored nowhere. *)
Lemma minute_change_without_database st symbol tk now b t m :
  tick_bid tk = Some b →
  tick_time tk = Some t →
  HP.minute_start_time st = Some m →
  truncate_minute t ≠ m →
  HP.db_conn st = None →
  let st' := HP._process_tick st symbol tk now in
  HP.db_conn st' = None
  ∧ flushes (HP.trace st') = flushes (HP.trace st)
  ∧ HP.minute_start_time st' = Some (truncate_minute t)
  ∧ HP.gap_counts st'
    = {[ symbol := classified symbol b (HP.prev_bids st !! symbol) zero_counts ]}.
Proof.
  intros Hb Ht Hm Hne Hdb st'. subst st'.
  pose proof (check_returns_no_database st symbol tk now Hdb) as Hret.
  destruct (process_tick_timed st symbol tk now b t Hret Hb Ht) as (Hmin & _ & Hgc).
  assert (Hc : closes_window (HP.minute_start_time st) t = true).
  { unfold closes_window. rewrite Hm. by apply bool_decide_eq_true_2. }
  rewrite Hgc, Hmin, Hc, (bucket_before_closes _ _ _ _ Hc), insert_empty.
  rewrite (process_tick_returned _ _ _ _ Hret), Hb, Ht.
  destruct (after_check_aggregation st symbol tk now) as (_ & Hm1 & _ & _ & Hd).
  pose proof (after_check_flushes st symbol tk now) as Hf1.
  apply Hd in Hdb as Hdb1.
  set (st1 := after_check st symbol tk now) in *. clearbody st1.
  destruct (aggregate_timed st1 symbol now b t) as (_ & _ & _ & Hd' & Htr).
  rewrite Hm1, Hc in Hd', Htr. rewrite Hd', Htr.
  unfold HP._save_gap_counts. by rewrite Hdb1.
Qed.

(** C5, the claim as worded: with previous bid 1.10000, the quotient that
    the code computes for the bid 1.10011 is not 1.1 and the one for
    1.10005 is not 0.5 (they are 1.0999999999983245 and
    0.49999999999883471); and the bid 1.1001, one decimal pip above
    1.1000, gives 0.99999999999988987 and is counted small, although
    |bid - prev_bid| / pip_size is 1 in exact arithmetic. *)
Lemma decimal_quotients_are_not_exact :
  PrimFloat.eqb (HP.gap_pips "EURUSD" 1.10011%float 1.1%float) 1.1%float = false
  ∧ PrimFloat.eqb (HP.gap_pips "EURUSD" 1.10005%float 1.1%float) 0.5%float = false
  ∧ HP.gap_pips "EURUSD" 1.1001%float 1.1%float = 0.99999999999988987%float
  ∧ HP.gap_counts
      (HP._process_tick after_first_tick "EURUSD"
         (Tick None (Some 1.1001%float) (Some (noon + 31))) (noon + 31))
      !! "EURUSD" = Some (Counts 0 1).
Proof. vm_compute. by repeat split. Qed.

(** C5, amended.  A tick with [time] and [bid] whose sequence check
    returns, for a symbol that has a previous bid: gap_pips is
    |bid - prev_bid| / pip_size in binary64 arithmetic, with pip_size 0.01
    when the symbol ends in "JPY" and 0.0001 otherwise; the bucket of the
    symbol gains one in [large] when that binary64 value is >= 1.0 and one
    in [small] otherwise, the other count being unchanged. *)
Theorem pip_gap_classification st symbol tk now b t p :
  check_returns st symbol tk now = true →
  tick_bid tk = Some b →
  tick_time tk = Some t →
  HP.prev_bids st !! symbol = Some p →
  let st' := HP._process_tick st symbol tk now in
  let before :=
    bucket_before (HP.minute_start_time st) (HP.gap_counts st) symbol t in
  let pip_size :=
    if endswith symbol "JPY" then 0.01%float else 0.0001%float in
  let gap := PrimFloat.div (PrimFloat.abs (PrimFloat.sub b p)) pip_size in
  HP.gap_pips symbol b p = gap
  ∧ HP.gap_counts st' !! symbol
    = Some (if PrimFloat.leb 1.0%float gap
            then Counts (large before + 1) (small before)
            else Counts (large before) (small before + 1))
  ∧ (endswith symbol "JPY" = true ↔ ∃ pre, symbol = pre +:+ "JPY").
Proof.
  intros Hret Hb Ht Hp st' before pip_size gap.
  split; [done|]. split; [|apply endswith_spec].
  destruct (process_tick_timed st symbol tk now b t Hret Hb Ht) as (_ & _ & Hgc).
  fold st' in Hgc. rewrite Hgc, lookup_insert_eq, Hp. unfold classified.
  fold before. change (HP.gap_pips symbol b p) with gap.
  by destruct (PrimFloat.leb 1 gap).
Qed.

(** Previous bid 1.10000: a bid of 1.10011 is counted large, a bid of
    1.10005 small; the quotients are 1.0999999999983245 and
    0.49999999999883471. *)
Lemma pip_gap_classification_witness :
  HP.gap_counts
    (HP._process_tick after_first_tick "EURUSD"
       (Tick None (Some 1.10011%float) (Some (noon + 31))) (noon + 31))
    !! "EURUSD" = Some (Counts 1 0)
  ∧ HP.gap_counts
      (HP._process_tick after_first_tick "EURUSD"
         (Tick None (Some 1.10005%float) (Some (noon + 31))) (noon + 31))
      !! "EURUSD" = Some (Counts 0 1)
  ∧ HP.gap_pips "EURUSD" 1.10011%float 1.1%float = 1.0999999999983245%float
  ∧ HP.gap_pips "EURUSD" 1.10005%float 1.1%float = 0.49999999999883471%float.
Proof.
  assert (Hp : HP.prev_bids after_first_tick !! "EURUSD" = Some 1.1%float)
    by (vm_compute; reflexivity).
  split; [|split; [|split]].
  - etrans.
    + exact (proj1 (proj2 (pip_gap_classification after_first_tick "EURUSD"
               (Tick None (Some 1.10011%float) (Some (noon + 31))) (noon + 31)
               1.10011%float (noon + 31) 1.1%float eq_refl eq_refl eq_refl Hp))).
    + vm_compute. reflexivity.
  - etrans.
    + exact (proj1 (proj2 (pip_gap_classification after_first_tick "EURUSD"
               (Tick None (Some 1.10005%float) (Some (noon + 31))) (noon + 31)
               1.10005%float (noon + 31) 1.1%float eq_refl eq_refl eq_refl Hp))).
    + vm_compute. reflexivity.
  - vm_compute. reflexivity.
  - vm_compute. reflexivity.
Defined.




(** ** Repeated flushes *)

Lemma reflush_snoc symbol st cs c :
  reflush symbol st (cs ++ [c])
  = HP._save_gap_counts
      (HP.set_gap_counts (<[symbol := c]> (HP.gap_counts (reflush symbol st cs)))
                         (reflush symbol st cs)).
Proof. unfold reflush. by rewrite foldl_snoc. Qed.

Lemma reflush_keeps_window symbol st db m cs :
  HP.db_conn st = Some db →
  HP.minute_start_time st = Some m →
  primary_key_ok (HP.tick_gaps db) →
  let st' := reflush symbol st cs in
  HP.minute_start_time st' = Some m
  ∧ ∃ db', HP.db_conn st' = Some db' ∧ primary_key_ok (HP.tick_gaps db').
Proof.
  intros Hdb Hm Hpk. induction cs as [|c cs IH] using rev_ind; simpl.
  - eauto.
  - destruct IH as (IHm & db' & IHdb & IHpk). rewrite reflush_snoc.
    set (st1 := HP.set_gap_counts _ _).
    destruct (save_gap_counts_connected st1 db' m IHdb IHm)
      as (Hrows & _ & Hm' & _ & [db2 Hdb2]).
    split; [done|]. exists db2. split; [done|].
    unfold tick_gaps_of in Hrows. rewrite Hdb2 in Hrows. rewrite Hrows.
    by apply save_rows_primary_key.
Qed.

(** C9.  With the database connected and a window open at [m], flushing
    the bucket of [symbol] any number of times, with counts [cs] and at
    last [c], leaves exactly one row under (m, symbol), and that row holds
    [c]; the primary key of the table stays free of duplicates. *)
Theorem reflush_replaces_row st db m symbol cs c :
  HP.db_conn st = Some db →
  HP.minute_start_time st = Some m →
  primary_key_ok (HP.tick_gaps db) →
  let st' := reflush symbol st (cs ++ [c]) in
  rows_with_key (m, symbol) (tick_gaps_of st')
  = [TickGapRow m symbol m (large c) (small c)]
  ∧ primary_key_ok (tick_gaps_of st').
Proof.
  intros Hdb Hm Hpk st'.
  destruct (reflush_keeps_window symbol st db m cs Hdb Hm Hpk)
    as (Hm1 & db1 & Hdb1 & Hpk1).
  destruct (reflush_keeps_window symbol st db m (cs ++ [c]) Hdb Hm Hpk)
    as (_ & db2 & Hdb2 & Hpk2).
  fold st' in Hdb2. split; [|unfold tick_gaps_of; by rewrite Hdb2].
  subst st'. rewrite reflush_snoc.
  set (st1 := HP.set_gap_counts _ _).
  destruct (save_gap_counts_connected st1 db1 m Hdb1 Hm1) as (-> & _).
  rewrite save_window_rows. subst st1. simpl. by rewrite lookup_insert_eq.
Qed.

(** Counts (3, 1), then (4, 2), then (5, 2) under 12:00 / EURUSD, on a
    table that already holds a row under that key. *)
Lemma reflush_replaces_row_witness :
  let st := HP.set_db_conn
              (Some (HP.Database [TickGapRow noon "EURUSD" noon 7 7] []))
              after_first_tick in
  rows_with_key (noon, "EURUSD")
    (tick_gaps_of (reflush "EURUSD" st [Counts 3 1; Counts 4 2; Counts 5 2]))
  = [TickGapRow noon "EURUSD" noon 5 2].
Proof.
  intros st.
  assert (Hpk : primary_key_ok [TickGapRow noon "EURUSD" noon 7 7]).
  { unfold primary_key_ok. simpl. apply NoDup_singleton. }
  exact (proj1 (reflush_replaces_row st
                  (HP.Database [TickGapRow noon "EURUSD" noon 7 7] []) noon
                  "EURUSD" [Counts 3 1; Counts 4 2] (Counts 5 2)
                  eq_refl eq_refl Hpk)).
Defined.

(** ** Minute aggregator of the backup receiver *)

Lemma backup_save_gap_counts_frame st :
  BK.previous_bids (BK._save_gap_counts st) = BK.previous_bids st
  ∧ BK.minute_start_time (BK._save_gap_counts st) = BK.minute_start_time st
  ∧ BK.gap_counts (BK._save_gap_counts st) = BK.gap_counts st.
Proof.
  destruct st as [rn td pb ms gc db tr]. unfold BK._save_gap_counts. simpl.
  destruct db; [|done]. by destruct ms.
Qed.

Lemma backup_process_tick_timed st symbol tk b t :
  tick_bid tk = Some b →
  tick_time tk = Some t →
  let st' := BK._process_tick st symbol tk in
  BK.minute_start_time st' = Some (truncate_minute t)
  ∧ BK.previous_bids st' = <[symbol := b]> (BK.previous_bids st)
  ∧ BK.gap_counts st'
    = <[symbol := classified symbol b (BK.previous_bids st !! symbol)
                    (bucket_before (BK.minute_start_time st) (BK.gap_counts st)
                                   symbol t)]>
        (if closes_window (BK.minute_start_time st) t then ∅ else BK.gap_counts st).
Proof.
  intros Hb Ht.
  destruct st as [rn td pb ms gc db tr].
  unfold BK._process_tick, BK._save_gap_counts, closes_window, bucket_before,
    classified.
  rewrite Hb, Ht. simpl.
  change (BK.gap_pips symbol b) with (HP.gap_pips symbol b).
  destruct ms as [m|]; simpl; [case_bool_decide; simpl|];
    try (destruct db as [db|]; simpl);
    rewrite ?lookup_empty; simpl;
    destruct (gc !! symbol) as [c|] eqn:Hc; simpl;
    destruct (pb !! symbol) as [p|] eqn:Hprev; simpl;
    try destruct (PrimFloat.leb _ _); simpl;
    rewrite ?alter_insert_eq, ?(alter_present _ _ _ _ Hc), ?(insert_id _ _ _ Hc);
    done.
Qed.

Lemma backup_process_tick_untimed st symbol tk b :
  tick_bid tk = Some b →
  tick_time tk = None →
  BK._process_tick st symbol tk
  = BK.set_previous_bids (<[symbol := b]> (BK.previous_bids st))
      (BK.set_tick_data (<[symbol := tk]> (BK.tick_data st)) st).
Proof. intros Hb Ht. unfold BK._process_tick. by rewrite Hb, Ht. Qed.

Lemma backup_process_tick_no_bid st symbol tk :
  tick_bid tk = None → BK._process_tick st symbol tk = st.
Proof. intros Hb. unfold BK._process_tick. by rewrite Hb. Qed.

Lemma process_tick_prev_bids st symbol tk now :
  HP.prev_bids (HP._process_tick st symbol tk now)
  = match tick_bid tk with
    | Some b =>
        if check_returns st symbol tk now then <[symbol := b]> (HP.prev_bids st)
        else HP.prev_bids st
    | None => HP.prev_bids st
    end.
Proof.
  destruct (check_returns st symbol tk now) eqn:Hret.
  - destruct (tick_bid tk) as [b|] eqn:Hb.
    + destruct (tick_time tk) as [t|] eqn:Ht.
      * by destruct (process_tick_timed st symbol tk now b t Hret Hb Ht)
          as (_ & -> & _).
      * by destruct (process_tick_untimed st symbol tk now b Hret Hb Ht)
          as (-> & _).
    + rewrite (process_tick_no_bid st symbol tk now Hb).
      by destruct (after_check_aggregation st symbol tk now) as (-> & _).
  - destruct (process_tick_abandoned_aggregation st symbol tk now Hret) as (-> & _).
    by destruct (tick_bid tk).
Qed.

Lemma backup_process_tick_previous_bids st symbol tk :
  BK.previous_bids (BK._process_tick st symbol tk)
  = match tick_bid tk with
    | Some b => <[symbol := b]> (BK.previous_bids st)
    | None => BK.previous_bids st
    end.
Proof.
  destruct (tick_bid tk) as [b|] eqn:Hb.
  - destruct (tick_time tk) as [t|] eqn:Ht.
    + by destruct (backup_process_tick_timed st symbol tk b t Hb Ht) as (_ & -> & _).
    + by rewrite (backup_process_tick_untimed st symbol tk b Hb Ht).
  - by rewrite (backup_process_tick_no_bid st symbol tk Hb).
Qed.

(** C10, the failing input.  A receiver with its database connected holds
    the previous bid 1.1 and the number 10 for EURUSD.  A tick with bid
    1.2, no [time] and [seq_num] 2^63 + 5 follows: the INSERT of the gap
    row raises OverflowError and the tick is abandoned before its bid is
    stored, so the previous bid is still 1.1; the next tick, 1.20001 at
    12:01:00, is compared with 1.1 and counted large.  The backup receiver,
    which reads no [seq_num], stores 1.2 and counts the same tick small, as
    the claim says. *)
Lemma overflow_tick_keeps_previous_bid :
  let st := HP.process_all fresh
              [ ("EURUSD", Tick (Some 10) (Some 1.1%float) (Some (noon + 30)),
                 noon + 30) ] in
  let tk1 := Tick (Some (2 ^ 63 + 5)) (Some 1.2%float) None in
  let st1 := HP._process_tick st "EURUSD" tk1 (noon + 31) in
  let st2 := HP._process_tick st1 "EURUSD" timed_tick (noon + 60) in
  let bst1 := BK._process_tick backup_after_first_tick "EURUSD" tk1 in
  let bst2 := BK._process_tick bst1 "EURUSD" timed_tick in
  tick_bid tk1 = Some 1.2%float
  ∧ HP.prev_bids st !! "EURUSD" = Some 1.1%float
  ∧ HP.prev_bids st1 !! "EURUSD" = Some 1.1%float
  ∧ HP.gap_counts st2 = {[ "EURUSD" := Counts 1 0 ]}
  ∧ BK.previous_bids bst1 !! "EURUSD" = Some 1.2%float
  ∧ BK.gap_counts bst2 = {[ "EURUSD" := Counts 0 1 ]}.
Proof. vm_compute. by repeat split. Qed.
(** ** Shutdown *)

(** In the backup receiver an open window always has a bucket. *)
Lemma backup_window_has_bucket inputs : ∀ st,
  (BK.minute_start_time st ≠ None → BK.gap_counts st ≠ ∅) →
  let st' := BK.process_all st inputs in
  BK.minute_start_time st' ≠ None → BK.gap_counts st' ≠ ∅.
Proof.
  induction inputs as [|[s tk] rest IH]; intros st Hinv; [done|].
  unfold BK.process_all. simpl. apply IH.
  destruct (tick_bid tk) as [b|] eqn:Hb.
  - destruct (tick_time tk) as [t|] eqn:Ht.
    + destruct (backup_process_tick_timed st s tk b t Hb Ht) as (_ & _ & ->).
      intros _. apply insert_non_empty.
    + by rewrite (backup_process_tick_untimed st s tk b Hb Ht).
  - by rewrite (backup_process_tick_no_bid st s tk Hb).
Qed.

Lemma backup_process_all_connected inputs : ∀ st,
  is_Some (BK.db_conn st) → is_Some (BK.db_conn (BK.process_all st inputs)).
Proof.
  induction inputs as [|[s tk] rest IH]; intros st Hdb; [done|].
  unfold BK.process_all. simpl. apply IH.
  destruct st as [rn td pb ms gc db tr]. destruct Hdb as [t Hdb]. simpl in Hdb.
  subst db. unfold BK._process_tick, BK._save_gap_counts. simpl.
  destruct (tick_bid tk); [|by eauto]. destruct (tick_time tk); [|by eauto].
  simpl. destruct ms as [m|]; simpl; [case_bool_decide; simpl|];
    destruct (gc !! s); simpl; rewrite ?lookup_empty; simpl;
    destruct (pb !! s); simpl; try destruct (PrimFloat.leb _ _); simpl; eauto.
Qed.

Lemma stop_trace st db m :
  HP.minute_start_time st = Some m →
  HP.db_conn st = Some db →
  HP.trace (HP.stop st) = HP.trace st ++ shutdown_effects st m
  ∧ tick_gaps_of (HP.stop st)
    = save_rows (bucket_row m <$> map_to_list (HP.gap_counts st)) (HP.tick_gaps db).
Proof.
  intros Hm Hdb. destruct st as [rn rq qs mq sn mm pb ms gc dbc rc pc tr].
  simpl in *. subst ms dbc.
  unfold HP.stop, HP._save_gap_counts, shutdown_effects, tick_gaps_of. simpl.
  destruct rq; simpl; by rewrite <- ?app_assoc.
Qed.

Lemma backup_stop_trace st t m :
  BK.minute_start_time st = Some m →
  BK.db_conn st = Some t →
  BK.gap_counts st ≠ ∅ →
  BK.trace (BK.stop st) = BK.trace st ++ backup_shutdown_effects st m
  ∧ BK.db_conn (BK.stop st)
    = Some (save_rows (bucket_row m <$> map_to_list (BK.gap_counts st)) t).
Proof.
  intros Hm Hdb Hne. destruct st as [rn td pb ms gc dbc tr].
  simpl in *. subst ms dbc.
  unfold BK.stop, BK._save_gap_counts, backup_shutdown_effects. simpl.
  rewrite bool_decide_eq_true_2 by done. simpl. by rewrite <- ?app_assoc.
Qed.

Lemma shutdown_effects_ordered st m :
  flushed_once_before releases_any (shutdown_effects st m) = true.
Proof. unfold shutdown_effects. by destruct (HP.requester st). Qed.

(** C4, the claim as worded: the backup receiver closes its socket and
    terminates its context before it flushes the open window. *)
Lemma backup_releases_network_before_flush :
  BK.minute_start_time backup_after_first_tick = Some noon
  ∧ BK.trace (BK.stop backup_after_first_tick)
    = [SocketClose; ContextTerm;
       SaveGapCounts [TickGapRow noon "EURUSD" noon 0 0]; DbClose]
  ∧ flushed_once_before releases_any (BK.trace (BK.stop backup_after_first_tick))
    = false.
Proof. repeat split; vm_compute; reflexivity. Qed.

(** C4, amended.  On shutdown with a window open and the database
    connected, the buckets of the open window are flushed exactly once and
    before the database connection is closed.  In the high-performance
    receiver the flush also comes before the sockets are closed and the
    context is terminated, and every bucket of the window is then stored
    under (minute, symbol).  In the backup receiver, in any state reached
    from a connected start, the flush comes after the socket is closed and
    the context terminated, and before the database is closed. *)
Theorem shutdown_flushes_open_window st db m t0 inputs bm :
  HP.minute_start_time st = Some m →
  HP.db_conn st = Some db →
  let bst := BK.process_all (BK.init (Some t0)) inputs in
  BK.minute_start_time bst = Some bm →
  (HP.trace (HP.stop st) = HP.trace st ++ shutdown_effects st m
   ∧ flushed_once_before releases_any (shutdown_effects st m) = true
   ∧ ∀ s c, HP.gap_counts st !! s = Some c →
            rows_with_key (m, s) (tick_gaps_of (HP.stop st))
            = [TickGapRow m s m (large c) (small c)])
  ∧ (BK.trace (BK.stop bst) = BK.trace bst ++ backup_shutdown_effects bst bm
     ∧ flushed_once_before releases_sink (backup_shutdown_effects bst bm) = true
     ∧ flushed_once_before releases_any (backup_shutdown_effects bst bm) = false).
Proof.
  intros Hm Hdb bst Hbm. split.
  - destruct (stop_trace st db m Hm Hdb) as [Htr Hrows].
    split; [done|]. split; [apply shutdown_effects_ordered|].
    intros s c Hs. by rewrite Hrows, save_window_rows, Hs.
  - destruct (backup_process_all_connected inputs (BK.init (Some t0)))
      as [t Ht]; [by eexists|].
    fold bst in Ht.
    assert (BK.gap_counts bst ≠ ∅) as Hne.
    { apply (backup_window_has_bucket inputs (BK.init (Some t0))); [done|].
      fold bst. by rewrite Hbm. }
    by destruct (backup_stop_trace bst t bm Hbm Ht Hne) as [-> _].
Qed.

Lemma shutdown_flushes_open_window_witness :
  HP.trace (HP.stop after_first_tick)
  = [SaveGapCounts [TickGapRow noon "EURUSD" noon 0 0];
     SubscriberClose; RequesterClose; ContextTerm; DbClose]
  ∧ BK.trace (BK.stop backup_after_first_tick)
    = [SocketClose; ContextTerm;
       SaveGapCounts [TickGapRow noon "EURUSD" noon 0 0]; DbClose].
Proof.
  destruct (shutdown_flushes_open_window after_first_tick (HP.Database [] [])
              noon []
              [("EURUSD", Tick None (Some 1.1%float) (Some (noon + 30)))] noon
              eq_refl eq_refl eq_refl) as [(H & _) (B & _)].
  split.
  - etrans; [exact H|]. vm_compute. reflexivity.
  - etrans; [exact B|]. vm_compute. reflexivity.
Defined.

(** ** Receiver loop, queue and counters *)

Lemma check_sequence_pipeline_frame st symbol n now :
  let st' := HP.state_of (HP._check_sequence st symbol n now) in
  HP.running st' = HP.running st
  ∧ HP.queue_size st' = HP.queue_size st
  ∧ HP.message_queue st' = HP.message_queue st
  ∧ HP.receive_count st' = HP.receive_count st
  ∧ HP.process_count st' = HP.process_count st
  ∧ HP.missed_messages st ≤ HP.missed_messages st'.
Proof.
  destruct st as [rn rq qs mq sn mm pb ms gc db rc pc tr].
  unfold HP._check_sequence. simpl.
  destruct (sn !! symbol) as [last|]; simpl; [|by repeat split].
  case_bool_decide; simpl; [|by repeat split].
  destruct db as [db|]; simpl; [destruct (insert_sequence_gap _ _); simpl|];
    repeat split; try done; lia.
Qed.

Lemma process_tick_pipeline_frame st symbol tk now :
  let st' := HP._process_tick st symbol tk now in
  HP.running st' = HP.running st
  ∧ HP.queue_size st' = HP.queue_size st
  ∧ HP.message_queue st' = HP.message_queue st
  ∧ HP.receive_count st' = HP.receive_count st
  ∧ HP.process_count st' = HP.process_count st
  ∧ HP.missed_messages st ≤ HP.missed_messages st'.
Proof.
  cbv zeta. rewrite process_tick_split.
  set (st1 := after_check st symbol tk now).
  assert (HP.running st1 = HP.running st
          ∧ HP.queue_size st1 = HP.queue_size st
          ∧ HP.message_queue st1 = HP.message_queue st
          ∧ HP.receive_count st1 = HP.receive_count st
          ∧ HP.process_count st1 = HP.process_count st
          ∧ HP.missed_messages st ≤ HP.missed_messages st1)
    as (<- & <- & <- & <- & <- & Hle).
  { subst st1. unfold after_check.
    destruct (tick_seq_num tk) as [n|]; [|by repeat split].
    apply check_sequence_pipeline_frame. }
  destruct (check_returns st symbol tk now); [|done].
  assert (HP.missed_messages
            (HP._process_tick st1 symbol (Tick None (tick_bid tk) (tick_time tk)) now)
          = HP.missed_messages st1) as Hmm.
  { by destruct (process_tick_sequence_frame st1 symbol
                   (Tick None (tick_bid tk) (tick_time tk)) now) as (_ & ? & _). }
  rewrite Hmm. clear Hmm. split_and!; [..|lia];
    clear Hle; clearbody st1;
    destruct st1 as [rn rq qs mq sn mm pb ms gc db rc pc tr];
    unfold HP._process_tick, HP._save_gap_counts; simpl;
    tick_cases; done.
Qed.

Lemma receive_loop_body_monotone st message c :
  counter_value c st ≤ counter_value c (HP._receive_loop_body st message).
Proof.
  unfold HP._receive_loop_body. destruct (HP.queue_full _); destruct c; simpl; lia.
Qed.

Lemma process_loop_body_monotone json_loads st now c :
  counter_value c st ≤ counter_value c (HP._process_loop_body json_loads st now).
Proof.
  unfold HP._process_loop_body.
  destruct (HP.message_queue st) as [|message rest]; [done|].
  destruct (HP.split_message message) as [[[msg_type symbol] payload]|];
    [|by destruct c].
  destruct (String.eqb msg_type "TICK"); [|by destruct c].
  destruct (json_loads payload) as [tk|].
  - destruct (process_tick_pipeline_frame (HP.set_message_queue rest st)
                symbol tk now) as (_ & _ & _ & Hr & Hp & Hm).
    destruct c; simpl in *; lia.
  - destruct c; simpl; lia.
Qed.

Lemma process_loop_body_queue json_loads st now :
  HP.message_queue (HP._process_loop_body json_loads st now)
  = tail (HP.message_queue st)
  ∧ HP.queue_size (HP._process_loop_body json_loads st now) = HP.queue_size st.
Proof.
  unfold HP._process_loop_body.
  destruct (HP.message_queue st) as [|message rest] eqn:Hq; [by rewrite Hq|].
  destruct (HP.split_message message) as [[[msg_type symbol] payload]|]; [|done].
  destruct (String.eqb msg_type "TICK"); [|done].
  destruct (json_loads payload) as [tk|]; simpl; [|done].
  by destruct (process_tick_pipeline_frame (HP.set_message_queue rest st)
                 symbol tk now) as (_ & -> & -> & _).
Qed.

(** C8, the claim as worded: no counter of the receiver goes up by one
    when a message is dropped and stays put when a message is enqueued. *)
Lemma no_counter_counts_drops :
  HP.queue_full queue_is_full = true
  ∧ HP.queue_full with_room = false
  ∧ ¬ ∃ c, counter_value c (HP._receive_loop_body queue_is_full "TICK|EURUSD|{}")
           = counter_value c queue_is_full + 1
           ∧ counter_value c (HP._receive_loop_body with_room "TICK|EURUSD|{}")
             = counter_value c with_room.
Proof.
  split; [reflexivity|]. split; [reflexivity|].
  intros [c [H1 H2]]. destruct c; vm_compute in H1, H2; discriminate.
Qed.

(** C8, amended.  When the queue is full at the enqueue, [_receive_loop]
    drops the message and prints a warning: the queue, the [running] flag
    and all processing state are as before, and the only counter that moves
    is [receive_count], which counts the dropped message as received; the
    line of the statistics reporter shows received, processed, queue depth
    and missed, and nothing about drops.  No counter ever decreases in
    either loop body.  Once the processor has taken a message from a queue
    that held no more than its capacity, the next frame is enqueued. *)
Theorem queue_full_drops_message st message message' json_loads now :
  HP.queue_full st = true →
  Z.of_nat (length (HP.message_queue st)) ≤ HP.queue_size st →
  let st' := HP._receive_loop_body st message in
  st' = HP.emit PrintQueueFull (HP.set_receive_count (HP.receive_count st + 1) st)
  ∧ HP.message_queue st' = HP.message_queue st
  ∧ HP.running st' = HP.running st
  ∧ (∀ c, counter_value c st'
          = counter_value c st + match c with ReceiveCount => 1 | _ => 0 end)
  ∧ HP._stats_loop_line st'
    = HP.StatsLine (HP.receive_count st + 1) (HP.process_count st)
        (Z.of_nat (length (HP.message_queue st))) (HP.missed_messages st)
  ∧ (∀ c s m, counter_value c s ≤ counter_value c (HP._receive_loop_body s m)
              ∧ counter_value c s
                ≤ counter_value c (HP._process_loop_body json_loads s now))
  ∧ HP.message_queue
      (HP._receive_loop_body (HP._process_loop_body json_loads st' now) message')
    = tail (HP.message_queue st) ++ [message'].
Proof.
  intros Hfull Hcap st'.
  assert (Hst : st' = HP.emit PrintQueueFull
                        (HP.set_receive_count (HP.receive_count st + 1) st)).
  { subst st'. unfold HP._receive_loop_body.
    replace (HP.queue_full (HP.set_receive_count _ st)) with (HP.queue_full st)
      by done.
    by rewrite Hfull. }
  split; [done|]. rewrite Hst. split; [done|]. split; [done|].
  split; [intros c; destruct c; simpl; lia|]. split; [done|].
  split.
  { intros c s m. split; [apply receive_loop_body_monotone
                         | apply process_loop_body_monotone]. }
  set (st1 := HP.emit _ _).
  destruct (process_loop_body_queue json_loads st1 now) as [Hq Hs].
  unfold HP._receive_loop_body, HP.queue_full. simpl. rewrite Hq, Hs.
  subst st1. simpl.
  unfold HP.queue_full in Hfull. apply andb_prop in Hfull as [Hpos Hlen].
  apply bool_decide_eq_true_1 in Hpos. apply bool_decide_eq_true_1 in Hlen.
  destruct (HP.message_queue st) as [|m0 q]; simpl in *; [lia|].
  rewrite (bool_decide_eq_false_2 (HP.queue_size st ≤ Z.of_nat (length q)));
    [|lia].
  by rewrite andb_false_r.
Qed.

Lemma queue_full_drops_message_witness :
  let st' := HP._receive_loop_body queue_is_full "TICK|USDJPY|{}" in
  HP.message_queue st' = ["TICK|EURUSD|{}"; "TICK|EURUSD|{}"]
  ∧ HP._stats_loop_line st' = HP.StatsLine 1 0 2 0.
Proof.
  destruct (queue_full_drops_message queue_is_full "TICK|USDJPY|{}"
              "TICK|USDJPY|{}" (λ _, None) noon eq_refl)
    as (_ & Hq & _ & _ & Hs & _).
  - vm_compute. discriminate.
  - split; [exact Hq | exact Hs].
Defined.

(** ** Further examples *)

(** JPY pairs, pip 0.01: from 150.00, a bid of 150.005 is half a pip
    (small) and a bid of 150.02 is two pips (large). *)
Example jpy_half_pip_is_small :
  classified "USDJPY" 150.005%float (Some 150.0%float) zero_counts = Counts 0 1.
Proof. vm_compute. reflexivity. Qed.

Example jpy_two_pips_is_large :
  classified "USDJPY" 150.02%float (Some 150.0%float) zero_counts = Counts 1 0.
Proof. vm_compute. reflexivity. Qed.

(** The comparison with 1.0 is made on the binary64 quotient: one decimal
    pip from 1.1000 to 1.1001 comes out just below 1.0 and is counted
    small. *)
Example one_decimal_pip_in_binary64 :
  HP.gap_pips "EURUSD" 1.1001%float 1.1%float = 0.99999999999988987%float
  ∧ classified "EURUSD" 1.1001%float (Some 1.1%float) zero_counts = Counts 0 1.
Proof. split; vm_compute; reflexivity. Qed.

(** A tick stamped with an earlier minute reopens that minute with empty
    buckets; when the reopened window is flushed, its row replaces the one
    stored before: 12:00 was stored with (1, 0) and ends with (0, 1). *)
Example late_tick_replaces_row :
  flushes (HP.trace (HP.process_all fresh late_tick_run))
  = [ [TickGapRow noon "EURUSD" noon 1 0];
      [TickGapRow (noon + 60) "EURUSD" (noon + 60) 0 1];
      [TickGapRow noon "EURUSD" noon 0 1] ]
  ∧ rows_with_key (noon, "EURUSD")
      (tick_gaps_of (HP.process_all fresh late_tick_run))
    = [TickGapRow noon "EURUSD" noon 0 1].
Proof. split; vm_compute; reflexivity. Qed.

(** Frames: three parts when two separators occur, the payload keeping
    any further separator. *)
Example split_message_three_parts :
  HP.split_message "TICK|EURUSD|{a|b}" = Some ("TICK", "EURUSD", "{a|b}")
  ∧ HP.split_message "TICK|EURUSD" = None.
Proof. split; reflexivity. Qed.

(** ** Frames *)

Lemma split_bar_spec s a b :
  HP.split_bar s = Some (a, b) ↔ s = a +:+ String "|"%char b ∧ no_bar a = true.
Proof.
  revert a b. induction s as [|c s IH]; intros a b; cbn [HP.split_bar].
  - split; [done|]. intros [H _].
    destruct a; rewrite ?append_empty_l, ?append_cons_l in H; done.
  - destruct (Ascii.eqb_spec c "|"%char) as [->|Hc].
    + split.
      * intros [= <- <-]. by rewrite append_empty_l.
      * intros [H Hn]. destruct a as [|c' a].
        -- rewrite append_empty_l in H. by injection H as ->.
        -- rewrite append_cons_l in H. injection H as <- _.
           cbn [no_bar] in Hn. by rewrite Ascii.eqb_refl in Hn.
    + destruct (HP.split_bar s) as [[a' b']|] eqn:Hs.
      * destruct (IH a' b') as [IH1 _]. destruct (IH1 eq_refl) as [Hs' Hn].
        split.
        -- intros [= <- <-]. rewrite append_cons_l, <- Hs'. split; [done|].
           cbn [no_bar]. rewrite Hn.
           by destruct (Ascii.eqb_spec c "|"%char).
        -- intros [H Hna]. destruct a as [|c' a].
           { rewrite append_empty_l in H. injection H as -> _. done. }
           rewrite append_cons_l in H. injection H as <- H.
           cbn [no_bar] in Hna. apply andb_prop in Hna as [_ Hna].
           destruct (IH a b) as [_ IH2]. specialize (IH2 (conj H Hna)).
           by injection IH2 as -> ->.
      * split; [done|]. intros [H Hna]. destruct a as [|c' a].
        { rewrite append_empty_l in H. injection H as -> _. done. }
        rewrite append_cons_l in H. injection H as <- H.
        cbn [no_bar] in Hna. apply andb_prop in Hna as [_ Hna].
        destruct (IH a b) as [_ IH2]. by specialize (IH2 (conj H Hna)).
Qed.

Lemma split_bar_none s : HP.split_bar s = None ↔ count_bars s = O.
Proof.
  induction s as [|c s IH]; cbn [HP.split_bar count_bars]; [done|].
  destruct (Ascii.eqb c "|"%char); [done|].
  destruct (HP.split_bar s) as [[a b]|].
  - split; [done|]. intros H. simpl in H. apply IH in H. done.
  - simpl. rewrite <- IH. done.
Qed.

Lemma count_bars_app a b :
  count_bars (a +:+ b) = (count_bars a + count_bars b)%nat.
Proof.
  induction a as [|c a IH]; [done|].
  rewrite append_cons_l. cbn [count_bars]. rewrite IH. lia.
Qed.

Lemma no_bar_count a : no_bar a = true → count_bars a = O.
Proof.
  induction a as [|c a IH]; [done|]. cbn [no_bar count_bars].
  destruct (Ascii.eqb c "|"%char); [done|]. simpl. exact IH.
Qed.

Lemma split_message_some message msg_type symbol payload :
  HP.split_message message = Some (msg_type, symbol, payload)
  ↔ message = format_frame msg_type symbol payload
    ∧ no_bar msg_type = true ∧ no_bar symbol = true.
Proof.
  unfold HP.split_message, format_frame. split.
  - destruct (HP.split_bar message) as [[t rest]|] eqn:H1; [|done].
    destruct (HP.split_bar rest) as [[s p]|] eqn:H2; [|done].
    intros [= <- <- <-].
    apply split_bar_spec in H1 as [-> Ht]. by apply split_bar_spec in H2 as [-> Hs].
  - intros (-> & Ht & Hs).
    assert (HP.split_bar
              (msg_type +:+ String "|"%char (symbol +:+ String "|"%char payload))
            = Some (msg_type, symbol +:+ String "|"%char payload)) as ->
      by by apply split_bar_spec.
    assert (HP.split_bar (symbol +:+ String "|"%char payload)
            = Some (symbol, payload)) as ->
      by by apply split_bar_spec.
    done.
Qed.

Lemma split_message_none message :
  HP.split_message message = None ↔ (count_bars message < 2)%nat.
Proof.
  unfold HP.split_message.
  destruct (HP.split_bar message) as [[t rest]|] eqn:H1.
  - apply split_bar_spec in H1 as [-> Ht].
    rewrite count_bars_app, (no_bar_count _ Ht). cbn [count_bars].
    rewrite Ascii.eqb_refl.
    destruct (HP.split_bar rest) as [[s p]|] eqn:H2.
    + split; [done|]. intros Hlt.
      assert (count_bars rest = O) as H0 by lia.
      apply split_bar_none in H0. congruence.
    + apply split_bar_none in H2. rewrite H2. split; [lia | done].
  - apply split_bar_none in H1. rewrite H1. split; [lia | done].
Qed.

(** X1.  [message.split('|', 2)] yields three parts exactly for the frames
    of the form type|symbol|payload in which type and symbol hold no
    separator: what the publishers format is what the receivers take
    apart, the payload keeping any separator of its own.  It yields fewer
    than three parts exactly when the frame holds fewer than two
    separators. *)
Theorem frame_round_trip message msg_type symbol payload :
  (HP.split_message message = Some (msg_type, symbol, payload)
   ↔ message = format_frame msg_type symbol payload
     ∧ no_bar msg_type = true ∧ no_bar symbol = true)
  ∧ (HP.split_message message = None ↔ (count_bars message < 2)%nat).
Proof. split; [apply split_message_some | apply split_message_none]. Qed.

Lemma frame_round_trip_witness :
  HP.split_message (format_frame "TICK" "EURUSD" "{a|b}")
  = Some ("TICK", "EURUSD", "{a|b}").
Proof.
  apply (proj1 (frame_round_trip (format_frame "TICK" "EURUSD" "{a|b}")
                  "TICK" "EURUSD" "{a|b}")).
  repeat split; reflexivity.
Defined.

(** ** Queue and counters under any schedule *)

Lemma check_sequence_trace st symbol n now :
  ∃ l, HP.trace (HP.state_of (HP._check_sequence st symbol n now))
       = HP.trace st ++ l
       ∧ forallb is_processing_effect l = true.
Proof.
  destruct st as [rn rq qs mq sn mm pb ms gc db rc pc tr].
  unfold HP._check_sequence. simpl.
  destruct (sn !! symbol) as [last|]; simpl;
    [|exists []; by rewrite app_nil_r].
  case_bool_decide; simpl; [|exists []; by rewrite app_nil_r].
  destruct db as [db|]; simpl;
    [destruct (insert_sequence_gap _ _); simpl|];
    rewrite <- ?app_assoc; eexists; split; try reflexivity; done.
Qed.

Lemma save_gap_counts_trace st :
  ∃ l, HP.trace (HP._save_gap_counts st) = HP.trace st ++ l
       ∧ forallb is_processing_effect l = true.
Proof.
  unfold HP._save_gap_counts.
  destruct (HP.db_conn st); [|exists []; by rewrite app_nil_r].
  destruct (HP.minute_start_time st); [|exists []; by rewrite app_nil_r].
  simpl. eexists. split; [reflexivity | done].
Qed.

Lemma process_tick_trace st symbol tk now :
  ∃ l, HP.trace (HP._process_tick st symbol tk now) = HP.trace st ++ l
       ∧ forallb is_processing_effect l = true.
Proof.
  rewrite process_tick_split.
  set (st1 := after_check st symbol tk now).
  assert (∃ l, HP.trace st1 = HP.trace st ++ l
               ∧ forallb is_processing_effect l = true) as (l1 & H1 & Hl1).
  { subst st1. unfold after_check. destruct (tick_seq_num tk) as [n|];
      [apply check_sequence_trace | exists []; by rewrite app_nil_r]. }
  clearbody st1.
  destruct (check_returns st symbol tk now); [|by exists l1].
  assert (∃ l, HP.trace (HP._process_tick st1 symbol
                           (Tick None (tick_bid tk) (tick_time tk)) now)
               = HP.trace st1 ++ l
               ∧ forallb is_processing_effect l = true) as (l2 & H2 & Hl2).
  { destruct (tick_bid tk) as [b|]; [|exists []; by rewrite app_nil_r].
    destruct (tick_time tk) as [t|]; [|exists []; by rewrite app_nil_r].
    destruct (aggregate_timed st1 symbol now b t) as (_ & _ & _ & _ & ->).
    destruct (closes_window _ _);
      [apply save_gap_counts_trace | exists []; by rewrite app_nil_r]. }
  exists (l1 ++ l2). rewrite H2, H1, app_assoc. split; [done|].
  by rewrite forallb_app, Hl1, Hl2.
Qed.

Lemma drops_app tr l : drops (tr ++ l) = drops tr + drops l.
Proof. unfold drops. rewrite omap_app, length_app. lia. Qed.

Lemma drops_processing l : forallb is_processing_effect l = true → drops l = 0.
Proof.
  induction l as [|e l IH]; [done|]. simpl. intros H.
  apply andb_prop in H as [He Hl]. specialize (IH Hl). unfold drops in *.
  destruct e; simpl in *; try done.
Qed.

Lemma process_loop_body_counts json_loads st now :
  let st' := HP._process_loop_body json_loads st now in
  HP.receive_count st' = HP.receive_count st
  ∧ drops (HP.trace st') = drops (HP.trace st)
  ∧ HP.process_count st'
    = HP.process_count st
      + match HP.message_queue st with
        | m :: _ => if is_tick_frame m then 1 else 0
        | [] => 0
        end.
Proof.
  unfold HP._process_loop_body, is_tick_frame.
  destruct (HP.message_queue st) as [|message rest]; [by rewrite Z.add_0_r|].
  destruct (HP.split_message message) as [[[msg_type symbol] payload]|];
    [|by rewrite Z.add_0_r].
  destruct (String.eqb msg_type "TICK"); [|by rewrite Z.add_0_r].
  destruct (json_loads payload) as [tk|]; simpl; [|done].
  destruct (process_tick_pipeline_frame (HP.set_message_queue rest st)
              symbol tk now) as (_ & _ & _ & -> & -> & _).
  destruct (process_tick_trace (HP.set_message_queue rest st) symbol tk now)
    as (l & -> & Hl).
  simpl. by rewrite drops_app, (drops_processing _ Hl), Z.add_0_r.
Qed.

Lemma receive_loop_body_cases st message :
  let st' := HP._receive_loop_body st message in
  HP.receive_count st' = HP.receive_count st + 1
  ∧ HP.process_count st' = HP.process_count st
  ∧ HP.queue_size st' = HP.queue_size st
  ∧ ((HP.queue_full st = false
      ∧ HP.message_queue st' = HP.message_queue st ++ [message]
      ∧ HP.trace st' = HP.trace st)
     ∨ (HP.queue_full st = true
        ∧ HP.message_queue st' = HP.message_queue st
        ∧ HP.trace st' = HP.trace st ++ [PrintQueueFull])).
Proof.
  unfold HP._receive_loop_body.
  replace (HP.queue_full (HP.set_receive_count _ st)) with (HP.queue_full st)
    by done.
  destruct (HP.queue_full st); simpl; repeat split; auto.
Qed.

Lemma interleave_counts json_loads schedule : ∀ st,
  let st' := interleave json_loads st schedule in
  HP.receive_count st'
  = HP.receive_count st + Z.of_nat (length (received schedule))
  ∧ Z.of_nat (length (HP.message_queue st)) + Z.of_nat (length (received schedule))
    = Z.of_nat (length (HP.message_queue st'))
      + Z.of_nat (length (taken json_loads st schedule))
      + (drops (HP.trace st') - drops (HP.trace st))
  ∧ HP.process_count st'
    = HP.process_count st
      + Z.of_nat (length (filter (λ m, is_tick_frame m = true)
                                 (taken json_loads st schedule)))
  ∧ drops (HP.trace st) ≤ drops (HP.trace st').
Proof.
  induction schedule as [|a rest IH]; intros st; simpl.
  { repeat split; lia. }
  unfold interleave in *. simpl.
  destruct (IH (take_turn json_loads st a)) as (IHr & IHq & IHp & IHd).
  rewrite IHr, IHp. clear IHr IHp.
  destruct a as [message|now]; simpl in *.
  - destruct (receive_loop_body_cases st message)
      as (Hr & Hp & _ & [(_ & Hq & Ht)|(_ & Hq & Ht)]);
      rewrite Hq, Ht in IHq; rewrite Ht in IHd; rewrite Hr, Hp;
      rewrite ?length_app, ?drops_app in *; simpl in *;
      change (drops [PrintQueueFull]) with 1 in *;
      repeat split; lia.
  - destruct (process_loop_body_counts json_loads st now) as (Hr & Hd & Hp).
    destruct (process_loop_body_queue json_loads st now) as [Hq _].
    rewrite Hq in IHq. rewrite Hd in IHq, IHd. rewrite Hr, Hp.
    destruct (HP.message_queue st) as [|m q]; simpl in *.
    + repeat split; lia.
    + rewrite filter_cons. destruct (is_tick_frame m) eqn:Hm.
      * rewrite decide_True by done. simpl length. repeat split; lia.
      * rewrite decide_False by done. repeat split; lia.
Qed.

(** X2.  Under any schedule of the receiver and the processor, every
    frame that arrived is in exactly one place: still in the queue, taken
    by the processor, or dropped with a queue-full warning; and
    [receive_count] has grown by the number of frames that arrived,
    dropped ones included. *)
Theorem every_frame_is_accounted_for json_loads st schedule :
  let st' := interleave json_loads st schedule in
  HP.receive_count st'
  = HP.receive_count st + Z.of_nat (length (received schedule))
  ∧ Z.of_nat (length (HP.message_queue st)) + Z.of_nat (length (received schedule))
    = Z.of_nat (length (HP.message_queue st'))
      + Z.of_nat (length (taken json_loads st schedule))
      + (drops (HP.trace st') - drops (HP.trace st)).
Proof.
  by destruct (interleave_counts json_loads schedule st) as (? & ? & _).
Qed.

(** X3.  [process_count] grows by one for each frame taken from the queue
    that has three parts and type TICK, whether or not its payload decodes;
    frames with fewer parts or another type are taken from the queue and
    not counted. *)
Theorem process_count_counts_tick_frames json_loads st schedule :
  HP.process_count (interleave json_loads st schedule)
  = HP.process_count st
    + Z.of_nat (length (filter (λ m, is_tick_frame m = true)
                               (taken json_loads st schedule))).
Proof.
  by destruct (interleave_counts json_loads schedule st) as (_ & _ & ? & _).
Qed.

Lemma queue_full_false st :
  HP.queue_full st = false →
  0 < HP.queue_size st →
  Z.of_nat (length (HP.message_queue st)) < HP.queue_size st.
Proof.
  unfold HP.queue_full. intros H Hpos.
  rewrite (bool_decide_eq_true_2 _ Hpos) in H. simpl in H.
  apply bool_decide_eq_false_1 in H. lia.
Qed.

(** X4.  With a positive capacity, a queue that holds no more than its
    capacity never holds more, whatever the schedule of the receiver and
    the processor. *)
Theorem queue_stays_within_capacity json_loads st schedule :
  0 < HP.queue_size st →
  Z.of_nat (length (HP.message_queue st)) ≤ HP.queue_size st →
  let st' := interleave json_loads st schedule in
  Z.of_nat (length (HP.message_queue st')) ≤ HP.queue_size st
  ∧ HP.queue_size st' = HP.queue_size st.
Proof.
  revert st. induction schedule as [|a rest IH]; intros st Hpos Hlen; [done|].
  unfold interleave in *. simpl.
  assert (HP.queue_size (take_turn json_loads st a) = HP.queue_size st
          ∧ Z.of_nat (length (HP.message_queue (take_turn json_loads st a)))
            ≤ HP.queue_size st) as [Hs Hq].
  { destruct a as [message|now]; simpl.
    - destruct (receive_loop_body_cases st message)
        as (_ & _ & Hs & [(Hf & Hq & _)|(_ & Hq & _)]); rewrite Hq.
      + split; [done|]. rewrite length_app. simpl.
        pose proof (queue_full_false st Hf Hpos). lia.
      + done.
    - destruct (process_loop_body_queue json_loads st now) as [-> ->].
      split; [done|]. destruct (HP.message_queue st); simpl in *; lia. }
  specialize (IH (take_turn json_loads st a)). rewrite Hs in IH.
  by apply IH.
Qed.

Lemma queue_stays_within_capacity_witness :
  Z.of_nat (length (HP.message_queue
                      (interleave (λ _, None) queue_is_full
                         [Receive "TICK|USDJPY|{}"; Process noon;
                          Receive "TICK|USDJPY|{}"; Receive "TICK|USDJPY|{}"])))
  ≤ 2.
Proof.
  apply (queue_stays_within_capacity (λ _, None) queue_is_full).
  - reflexivity.
  - vm_compute. discriminate.
Defined.

(** X5.  The processor takes frames in the order in which they arrived:
    the frames taken, followed by those still queued, are the frames queued
    at the start followed by the arrivals, with the dropped ones left out
    and nothing reordered; when no frame was dropped they are exactly
    those. *)
Theorem frames_are_taken_in_arrival_order json_loads st schedule :
  let st' := interleave json_loads st schedule in
  taken json_loads st schedule ++ HP.message_queue st'
    `sublist_of` HP.message_queue st ++ received schedule
  ∧ if bool_decide (drops (HP.trace st') = drops (HP.trace st))
    then taken json_loads st schedule ++ HP.message_queue st'
         = HP.message_queue st ++ received schedule
    else True.
Proof.
  revert st. induction schedule as [|a rest IH]; intros st; simpl.
  { rewrite app_nil_r. split; [done|]. by rewrite bool_decide_eq_true_2. }
  unfold interleave in *. simpl.
  destruct (IH (take_turn json_loads st a)) as [IHs IHe].
  destruct (interleave_counts json_loads rest (take_turn json_loads st a))
    as (_ & _ & _ & Hmono).
  unfold interleave in Hmono.
  destruct a as [message|now]; simpl in *.
  - destruct (receive_loop_body_cases st message)
      as (_ & _ & _ & [(_ & Hq & Ht)|(_ & Hq & Ht)]);
      rewrite Hq in IHs, IHe; rewrite Ht in IHe, Hmono.
    + rewrite <- app_assoc in IHs, IHe. simpl in IHs, IHe. done.
    + split.
      * etrans; [exact IHs|]. apply sublist_app; [done|]. by apply sublist_cons.
      * rewrite drops_app in Hmono. change (drops [PrintQueueFull]) with 1 in Hmono.
        rewrite bool_decide_eq_false_2; [done | lia].
  - destruct (process_loop_body_counts json_loads st now) as (_ & Hd & _).
    destruct (process_loop_body_queue json_loads st now) as [Hq _].
    rewrite Hq in IHs, IHe. rewrite Hd in IHe.
    destruct (HP.message_queue st) as [|m q]; simpl in *; [done|].
    split; [by apply sublist_skip|].
    case_bool_decide; [by rewrite IHe | done].
Qed.

(** ** Runs of sequence numbers *)

Lemma process_tick_events st symbol tk now :
  let st' := HP._process_tick st symbol tk now in
  let l := match tick_seq_num tk with
           | Some n => step_events (HP.seq_nums st !! symbol) symbol n
           | None => []
           end in
  gap_events (HP.trace st') = gap_events (HP.trace st) ++ l
  ∧ HP.missed_messages st' = HP.missed_messages st + gap_total l.
Proof.
  cbv zeta. unfold step_events.
  destruct (tick_seq_num tk) as [n|] eqn:Hn.
  - destruct (HP.seq_nums st !! symbol) as [last|] eqn:Hl.
    + case_bool_decide as Hgt.
      * destruct (process_tick_jump st symbol tk now n last Hn Hl) as [-> ->];
          [lia|]. simpl. split; [done | lia].
      * destruct (process_tick_quiet st symbol tk now) as (-> & -> & _).
        { rewrite Hn, Hl. lia. }
        simpl. rewrite app_nil_r. split; [done | lia].
    + destruct (process_tick_quiet st symbol tk now) as (-> & -> & _).
      { by rewrite Hn, Hl. }
      simpl. rewrite app_nil_r. split; [done | lia].
  - destruct (process_tick_quiet st symbol tk now) as (-> & -> & _).
    { by rewrite Hn. }
    simpl. rewrite app_nil_r. split; [done | lia].
Qed.

Lemma gap_total_app l k : gap_total (l ++ k) = gap_total l + gap_total k.
Proof. induction l as [|e l IH]; simpl; [done|]. rewrite IH. lia. Qed.

Lemma step_events_sound last s n :
  Forall (λ e, 1 ≤ ge_gap_size e
               ∧ ge_gap_size e = ge_received_seq e - ge_expected_seq e
               ∧ ge_symbol e = s)
         (step_events last s n).
Proof.
  unfold step_events. destruct last as [l|]; [|done].
  case_bool_decide; [|done]. repeat constructor; simpl; lia.
Qed.

Lemma process_all_events inputs : ∀ st,
  ∃ new,
    gap_events (HP.trace (HP.process_all st inputs))
    = gap_events (HP.trace st) ++ new
    ∧ HP.missed_messages (HP.process_all st inputs)
      = HP.missed_messages st + gap_total new
    ∧ Forall (λ e, 1 ≤ ge_gap_size e
                   ∧ ge_gap_size e = ge_received_seq e - ge_expected_seq e) new.
Proof.
  induction inputs as [|[[s tk] now] rest IH]; intros st.
  { exists []. simpl. rewrite app_nil_r. repeat split; [lia | done]. }
  unfold HP.process_all in *. simpl.
  destruct (IH (HP._process_tick st s tk now)) as (new & Hg & Hm & Hf).
  destruct (process_tick_events st s tk now) as [Hg1 Hm1].
  set (l := match tick_seq_num tk with Some n => _ | None => [] end) in *.
  exists (l ++ new). rewrite Hg, Hm, Hg1, Hm1, gap_total_app, app_assoc.
  repeat split; [lia|]. apply Forall_app. split; [|done].
  subst l. destruct (tick_seq_num tk) as [n|]; [|done].
  eapply Forall_impl; [apply step_events_sound|]. by intros e (? & ? & _).
Qed.

(** X6.  Over any run of ticks, the missed-message counter grows by the
    sum of the gap sizes of the gap events reported during the run; each
    of these events has a gap size of at least one, equal to the received
    number minus the expected one. *)
Theorem missed_counter_is_sum_of_gaps st inputs :
  let st' := HP.process_all st inputs in
  gap_events (HP.trace st')
  = gap_events (HP.trace st) ++ new_gap_events st st'
  ∧ HP.missed_messages st'
    = HP.missed_messages st + gap_total (new_gap_events st st')
  ∧ Forall (λ e, 1 ≤ ge_gap_size e
                 ∧ ge_gap_size e = ge_received_seq e - ge_expected_seq e)
           (new_gap_events st st').
Proof.
  cbv zeta. unfold new_gap_events.
  destruct (process_all_events inputs st) as (new & Hg & Hm & Hf).
  by rewrite Hg, drop_app_length.
Qed.

(** X7.  A sequence number is kept even when it is lower than the one
    kept before: after the value [l], an older message [n < l] followed by
    the next in-order message [l + 1] is reported as a gap of [l - n]
    messages, although these were received before. *)
Theorem old_message_resets_tracking st symbol tk1 tk2 now1 now2 l n :
  HP.seq_nums st !! symbol = Some l →
  n < l →
  tick_seq_num tk1 = Some n →
  tick_seq_num tk2 = Some (l + 1) →
  let st1 := HP._process_tick st symbol tk1 now1 in
  let st2 := HP._process_tick st1 symbol tk2 now2 in
  gap_events (HP.trace st1) = gap_events (HP.trace st)
  ∧ gap_events (HP.trace st2)
    = gap_events (HP.trace st) ++ [MkGapEvent symbol (l - n) (n + 1) (l + 1)]
  ∧ HP.missed_messages st2 = HP.missed_messages st + (l - n).
Proof.
  intros Hl Hlt H1 H2 st1 st2.
  destruct (process_tick_events st symbol tk1 now1) as [Hg1 Hm1].
  destruct (process_tick_events st1 symbol tk2 now2) as [Hg2 Hm2].
  fold st1 in Hg1, Hm1, Hg2, Hm2. fold st2 in Hg2, Hm2.
  assert (Hs1 : HP.seq_nums st1 !! symbol = Some n).
  { subst st1. rewrite process_tick_seq_nums, H1, check_returns_quiet.
    - apply lookup_insert_eq.
    - rewrite H1, Hl. lia. }
  rewrite H1, Hl in Hg1, Hm1. rewrite H2, Hs1 in Hg2, Hm2.
  unfold step_events in *.
  rewrite bool_decide_eq_false_2 in Hg1, Hm1 by lia.
  rewrite bool_decide_eq_true_2 in Hg2, Hm2 by lia.
  simpl in *. rewrite app_nil_r in Hg1.
  replace (l + 1 - (n + 1)) with (l - n) in * by lia.
  rewrite Hg2, Hm2, Hg1, Hm1. repeat split; lia.
Qed.

Lemma old_message_resets_tracking_witness :
  let st2 := HP.process_all seen_10
               [ ("EURUSD", Tick (Some 4) None None, noon);
                 ("EURUSD", Tick (Some 11) None None, noon) ] in
  gap_events (HP.trace st2) = [MkGapEvent "EURUSD" 6 5 11]
  ∧ HP.missed_messages st2 = 6.
Proof.
  assert (H4 : 4 < 10) by lia.
  destruct (old_message_resets_tracking seen_10 "EURUSD"
              (Tick (Some 4) None None) (Tick (Some 11) None None)
              noon noon 10 4 eq_refl H4 eq_refl eq_refl) as (_ & Hg & Hm).
  split; [exact Hg | exact Hm].
Defined.

Lemma gap_events_of_app s l k :
  gap_events_of s (l ++ k) = gap_events_of s l ++ gap_events_of s k.
Proof. apply filter_app. Qed.

Lemma step_events_other s s' last n :
  s' ≠ s → gap_events_of s (step_events last s' n) = [].
Proof.
  intros Hne. unfold step_events, gap_events_of.
  destruct last as [l|]; [|done]. case_bool_decide; [|done].
  rewrite filter_cons. simpl. by rewrite decide_False.
Qed.

Lemma step_events_total s l n :
  l < n → gap_total (gap_events_of s (step_events (Some l) s n)) = n - l - 1.
Proof.
  intros Hlt. unfold step_events, gap_events_of.
  case_bool_decide; simpl.
  - rewrite filter_cons. simpl. rewrite decide_True by done. simpl. lia.
  - lia.
Qed.

Lemma symbol_seqs_cons s s' tk now rest :
  symbol_seqs s ((s', tk, now) :: rest)
  = match decide (s' = s), tick_seq_num tk with
    | left _, Some n => n :: symbol_seqs s rest
    | _, _ => symbol_seqs s rest
    end.
Proof.
  unfold symbol_seqs. simpl.
  destruct (decide (s' = s)); [|done]. by destruct (tick_seq_num tk).
Qed.

Lemma process_all_cons st i rest :
  HP.process_all st (i :: rest)
  = HP.process_all (HP._process_tick st i.1.1 i.1.2 i.2) rest.
Proof. done. Qed.

Lemma checks_return_cons st s tk now rest :
  checks_return st ((s, tk, now) :: rest) = true
  ↔ check_returns st s tk now = true
    ∧ checks_return (HP._process_tick st s tk now) rest = true.
Proof. simpl. apply andb_true_iff. Qed.

(** Three cases in which no tick of a run is abandoned: the database is
    not connected; the numbers never jump; the numbers, also those kept at
    the start, and the clock readings are storable. *)
Lemma process_tick_no_database st symbol tk now :
  HP.db_conn st = None → HP.db_conn (HP._process_tick st symbol tk now) = None.
Proof.
  intros Hdb. rewrite process_tick_split.
  destruct (after_check_aggregation st symbol tk now) as (_ & _ & _ & _ & Hd).
  apply Hd in Hdb. set (st1 := after_check st symbol tk now) in *. clearbody st1.
  destruct (check_returns st symbol tk now); [|done].
  destruct st1 as [rn rq qs mq sn mm pb ms gc db rc pc tr]. simpl in Hdb. subst db.
  unfold HP._process_tick, HP._save_gap_counts. simpl. tick_cases; done.
Qed.

Lemma checks_return_no_database inputs : ∀ st,
  HP.db_conn st = None → checks_return st inputs = true.
Proof.
  induction inputs as [|[[s tk] now] rest IH]; intros st Hdb; [done|].
  apply checks_return_cons. split; [by apply check_returns_no_database|].
  by apply IH, process_tick_no_database.
Qed.

Lemma checks_return_no_jump inputs : ∀ st,
  no_jump_from (HP.seq_nums st) inputs = true → checks_return st inputs = true.
Proof.
  induction inputs as [|[[s tk] now] rest IH]; intros st Hnj; [done|].
  apply no_jump_step in Hnj as [Hq Hrest].
  apply checks_return_cons. split; [by apply check_returns_quiet | by apply IH].
Qed.

Lemma check_returns_storable st symbol tk now :
  map_Forall (λ _ l, storable_number l = true) (HP.seq_nums st) →
  storable_tick (symbol, tk, now) = true →
  check_returns st symbol tk now = true.
Proof.
  intros Hkept Htk. rewrite check_returns_spec.
  unfold storable_tick in Htk. simpl in Htk. apply andb_prop in Htk as [Hnow Hn].
  destruct (tick_seq_num tk) as [n|]; [|done].
  destruct (HP.seq_nums st !! symbol) as [last|] eqn:Hl; [|done].
  destruct (HP.db_conn st); [|done].
  apply Hkept in Hl. unfold storable_number, fits_int64 in *.
  apply bool_decide_eq_true_1 in Hl, Hn.
  destruct (bool_decide (n > last + 1)) eqn:Hj; [|done].
  apply bool_decide_eq_true_1 in Hj. apply orb_true_intro. right.
  repeat (apply andb_true_intro; split); try done;
    apply bool_decide_eq_true_2; lia.
Qed.

Lemma checks_return_storable inputs : ∀ st,
  map_Forall (λ _ l, storable_number l = true) (HP.seq_nums st) →
  forallb storable_tick inputs = true →
  checks_return st inputs = true.
Proof.
  induction inputs as [|[[s tk] now] rest IH]; intros st Hkept Hall; [done|].
  simpl in Hall. apply andb_prop in Hall as [Htk Hall].
  pose proof (check_returns_storable st s tk now Hkept Htk) as Hret.
  apply checks_return_cons. split; [done|]. apply IH; [|done].
  rewrite process_tick_seq_nums, Hret.
  destruct (tick_seq_num tk) as [n|] eqn:Hn; [|done].
  apply map_Forall_insert_2; [|done].
  unfold storable_tick in Htk. simpl in Htk. rewrite Hn in Htk.
  by apply andb_prop in Htk as [_ ?].
Qed.

(** From a kept value [l]: the gaps reported for the symbol add up to the
    numbers skipped between [l] and the last value delivered. *)
Lemma increasing_run_gaps s inputs : ∀ st l,
  checks_return st inputs = true →
  HP.seq_nums st !! s = Some l →
  increasing_from l (symbol_seqs s inputs) = true →
  ∃ new,
    gap_events (HP.trace (HP.process_all st inputs))
    = gap_events (HP.trace st) ++ new
    ∧ gap_total (gap_events_of s new)
      = default l (last (symbol_seqs s inputs)) - l
        - Z.of_nat (length (symbol_seqs s inputs)).
Proof.
  induction inputs as [|[[s' tk] now] rest IH]; intros st l Hret Hl Hinc.
  { exists []. simpl. rewrite app_nil_r. split; [done | lia]. }
  apply checks_return_cons in Hret as [Hret Hrest].
  rewrite process_all_cons. rewrite symbol_seqs_cons in *. simpl.
  destruct (process_tick_events st s' tk now) as [Hg1 _].
  pose proof (process_tick_seq_nums st s' tk now) as Hseq.
  rewrite Hret in Hseq.
  set (ns := symbol_seqs s rest) in *.
  destruct (decide (s' = s)) as [->|Hne].
  - destruct (tick_seq_num tk) as [n|] eqn:Hn.
    + cbn [increasing_from] in Hinc.
      apply andb_prop in Hinc as [Hlt Hinc]. apply bool_decide_eq_true_1 in Hlt.
      destruct (IH (HP._process_tick st s tk now) n) as (new & Hg & Ht).
      { done. }
      { rewrite Hseq. apply lookup_insert_eq. }
      { done. }
      rewrite Hl in Hg1.
      exists (step_events (Some l) s n ++ new).
      rewrite Hg, Hg1, app_assoc. split; [done|].
      rewrite gap_events_of_app, gap_total_app, step_events_total, Ht by done.
      fold ns. rewrite last_cons. simpl length.
      destruct (last ns); simpl; lia.
    + destruct (IH (HP._process_tick st s tk now) l) as (new & Hg & Ht).
      { done. }
      { by rewrite Hseq. }
      { done. }
      exists new. rewrite app_nil_r in Hg1. by rewrite Hg, Hg1.
  - destruct (IH (HP._process_tick st s' tk now) l) as (new & Hg & Ht).
    { done. }
    { rewrite Hseq. destruct (tick_seq_num tk); [|done].
      by rewrite lookup_insert_ne. }
    { done. }
    set (l1 := match tick_seq_num tk with Some n => _ | None => [] end) in *.
    exists (l1 ++ new). rewrite Hg, Hg1, app_assoc. split; [done|].
    rewrite gap_events_of_app, gap_total_app, Ht.
    replace (gap_events_of s l1) with (@nil GapEvent); [simpl; lia|].
    subst l1. destruct (tick_seq_num tk); [|done].
    by rewrite step_events_other.
Qed.

(** Before the first numbered tick of the symbol nothing is reported for
    it. *)
Lemma unseen_run_gaps s inputs : ∀ st,
  checks_return st inputs = true →
  HP.seq_nums st !! s = None →
  match symbol_seqs s inputs with
  | [] => True
  | n1 :: ns => increasing_from n1 ns = true
  end →
  ∃ new,
    gap_events (HP.trace (HP.process_all st inputs))
    = gap_events (HP.trace st) ++ new
    ∧ gap_total (gap_events_of s new)
      = match symbol_seqs s inputs with
        | [] => 0
        | n1 :: ns => default n1 (last ns) - n1 - Z.of_nat (length ns)
        end.
Proof.
  induction inputs as [|[[s' tk] now] rest IH]; intros st Hret Hl Hinc.
  { exists []. simpl. by rewrite app_nil_r. }
  apply checks_return_cons in Hret as [Hret Hrest].
  rewrite process_all_cons. rewrite symbol_seqs_cons in *. simpl.
  destruct (process_tick_events st s' tk now) as [Hg1 _].
  pose proof (process_tick_seq_nums st s' tk now) as Hseq.
  rewrite Hret in Hseq.
  destruct (decide (s' = s)) as [->|Hne].
  - destruct (tick_seq_num tk) as [n|] eqn:Hn.
    + destruct (increasing_run_gaps s rest (HP._process_tick st s tk now) n)
        as (new & Hg & Ht).
      { done. }
      { rewrite Hseq. apply lookup_insert_eq. }
      { done. }
      rewrite Hl in Hg1. simpl in Hg1. rewrite app_nil_r in Hg1.
      exists new. by rewrite Hg, Hg1.
    + destruct (IH (HP._process_tick st s tk now)) as (new & Hg & Ht).
      { done. }
      { by rewrite Hseq. }
      { done. }
      exists new. rewrite app_nil_r in Hg1. by rewrite Hg, Hg1.
  - destruct (IH (HP._process_tick st s' tk now)) as (new & Hg & Ht).
    { done. }
    { rewrite Hseq. destruct (tick_seq_num tk); [|done].
      by rewrite lookup_insert_ne. }
    { done. }
    set (l1 := match tick_seq_num tk with Some n => _ | None => [] end) in *.
    exists (l1 ++ new). rewrite Hg, Hg1, app_assoc. split; [done|].
    rewrite gap_events_of_app, gap_total_app, Ht.
    replace (gap_events_of s l1) with (@nil GapEvent); [simpl; lia|].
    subst l1. destruct (tick_seq_num tk); [|done].
    by rewrite step_events_other.
Qed.

(** X8.  Over a run in which no tick is abandoned (the sequence check of
    every tick returns), for a symbol not seen before whose sequence
    numbers arrive in increasing order, interleaved with any ticks of
    other symbols, the gap sizes reported for the symbol add up to the
    number of sequence numbers between the first and the last delivered
    that were not delivered: losses before the first and after the last
    delivered message are not seen. *)
Theorem gaps_count_the_numbers_skipped st s inputs n1 ns :
  checks_return st inputs = true →
  HP.seq_nums st !! s = None →
  symbol_seqs s inputs = n1 :: ns →
  increasing_from n1 ns = true →
  let st' := HP.process_all st inputs in
  gap_total (gap_events_of s (new_gap_events st st'))
  = (default n1 (last ns) - n1 + 1) - Z.of_nat (length (n1 :: ns)).
Proof.
  intros Hret Hl Hs Hinc st'. subst st'. unfold new_gap_events.
  destruct (unseen_run_gaps s inputs st Hret Hl) as (new & Hg & Ht).
  { by rewrite Hs. }
  rewrite Hg, drop_app_length, Ht, Hs. simpl length. lia.
Qed.

(** EURUSD 3, 4, 7, 9 with a GBPUSD tick in between: 5, 6 and 8 are
    missing, three of the seven numbers from 3 to 9. *)
Lemma gaps_count_the_numbers_skipped_witness :
  gap_total
    (gap_events_of "EURUSD"
       (new_gap_events fresh
          (HP.process_all fresh
             [ ("EURUSD", Tick (Some 3) None None, noon);
               ("EURUSD", Tick (Some 4) None None, noon);
               ("GBPUSD", Tick (Some 40) None None, noon);
               ("EURUSD", Tick (Some 7) None None, noon);
               ("EURUSD", Tick (Some 9) None None, noon) ])))
  = 3.
Proof.
  exact (gaps_count_the_numbers_skipped fresh "EURUSD"
           [ ("EURUSD", Tick (Some 3) None None, noon);
             ("EURUSD", Tick (Some 4) None None, noon);
             ("GBPUSD", Tick (Some 40) None None, noon);
             ("EURUSD", Tick (Some 7) None None, noon);
             ("EURUSD", Tick (Some 9) None None, noon) ]
           3 [4; 7; 9] eq_refl eq_refl eq_refl eq_refl).
Defined.

Lemma process_tick_rows st symbol tk now :
  let st' := HP._process_tick st symbol tk now in
  let events := match tick_seq_num tk with
                | Some n => step_events (HP.seq_nums st !! symbol) symbol n
                | None => []
                end in
  ∃ l, sequence_gaps_of st' = sequence_gaps_of st ++ l
       ∧ (NoDup (sg_key <$> sequence_gaps_of st)
          → NoDup (sg_key <$> sequence_gaps_of st'))
       ∧ Forall (λ r, row_event r ∈ events) l
       ∧ (length l ≤ length events)%nat.
Proof.
  cbv zeta. unfold step_events.
  assert (Hquiet : match tick_seq_num tk, HP.seq_nums st !! symbol with
                   | Some n, Some last => n ≤ last + 1
                   | _, _ => True
                   end →
                   ∃ l, sequence_gaps_of (HP._process_tick st symbol tk now)
                        = sequence_gaps_of st ++ l
                        ∧ (NoDup (sg_key <$> sequence_gaps_of st)
                           → NoDup (sg_key <$> sequence_gaps_of
                                      (HP._process_tick st symbol tk now)))
                        ∧ l = []).
  { intros Hq. destruct (process_tick_quiet st symbol tk now Hq) as (_ & _ & ->).
    exists []. by rewrite app_nil_r. }
  destruct (tick_seq_num tk) as [n|] eqn:Hn.
  - destruct (HP.seq_nums st !! symbol) as [last|] eqn:Hl.
    + case_bool_decide as Hgt.
      * rewrite (process_tick_sequence_gaps st symbol tk now n last Hn Hl) by lia.
        unfold sequence_gaps_of. destruct (HP.db_conn st) as [db|].
        -- unfold insert_sequence_gap. simpl.
           destruct (_ && _);
             [|exists []; rewrite app_nil_r;
               repeat split; [done | done | simpl; lia]].
           case_decide as Hk.
           ++ exists []. rewrite app_nil_r. repeat split; [done | done | simpl; lia].
           ++ eexists. split; [reflexivity|]. split; [|split].
              ** intros Hnd. rewrite fmap_app. apply NoDup_app.
                 split; [done|]. split; [|apply NoDup_singleton].
                 intros k Hin Hin'. simpl in Hin'.
                 apply list_elem_of_singleton in Hin'. subst k. done.
              ** repeat constructor.
              ** simpl. lia.
        -- exists []. repeat split; [done | done | simpl; lia].
      * destruct Hquiet as (l & ? & ? & ->); [lia|]. exists []. by repeat split.
    + destruct Hquiet as (l & ? & ? & ->); [done|]. exists []. by repeat split.
  - destruct Hquiet as (l & ? & ? & ->); [done|]. exists []. by repeat split.
Qed.

Lemma process_all_rows inputs : ∀ st,
  NoDup (sg_key <$> sequence_gaps_of st) →
  ∃ rows events,
    sequence_gaps_of (HP.process_all st inputs) = sequence_gaps_of st ++ rows
    ∧ gap_events (HP.trace (HP.process_all st inputs))
      = gap_events (HP.trace st) ++ events
    ∧ NoDup (sg_key <$> sequence_gaps_of (HP.process_all st inputs))
    ∧ Forall (λ r, row_event r ∈ events) rows
    ∧ (length rows ≤ length events)%nat.
Proof.
  induction inputs as [|[[s tk] now] rest IH]; intros st Hnd.
  { exists [], []. rewrite !app_nil_r. by repeat split. }
  rewrite process_all_cons. simpl.
  destruct (process_tick_rows st s tk now) as (l1 & Hr1 & Hnd1 & Hf1 & Hlen1).
  destruct (process_tick_events st s tk now) as [Hg1 _].
  set (e1 := match tick_seq_num tk with Some n => _ | None => [] end) in *.
  destruct (IH (HP._process_tick st s tk now) (Hnd1 Hnd))
    as (rows & events & Hr & Hg & Hnd' & Hf & Hlen).
  exists (l1 ++ rows), (e1 ++ events).
  split; [by rewrite Hr, Hr1, app_assoc|].
  split; [by rewrite Hg, Hg1, app_assoc|].
  split; [done|]. split.
  - apply Forall_app. split.
    + eapply Forall_impl; [exact Hf1|]. intros r Hin. apply elem_of_app. by left.
    + eapply Forall_impl; [exact Hf|]. intros r Hin. apply elem_of_app. by right.
  - rewrite !length_app. lia.
Qed.

(** X9.  Over any run, [sequence_gaps] is only appended to and keeps its
    primary key (timestamp, symbol, expected_seq) free of duplicates; every
    row added records a gap event reported during the run, and there are
    no more rows added than events reported (an event whose key is already
    stored is reported and not stored). *)
Theorem sequence_gap_rows_follow_events st inputs :
  NoDup (sg_key <$> sequence_gaps_of st) →
  let st' := HP.process_all st inputs in
  sequence_gaps_of st' = sequence_gaps_of st ++ new_sequence_gaps st st'
  ∧ NoDup (sg_key <$> sequence_gaps_of st')
  ∧ Forall (λ r, row_event r ∈ new_gap_events st st') (new_sequence_gaps st st')
  ∧ (length (new_sequence_gaps st st') ≤ length (new_gap_events st st'))%nat.
Proof.
  intros Hnd st'. subst st'. unfold new_sequence_gaps, new_gap_events.
  destruct (process_all_rows inputs st Hnd) as (rows & events & -> & -> & ? & ? & ?).
  by rewrite !drop_app_length.
Qed.

(** Two gaps for one symbol with the same expected number within one
    second: both are reported, one row is stored. *)
Lemma sequence_gap_rows_follow_events_witness :
  let st' := HP.process_all fresh
               [ ("EURUSD", Tick (Some 1) None None, noon);
                 ("EURUSD", Tick (Some 5) None None, noon);
                 ("EURUSD", Tick (Some 1) None None, noon);
                 ("EURUSD", Tick (Some 7) None None, noon) ] in
  sequence_gaps_of st' = [SequenceGapRow noon "EURUSD" 3 2 5]
  ∧ gap_events (HP.trace st')
    = [MkGapEvent "EURUSD" 3 2 5; MkGapEvent "EURUSD" 5 2 7].
Proof.
  intros st'.
  assert (Hnd : NoDup (sg_key <$> sequence_gaps_of fresh)) by apply NoDup_nil_2.
  destruct (sequence_gap_rows_follow_events fresh
              [ ("EURUSD", Tick (Some 1) None None, noon);
                ("EURUSD", Tick (Some 5) None None, noon);
                ("EURUSD", Tick (Some 1) None None, noon);
                ("EURUSD", Tick (Some 7) None None, noon) ] Hnd) as (Hr & _).
  split.
  - etrans; [exact Hr|]. vm_compute. reflexivity.
  - vm_compute. reflexivity.
Defined.

(** ** The window over whole runs *)

Lemma truncate_minute_idempotent t :
  truncate_minute (truncate_minute t) = truncate_minute t.
Proof.
  unfold truncate_minute. rewrite (Z.mul_comm 60 (t / 60)).
  rewrite Z.div_mul by done. lia.
Qed.

Lemma truncate_minute_window m t :
  truncate_minute m = m →
  (truncate_minute t = m ↔ m ≤ t < m + 60).
Proof.
  unfold truncate_minute. intros Hm.
  pose proof (Z.div_mod t 60). pose proof (Z.mod_pos_bound t 60). lia.
Qed.

Lemma classified_counts symbol b prev c :
  (0 ≤ large c ∧ 0 ≤ small c →
   0 ≤ large (classified symbol b prev c) ∧ 0 ≤ small (classified symbol b prev c))
  ∧ weight (classified symbol b prev c)
    = weight c + match prev with Some _ => 1 | None => 0 end.
Proof.
  unfold classified, weight. destruct prev as [p|]; [|split; [done | lia]].
  destruct (PrimFloat.leb _ _); simpl; split; lia.
Qed.

Lemma process_tick_window_ok st symbol tk now :
  window_ok st → window_ok (HP._process_tick st symbol tk now).
Proof.
  intros (Hnone & Hdom & Hpos & Hmin). unfold window_ok.
  destruct (check_returns st symbol tk now) eqn:Hret;
    [|by destruct (process_tick_abandoned_aggregation st symbol tk now Hret)
           as (-> & -> & -> & _)].
  destruct (tick_bid tk) as [b|] eqn:Hb.
  - destruct (tick_time tk) as [t|] eqn:Ht.
    + destruct (process_tick_timed st symbol tk now b t Hret Hb Ht)
        as (-> & -> & ->).
      split; [|split; [|split]].
      * split; [done|]. intros H. by apply insert_non_empty in H.
      * rewrite !dom_insert_L. apply union_mono_l.
        destruct (closes_window _ _); [|done].
        rewrite dom_empty_L. apply empty_subseteq.
      * apply map_Forall_insert_2.
        -- apply classified_counts. unfold bucket_before.
           assert (0 ≤ large (default zero_counts (HP.gap_counts st !! symbol))
                   ∧ 0 ≤ small (default zero_counts (HP.gap_counts st !! symbol))).
           { destruct (HP.gap_counts st !! symbol) as [c|] eqn:Hc; [|done].
             by apply (Hpos symbol c). }
           destruct (HP.minute_start_time st); [case_bool_decide|]; done.
        -- destruct (closes_window _ _); [apply map_Forall_empty | done].
      * intros m [= <-]. apply truncate_minute_idempotent.
    + destruct (process_tick_untimed st symbol tk now b Hret Hb Ht)
        as (-> & -> & -> & _).
      split; [done|]. split; [|done]. rewrite dom_insert_L.
      etrans; [exact Hdom | apply union_subseteq_r].
  - rewrite (process_tick_no_bid st symbol tk now Hb).
    by destruct (after_check_aggregation st symbol tk now) as (-> & -> & -> & _).
Qed.

Lemma process_all_window_ok inputs : ∀ st,
  window_ok st → window_ok (HP.process_all st inputs).
Proof.
  induction inputs as [|[[s tk] now] rest IH]; intros st H; [done|].
  rewrite process_all_cons. apply IH. by apply process_tick_window_ok.
Qed.

(** X10.  In every state the receiver reaches from its start: a window is
    open exactly when there is at least one bucket; every symbol with a
    bucket has a previous bid; no count is negative; and the open minute is
    a whole minute. *)
Theorem open_window_is_well_formed ec qs db inputs :
  let st := HP.process_all (HP.start (HP.init ec qs db)) inputs in
  (HP.minute_start_time st = None ↔ HP.gap_counts st = ∅)
  ∧ dom (HP.gap_counts st) ⊆ dom (HP.prev_bids st)
  ∧ map_Forall (λ _ c, 0 ≤ large c ∧ 0 ≤ small c) (HP.gap_counts st)
  ∧ (∀ m, HP.minute_start_time st = Some m → truncate_minute m = m).
Proof.
  apply process_all_window_ok. unfold window_ok. simpl.
  repeat split; done.
Qed.

Lemma save_gap_counts_flushes st :
  flushes (HP.trace (HP._save_gap_counts st))
  = flushes (HP.trace st)
    ++ match HP.db_conn st, HP.minute_start_time st with
       | Some _, Some m => [bucket_row m <$> map_to_list (HP.gap_counts st)]
       | _, _ => []
       end.
Proof.
  unfold HP._save_gap_counts, flushes.
  destruct (HP.db_conn st); [|by rewrite app_nil_r].
  destruct (HP.minute_start_time st); [|by rewrite app_nil_r].
  simpl. by rewrite omap_app.
Qed.

(** X11.  A tick with a bid and a time whose sequence check returns, at a
    receiver whose window is open at the whole minute [m], stays in that
    window exactly when [m <= t < m + 60]: then the open minute and the
    buckets of the other symbols are kept and nothing is flushed.
    Otherwise the window is closed: its buckets are flushed as they were,
    in one batch, when the database is connected (and dropped when it is
    not), and the new window holds the bucket of this tick only, counted
    from zero. *)
Theorem window_is_a_half_open_minute st symbol tk now b t m :
  check_returns st symbol tk now = true →
  tick_bid tk = Some b →
  tick_time tk = Some t →
  HP.minute_start_time st = Some m →
  truncate_minute m = m →
  let st' := HP._process_tick st symbol tk now in
  (HP.minute_start_time st' = Some m ↔ m ≤ t < m + 60)
  ∧ if bool_decide (m ≤ t < m + 60)
    then dom (HP.gap_counts st') = {[ symbol ]} ∪ dom (HP.gap_counts st)
         ∧ (∀ s, s ≠ symbol → HP.gap_counts st' !! s = HP.gap_counts st !! s)
         ∧ flushes (HP.trace st') = flushes (HP.trace st)
    else HP.gap_counts st'
         = {[ symbol := classified symbol b (HP.prev_bids st !! symbol)
                          zero_counts ]}
         ∧ flushes (HP.trace st')
           = flushes (HP.trace st)
             ++ match HP.db_conn st with
                | Some _ => [bucket_row m <$> map_to_list (HP.gap_counts st)]
                | None => []
                end.
Proof.
  intros Hret Hb Ht Hm Hmm st'.
  destruct (process_tick_timed st symbol tk now b t Hret Hb Ht) as (Hmin & _ & Hgc).
  fold st' in Hmin, Hgc. rewrite Hmin, Hgc. unfold closes_window. rewrite Hm.
  pose proof (truncate_minute_window m t Hmm) as Hw.
  split.
  { split; [intros [= H]; by apply Hw | intros H; f_equal; by apply Hw]. }
  assert (Htr : flushes (HP.trace st')
                = flushes (HP.trace st)
                  ++ if bool_decide (truncate_minute t ≠ m)
                     then match HP.db_conn st with
                          | Some _ =>
                              [bucket_row m <$> map_to_list (HP.gap_counts st)]
                          | None => []
                          end
                     else []).
  { subst st'. rewrite (process_tick_returned _ _ _ _ Hret), Hb, Ht.
    destruct (after_check_aggregation st symbol tk now)
      as (_ & Hm1 & Hg1 & _ & Hd1).
    pose proof (after_check_flushes st symbol tk now) as Hf1.
    set (st1 := after_check st symbol tk now) in *. clearbody st1.
    destruct (aggregate_timed st1 symbol now b t) as (_ & _ & _ & _ & ->).
    unfold closes_window. rewrite Hm1, Hm.
    case_bool_decide; [|by rewrite app_nil_r].
    rewrite save_gap_counts_flushes, Hf1, Hm1, Hm, Hg1.
    destruct (HP.db_conn st1) as [db1|], (HP.db_conn st); try done.
    - discriminate (proj2 Hd1 eq_refl).
    - discriminate (proj1 Hd1 eq_refl). }
  rewrite Htr. clear Htr.
  destruct (decide (m ≤ t < m + 60)) as [Hin|Hin].
  - rewrite (bool_decide_eq_true_2 _ Hin). apply Hw in Hin.
    rewrite !bool_decide_eq_false_2 by (intros ?; done).
    split; [by rewrite dom_insert_L|]. split.
    + intros s Hs. by rewrite lookup_insert_ne.
    + by rewrite app_nil_r.
  - rewrite (bool_decide_eq_false_2 _ Hin).
    assert (truncate_minute t ≠ m) as Hne by (intros H; apply Hin; by apply Hw).
    rewrite !bool_decide_eq_true_2 by done.
    split; [|done].
    unfold bucket_before. rewrite ?bool_decide_eq_true_2 by done.
    by rewrite insert_empty.
Qed.

Lemma window_is_a_half_open_minute_witness :
  HP.minute_start_time
    (HP._process_tick after_first_tick "EURUSD"
       (Tick None (Some 1.1%float) (Some (noon + 59))) noon) = Some noon
  ∧ HP.minute_start_time
      (HP._process_tick after_first_tick "EURUSD"
         (Tick None (Some 1.1%float) (Some (noon + 60))) noon) ≠ Some noon.
Proof.
  assert (Hn : truncate_minute noon = noon) by reflexivity.
  split.
  - apply (proj1 (window_is_a_half_open_minute after_first_tick "EURUSD"
                    (Tick None (Some 1.1%float) (Some (noon + 59))) noon
                    1.1%float (noon + 59) noon eq_refl eq_refl eq_refl eq_refl Hn)).
    unfold noon. lia.
  - intros H.
    apply (proj1 (window_is_a_half_open_minute after_first_tick "EURUSD"
                    (Tick None (Some 1.1%float) (Some (noon + 60))) noon
                    1.1%float (noon + 60) noon eq_refl eq_refl eq_refl eq_refl Hn)) in H.
    lia.
Defined.

(** ** The gap-bucket table over whole runs *)

Lemma save_rows_app r1 r2 t :
  save_rows r2 (save_rows r1 t) = save_rows (r1 ++ r2) t.
Proof. unfold save_rows. by rewrite foldl_app. Qed.

Lemma save_gap_counts_table st :
  ∃ rows, tick_gaps_of (HP._save_gap_counts st)
          = save_rows rows (tick_gaps_of st).
Proof.
  unfold HP._save_gap_counts, tick_gaps_of.
  destruct (HP.db_conn st) as [db|] eqn:Hdb; [|exists []; by rewrite Hdb].
  destruct (HP.minute_start_time st) as [m|]; [|exists []; by rewrite Hdb].
  simpl. by eexists.
Qed.

Lemma process_tick_table st symbol tk now :
  ∃ rows, tick_gaps_of (HP._process_tick st symbol tk now)
          = save_rows rows (tick_gaps_of st).
Proof.
  destruct (check_returns st symbol tk now) eqn:Hret;
    [|destruct (process_tick_abandoned_aggregation st symbol tk now Hret)
        as (_ & _ & _ & -> & _); by exists []].
  destruct (tick_bid tk) as [b|] eqn:Hb.
  - destruct (tick_time tk) as [t|] eqn:Ht.
    + rewrite (process_tick_returned _ _ _ _ Hret), Hb, Ht.
      destruct (after_check_aggregation st symbol tk now) as (_ & _ & _ & <- & _).
      set (st1 := after_check st symbol tk now). clearbody st1.
      destruct (aggregate_timed st1 symbol now b t) as (_ & _ & _ & Hd & _).
      unfold tick_gaps_of at 1. rewrite Hd.
      destruct (closes_window _ _); [apply save_gap_counts_table | by exists []].
    + destruct (process_tick_untimed st symbol tk now b Hret Hb Ht)
        as (_ & _ & _ & -> & _).
      by exists [].
  - rewrite (process_tick_no_bid st symbol tk now Hb). exists [].
    by destruct (after_check_aggregation st symbol tk now) as (_ & _ & _ & -> & _).
Qed.

Lemma process_all_table inputs : ∀ st,
  ∃ rows, tick_gaps_of (HP.process_all st inputs)
          = save_rows rows (tick_gaps_of st).
Proof.
  induction inputs as [|[[s tk] now] rest IH]; intros st; [by exists []|].
  rewrite process_all_cons. simpl.
  destruct (IH (HP._process_tick st s tk now)) as (r2 & ->).
  destruct (process_tick_table st s tk now) as (r1 & ->).
  exists (r1 ++ r2). apply save_rows_app.
Qed.

Lemma stop_table st :
  ∃ rows, tick_gaps_of (HP.stop st) = save_rows rows (tick_gaps_of st).
Proof.
  destruct st as [rn rq qs mq sn mm pb ms gc db rc pc tr].
  unfold HP.stop, HP._save_gap_counts, tick_gaps_of. simpl.
  destruct ms as [m|]; simpl; destruct db as [db|]; simpl;
    destruct rq; simpl; first [by exists [] | by eexists].
Qed.

Lemma rows_with_key_absent t k :
  k ∉ tg_key <$> t → rows_with_key k t = [].
Proof.
  unfold rows_with_key. induction t as [|r t IH]; [done|].
  rewrite fmap_cons, not_elem_of_cons. intros [Hne Hin].
  rewrite filter_cons. case_decide; [congruence | by apply IH].
Qed.

Lemma primary_key_one_row t k :
  primary_key_ok t → (length (rows_with_key k t) ≤ 1)%nat.
Proof.
  unfold primary_key_ok. induction t as [|r t IH]; [simpl; lia|].
  rewrite fmap_cons, NoDup_cons. intros [Hr Ht].
  unfold rows_with_key. rewrite filter_cons.
  case_decide as Hk; [|by apply IH].
  fold (rows_with_key k t). rewrite rows_with_key_absent; [simpl; lia|].
  by rewrite <- Hk.
Qed.

(** X12.  From the first tick to shutdown, the receiver keeps the primary
    key (timestamp, symbol) of [tick_gaps] free of duplicates and never
    loses a key: whatever was stored under a key before the run is still
    one row under that key after it, replaced or not. *)
Theorem tick_gaps_keeps_its_keys st inputs :
  primary_key_ok (tick_gaps_of st) →
  let st' := HP.stop (HP.process_all st inputs) in
  primary_key_ok (tick_gaps_of st')
  ∧ ∀ k, rows_with_key k (tick_gaps_of st) ≠ [] →
         ∃ r, rows_with_key k (tick_gaps_of st') = [r].
Proof.
  intros Hpk st'. subst st'.
  destruct (stop_table (HP.process_all st inputs)) as (r2 & ->).
  destruct (process_all_table inputs st) as (r1 & ->).
  rewrite save_rows_app. split; [by apply save_rows_primary_key|].
  intros k Hk. rewrite save_rows_latest.
  destruct (last _) as [r|]; [by exists r|].
  pose proof (primary_key_one_row _ k Hpk) as Hlen.
  destruct (rows_with_key k (tick_gaps_of st)) as [|r [|r' l]]; [done| |simpl in Hlen; lia].
  by exists r.
Qed.

(** A table that holds a row for 12:00 / EURUSD and one for GBPUSD, over
    the run with a late tick: still one row under each of the two keys. *)
Lemma tick_gaps_keeps_its_keys_witness :
  let st := HP.set_db_conn
              (Some (HP.Database [TickGapRow noon "EURUSD" noon 7 7;
                                  TickGapRow noon "GBPUSD" noon 2 2] []))
              fresh in
  let st' := HP.stop (HP.process_all st late_tick_run) in
  (∃ r, rows_with_key (noon, "EURUSD") (tick_gaps_of st') = [r])
  ∧ (∃ r, rows_with_key (noon, "GBPUSD") (tick_gaps_of st') = [r]).
Proof.
  intros st st'.
  assert (Hpk : primary_key_ok (tick_gaps_of st)).
  { unfold primary_key_ok. simpl. apply NoDup_cons. split.
    - intros H. apply list_elem_of_singleton in H. discriminate.
    - apply NoDup_singleton. }
  destruct (tick_gaps_keeps_its_keys st late_tick_run Hpk) as [_ Hkeys].
  split; apply Hkeys; vm_compute; discriminate.
Defined.

(** ** Every classification is counted once *)

Lemma bucket_total_empty : bucket_total ∅ = 0.
Proof. unfold bucket_total. by rewrite map_fold_empty. Qed.

Lemma bucket_total_insert_fresh (gc : gmap string counts) k c :
  gc !! k = None → bucket_total (<[k := c]> gc) = weight c + bucket_total gc.
Proof.
  intros H. unfold bucket_total. rewrite map_fold_insert_L; [done| |done].
  intros. lia.
Qed.

Lemma bucket_total_insert (gc : gmap string counts) k c :
  bucket_total (<[k := c]> gc)
  = weight c + bucket_total gc - weight (default zero_counts (gc !! k)).
Proof.
  destruct (gc !! k) as [c0|] eqn:Hk; simpl.
  - assert (bucket_total (<[k := c]> gc)
            = weight c + bucket_total (delete k gc)) as ->.
    { rewrite <- insert_delete_eq.
      apply bucket_total_insert_fresh, lookup_delete_eq. }
    assert (bucket_total gc = weight c0 + bucket_total (delete k gc)) as ->.
    { unfold bucket_total. rewrite (map_fold_delete_L _ _ k c0 gc); [done| |done].
      intros. lia. }
    lia.
  - rewrite bucket_total_insert_fresh by done. unfold weight. simpl. lia.
Qed.

Lemma rows_total_bucket_rows m (gc : gmap string counts) :
  rows_total (bucket_row m <$> map_to_list gc) = bucket_total gc.
Proof.
  unfold bucket_total. rewrite map_fold_foldr.
  induction (map_to_list gc) as [|[k c] l IH]; [done|].
  rewrite fmap_cons. cbn [rows_total foldr]. fold (rows_total (bucket_row m <$> l)).
  rewrite IH. unfold weight. simpl. lia.
Qed.

Lemma flushed_total_app l k :
  flushed_total (l ++ k) = flushed_total l + flushed_total k.
Proof. induction l as [|r l IH]; simpl; [done|]. rewrite IH. lia. Qed.

Lemma process_tick_flushes st symbol tk now :
  check_returns st symbol tk now = true →
  is_Some (HP.db_conn st) →
  let st' := HP._process_tick st symbol tk now in
  flushes (HP.trace st')
  = flushes (HP.trace st)
    ++ match tick_bid tk, tick_time tk, HP.minute_start_time st with
       | Some _, Some t, Some m =>
           if bool_decide (truncate_minute t ≠ m)
           then [bucket_row m <$> map_to_list (HP.gap_counts st)]
           else []
       | _, _, _ => []
       end
  ∧ is_Some (HP.db_conn st').
Proof.
  intros Hret Hdb. cbv zeta. rewrite (process_tick_returned _ _ _ _ Hret).
  destruct (after_check_aggregation st symbol tk now)
    as (_ & Hm1 & Hg1 & _ & Hd).
  pose proof (after_check_flushes st symbol tk now) as Hf1.
  assert (is_Some (HP.db_conn (after_check st symbol tk now))) as Hdb1.
  { destruct (HP.db_conn (after_check st symbol tk now)) eqn:E; [done|].
    destruct Hdb as [db Hdb]. destruct Hd as [Hd _]. rewrite Hd in Hdb; done. }
  set (st1 := after_check st symbol tk now) in *. clearbody st1.
  rewrite <- Hm1, <- Hg1, <- Hf1. clear Hm1 Hg1 Hf1 Hd Hdb Hret st.
  cbn [tick_bid tick_time].
  destruct (tick_bid tk) as [b|]; [|by rewrite app_nil_r].
  destruct (tick_time tk) as [t|];
    [|rewrite app_nil_r; split; [done | exact Hdb1]].
  destruct (aggregate_timed st1 symbol now b t) as (_ & _ & _ & -> & ->).
  unfold closes_window.
  destruct (HP.minute_start_time st1) as [m|] eqn:Hm; [|by rewrite app_nil_r].
  case_bool_decide; [|by rewrite app_nil_r].
  destruct Hdb1 as [db1 Hdb1].
  by destruct (save_gap_counts_connected st1 db1 m Hdb1 Hm) as (_ & -> & _ & _ & ?).
Qed.

Lemma process_all_conservation inputs : ∀ st,
  checks_return st inputs = true →
  is_Some (HP.db_conn st) →
  let st' := HP.process_all st inputs in
  flushed_total (flushes (HP.trace st')) + bucket_total (HP.gap_counts st')
  = flushed_total (flushes (HP.trace st)) + bucket_total (HP.gap_counts st)
    + classified_ticks (dom (HP.prev_bids st)) inputs.
Proof.
  induction inputs as [|[[s tk] now] rest IH]; intros st Hrets Hdb;
    [simpl; lia|].
  apply checks_return_cons in Hrets as [Hret Hrets].
  cbv zeta. rewrite process_all_cons. simpl.
  destruct (process_tick_flushes st s tk now Hret Hdb) as [Hf Hdb'].
  rewrite (IH _ Hrets Hdb'), Hf, flushed_total_app. clear IH.
  rewrite process_tick_prev_bids, Hret.
  destruct (tick_bid tk) as [b|] eqn:Hb.
  - rewrite dom_insert_L.
    destruct (tick_time tk) as [t|] eqn:Ht.
    + destruct (process_tick_timed st s tk now b t Hret Hb Ht) as (_ & _ & ->).
      rewrite bucket_total_insert.
      destruct (classified_counts s b (HP.prev_bids st !! s)
                  (bucket_before (HP.minute_start_time st) (HP.gap_counts st) s t))
        as [_ ->].
      assert ((if decide (s ∈ dom (HP.prev_bids st)) then 1 else 0)
              = match HP.prev_bids st !! s with Some _ => 1 | None => 0 end) as ->.
      { case_decide as Hin.
        - apply elem_of_dom in Hin as [p ->]. done.
        - apply not_elem_of_dom in Hin. by rewrite Hin. }
      unfold closes_window, bucket_before.
      destruct (HP.minute_start_time st) as [m|].
      * case_bool_decide.
        -- rewrite lookup_empty, bucket_total_empty. simpl.
           rewrite rows_total_bucket_rows. unfold weight. simpl. lia.
        -- simpl. lia.
      * simpl. lia.
    + destruct (process_tick_untimed st s tk now b Hret Hb Ht) as (_ & _ & -> & _).
      destruct (HP.minute_start_time st); simpl; lia.
  - rewrite (process_tick_no_bid st s tk now Hb).
    destruct (after_check_aggregation st s tk now) as (_ & _ & -> & _).
    simpl. lia.
Qed.

(** X13.  With the database connected, over a run in which every
    sequence check returns, every classified tick is counted exactly
    once: the classifications in the flushed batches plus those in the
    buckets of the open window grow by the number of ticks of the run
    that have a bid, a time and a previous bid for their symbol.  Closing
    a window moves its counts to a flush and loses none.  (A tick whose
    check is left by an exception is not classified at all.) *)
Theorem classifications_are_conserved st inputs :
  checks_return st inputs = true →
  is_Some (HP.db_conn st) →
  let st' := HP.process_all st inputs in
  flushed_total (flushes (HP.trace st')) + bucket_total (HP.gap_counts st')
  = flushed_total (flushes (HP.trace st)) + bucket_total (HP.gap_counts st)
    + classified_ticks (dom (HP.prev_bids st)) inputs.
Proof. apply process_all_conservation. Qed.
(** The run with a late tick: five ticks with a bid and a time, the first
    without a previous bid, hence four classifications. *)
Lemma classifications_are_conserved_witness :
  flushed_total (flushes (HP.trace (HP.process_all fresh late_tick_run)))
  + bucket_total (HP.gap_counts (HP.process_all fresh late_tick_run))
  = 4.
Proof.
  assert (Hdb : is_Some (HP.db_conn fresh)) by (by eexists).
  etrans;
    [exact (classifications_are_conserved fresh late_tick_run eq_refl Hdb)|].
  vm_compute. reflexivity.
Defined.

(** ** The two receivers side by side *)

Lemma check_sequence_same_table st symbol n now :
  HP.tick_gaps <$> HP.db_conn (HP.state_of (HP._check_sequence st symbol n now))
  = HP.tick_gaps <$> HP.db_conn st.
Proof.
  destruct st as [rn rq qs mq sn mm pb ms gc db rc pc tr].
  unfold HP._check_sequence. simpl.
  destruct (sn !! symbol) as [last|]; simpl; [|done].
  case_bool_decide; simpl; [|done].
  destruct db as [db|]; simpl; [|done].
  by destruct (insert_sequence_gap _ _).
Qed.

Lemma process_tick_same_aggregation hp bk symbol tk now :
  check_returns hp symbol tk now = true →
  same_aggregation hp bk →
  same_aggregation (HP._process_tick hp symbol tk now)
                   (BK._process_tick bk symbol tk).
Proof.
  intros Hret H. rewrite (process_tick_returned _ _ _ _ Hret).
  assert (same_aggregation (after_check hp symbol tk now) bk)
    as (Hp & Hm & Hg & Hd & Hf).
  { destruct H as (Hp & Hm & Hg & Hd & Hf).
    destruct (after_check_aggregation hp symbol tk now) as (? & ? & ? & _).
    unfold same_aggregation. rewrite after_check_flushes.
    repeat split; try congruence.
    rewrite <- Hd. unfold after_check.
    destruct (tick_seq_num tk) as [n|]; [|done].
    apply check_sequence_same_table. }
  set (st1 := after_check hp symbol tk now) in *. clearbody st1. clear Hret H hp.
  destruct st1 as [rn rq qs mq sn mm pb ms gc db rc pc tr].
  destruct bk as [brn btd bpb bms bgc bdb btr].
  simpl in *. subst bpb bms bgc bdb.
  unfold same_aggregation, HP._process_tick, BK._process_tick,
    HP._save_gap_counts, BK._save_gap_counts.
  simpl. change (BK.gap_pips symbol) with (HP.gap_pips symbol).
  destruct (tick_bid tk) as [b|]; [|done].
  destruct (tick_time tk) as [t|]; [|done].
  simpl.
  destruct ms as [m|]; simpl; [case_bool_decide; simpl|];
    try (destruct db as [db|]; simpl);
    rewrite ?lookup_empty; simpl;
    destruct (gc !! symbol) as [c|]; simpl;
    destruct (pb !! symbol) as [p|]; simpl;
    try destruct (PrimFloat.leb _ _); simpl;
    repeat split; try done;
    unfold flushes in *; rewrite !omap_app; simpl; by rewrite Hf.
Qed.

Lemma process_all_same_aggregation inputs : ∀ hp bk,
  checks_return hp inputs = true →
  same_aggregation hp bk →
  same_aggregation (HP.process_all hp inputs) (BK.process_all bk inputs.*1).
Proof.
  induction inputs as [|[[s tk] now] rest IH]; intros hp bk Hrets H; [done|].
  apply checks_return_cons in Hrets as [Hret Hrets].
  rewrite process_all_cons. simpl. apply IH; [done|].
  by apply process_tick_same_aggregation.
Qed.

Lemma stop_same_table hp bk :
  same_aggregation hp bk →
  HP.tick_gaps <$> HP.db_conn (HP.stop hp) = BK.db_conn (BK.stop bk).
Proof.
  intros (Hp & Hm & Hg & Hd & Hf).
  destruct hp as [rn rq qs mq sn mm pb ms gc db rc pc tr].
  destruct bk as [brn btd bpb bms bgc bdb btr].
  simpl in *. subst bpb bms bgc bdb.
  unfold HP.stop, BK.stop, HP._save_gap_counts, BK._save_gap_counts. simpl.
  destruct ms as [m|]; simpl; destruct db as [db|]; simpl; destruct rq; simpl;
    try done; case_bool_decide as Hne; simpl; try done;
    subst gc; by rewrite map_to_list_empty.
Qed.

(** X14.  The backup receiver aggregates as the high-performance
    receiver does: started from the same aggregation state and fed the same
    ticks, over a run in which every sequence check of the
    high-performance receiver returns, both end with the same previous
    bids, open minute and buckets, have written the same batches, and hold
    the same rows in [tick_gaps], also after [stop].  (The backup receiver
    reads no sequence number; a tick whose check is left by an exception
    is aggregated by the backup receiver only.) *)
Theorem receivers_aggregate_alike hp bk inputs :
  checks_return hp inputs = true →
  same_aggregation hp bk →
  let hp' := HP.process_all hp inputs in
  let bk' := BK.process_all bk inputs.*1 in
  HP.prev_bids hp' = BK.previous_bids bk'
  ∧ HP.minute_start_time hp' = BK.minute_start_time bk'
  ∧ HP.gap_counts hp' = BK.gap_counts bk'
  ∧ HP.tick_gaps <$> HP.db_conn hp' = BK.db_conn bk'
  ∧ flushes (HP.trace hp') = flushes (BK.trace bk')
  ∧ HP.tick_gaps <$> HP.db_conn (HP.stop hp') = BK.db_conn (BK.stop bk').
Proof.
  intros Hrets H hp' bk'.
  pose proof (process_all_same_aggregation inputs hp bk Hrets H) as H'.
  fold hp' bk' in H'. pose proof (stop_same_table hp' bk' H') as Hs.
  destruct H' as (? & ? & ? & ? & ?). by repeat split.
Qed.

Lemma receivers_aggregate_alike_witness :
  HP.tick_gaps <$> HP.db_conn (HP.stop (HP.process_all fresh late_tick_run))
  = BK.db_conn (BK.stop (BK.process_all (BK.init (Some [])) late_tick_run.*1)).
Proof.
  assert (H : same_aggregation fresh (BK.init (Some []))) by (by repeat split).
  by destruct (receivers_aggregate_alike fresh (BK.init (Some []))
                 late_tick_run eq_refl H) as (_ & _ & _ & _ & _ & ?).
Defined.

(** ** The previous bid over whole runs *)

Lemma process_all_prev_bids_grow inputs : ∀ st,
  dom (HP.prev_bids st) ⊆ dom (HP.prev_bids (HP.process_all st inputs)).
Proof.
  induction inputs as [|[[s tk] now] rest IH]; intros st; [done|].
  rewrite process_all_cons. simpl. etrans; [|apply IH].
  rewrite process_tick_prev_bids.
  destruct (tick_bid tk) as [b|]; [|done].
  destruct (check_returns st s tk now); [|done].
  rewrite dom_insert_L. set_solver.
Qed.

Lemma backup_process_all_previous_bids_grow inputs : ∀ st,
  dom (BK.previous_bids st) ⊆ dom (BK.previous_bids (BK.process_all st inputs)).
Proof.
  induction inputs as [|[s tk] rest IH]; intros st; [done|].
  unfold BK.process_all in *. simpl. etrans; [|apply IH].
  rewrite backup_process_tick_previous_bids.
  destruct (tick_bid tk) as [b|]; [|done].
  rewrite dom_insert_L. set_solver.
Qed.

Lemma stop_prev_bids st : HP.prev_bids (HP.stop st) = HP.prev_bids st.
Proof.
  destruct st as [rn rq qs mq sn mm pb ms gc db rc pc tr].
  unfold HP.stop, HP._save_gap_counts. simpl.
  by destruct ms, db, rq.
Qed.

Lemma backup_stop_previous_bids st :
  BK.previous_bids (BK.stop st) = BK.previous_bids st.
Proof.
  destruct st as [rn td pb ms gc db tr].
  unfold BK.stop, BK._save_gap_counts. simpl.
  destruct ms, db; simpl; try done; by case_bool_decide.
Qed.

Lemma last_bid_cons (b : float) (bids : list float) (old : option float) :
  from_option Some old (last (b :: bids))
  = from_option Some (Some b) (last bids).
Proof. rewrite last_cons. by destruct (last bids). Qed.

Lemma process_all_prev_bids inputs : ∀ st s,
  checks_return st inputs = true →
  HP.prev_bids (HP.process_all st inputs) !! s
  = from_option Some (HP.prev_bids st !! s) (last (symbol_bids s inputs)).
Proof.
  induction inputs as [|[[s0 tk] now] rest IH]; intros st s Hrets; [done|].
  apply checks_return_cons in Hrets as [Hret Hrets].
  rewrite process_all_cons. simpl. rewrite (IH _ s Hrets). clear IH.
  rewrite process_tick_prev_bids, Hret.
  unfold symbol_bids. simpl. fold (symbol_bids s rest).
  case_decide as Hs; simpl.
  - subst s0. destruct (tick_bid tk) as [b|]; [|done].
    by rewrite last_bid_cons, lookup_insert_eq.
  - destruct (tick_bid tk) as [b|]; [|done]. by rewrite lookup_insert_ne.
Qed.

Lemma backup_process_all_previous_bids inputs : ∀ st s,
  BK.previous_bids (BK.process_all st inputs.*1) !! s
  = from_option Some (BK.previous_bids st !! s) (last (symbol_bids s inputs)).
Proof.
  induction inputs as [|[[s0 tk] now] rest IH]; intros st s; [done|].
  unfold BK.process_all in *. simpl. rewrite (IH _ s). clear IH.
  rewrite backup_process_tick_previous_bids.
  unfold symbol_bids. simpl. fold (symbol_bids s rest).
  case_decide as Hs; simpl.
  - subst s0. destruct (tick_bid tk) as [b|]; [|done].
    by rewrite last_bid_cons, lookup_insert_eq.
  - destruct (tick_bid tk) as [b|]; [|done]. by rewrite lookup_insert_ne.
Qed.

(** X26.  The previous bids are never cleared.  Over any run of ticks, in
    both receivers, every symbol that has a previous bid keeps one;
    [_save_gap_counts], which writes the buckets of a window, and [stop]
    leave the previous bids as they are. *)
Theorem previous_bids_are_never_cleared (st : HP.receiver)
    (bst : BK.subscriber) inputs binputs :
  let st' := HP.process_all st inputs in
  let bst' := BK.process_all bst binputs in
  (dom (HP.prev_bids st) ⊆ dom (HP.prev_bids st')
   ∧ HP.prev_bids (HP._save_gap_counts st') = HP.prev_bids st'
   ∧ HP.prev_bids (HP.stop st') = HP.prev_bids st')
  ∧ (dom (BK.previous_bids bst) ⊆ dom (BK.previous_bids bst')
     ∧ BK.previous_bids (BK._save_gap_counts bst') = BK.previous_bids bst'
     ∧ BK.previous_bids (BK.stop bst') = BK.previous_bids bst').
Proof.
  cbv zeta. split; (split; [|split]).
  - apply process_all_prev_bids_grow.
  - by destruct (save_gap_counts_frame (HP.process_all st inputs))
      as (_ & _ & _ & _ & ? & _).
  - apply stop_prev_bids.
  - apply backup_process_all_previous_bids_grow.
  - by destruct (backup_save_gap_counts_frame (BK.process_all bst binputs))
      as (? & _).
  - apply backup_stop_previous_bids.
Qed.

(** X27.  Over a run in which every sequence check returns, the previous
    bid of a symbol is the bid of the last tick of the run that carried
    one for the symbol, with or without [time] and whatever windows were
    closed in between, or the bid kept before the run when no tick
    carried one.  A tick with a bid and a [time] that follows the run is
    classified against that bid, in the bucket of the open window or,
    when it closes the window, in a bucket that starts from zero.  The
    backup receiver, which has no sequence check, does so over every
    run. *)
Theorem next_tick_is_compared_with_the_last_bid (st : HP.receiver)
    (bst : BK.subscriber) inputs s tk now b t :
  checks_return st inputs = true →
  check_returns (HP.process_all st inputs) s tk now = true →
  tick_bid tk = Some b →
  tick_time tk = Some t →
  let st' := HP.process_all st inputs in
  let bst' := BK.process_all bst inputs.*1 in
  let prev := from_option Some (HP.prev_bids st !! s)
                (last (symbol_bids s inputs)) in
  let bprev := from_option Some (BK.previous_bids bst !! s)
                 (last (symbol_bids s inputs)) in
  (HP.prev_bids st' !! s = prev
   ∧ HP.gap_counts (HP._process_tick st' s tk now) !! s
     = Some (classified s b prev
               (bucket_before (HP.minute_start_time st') (HP.gap_counts st')
                              s t))
   ∧ (closes_window (HP.minute_start_time st') t = true →
      HP.gap_counts (HP._process_tick st' s tk now)
      = {[ s := classified s b prev zero_counts ]}))
  ∧ (BK.previous_bids bst' !! s = bprev
     ∧ BK.gap_counts (BK._process_tick bst' s tk) !! s
       = Some (classified s b bprev
                 (bucket_before (BK.minute_start_time bst') (BK.gap_counts bst')
                                s t))
     ∧ (closes_window (BK.minute_start_time bst') t = true →
        BK.gap_counts (BK._process_tick bst' s tk)
        = {[ s := classified s b bprev zero_counts ]})).
Proof.
  intros Hrets Hret Hb Ht. cbv zeta. split.
  - pose proof (process_all_prev_bids inputs st s Hrets) as Hp.
    destruct (process_tick_timed (HP.process_all st inputs) s tk now b t
                Hret Hb Ht) as (_ & _ & Hg).
    rewrite Hp in Hg. split; [done|]. split.
    + by rewrite Hg, lookup_insert_eq.
    + intros Hc. by rewrite Hg, Hc, (bucket_before_closes _ _ _ _ Hc), insert_empty.
  - pose proof (backup_process_all_previous_bids inputs bst s) as Hp.
    destruct (backup_process_tick_timed (BK.process_all bst inputs.*1) s tk b t
                Hb Ht) as (_ & _ & Hg).
    rewrite Hp in Hg. split; [done|]. split.
    + by rewrite Hg, lookup_insert_eq.
    + intros Hc. by rewrite Hg, Hc, (bucket_before_closes _ _ _ _ Hc), insert_empty.
Qed.

(** Previous bid 1.1 in window 12:00; a bid of 1.2 without [time]; then a
    bid of 1.20001 at 12:01:00.  The last tick opens the 12:01 window and is
    counted small there: it is compared with 1.2, not with 1.1. *)
Lemma next_tick_is_compared_with_the_last_bid_witness :
  HP.gap_counts
    (HP._process_tick
       (HP.process_all after_first_tick [("EURUSD", untimed_tick, noon + 31)])
       "EURUSD" timed_tick (noon + 60))
  = {[ "EURUSD" := classified "EURUSD" 1.20001%float (Some 1.2%float)
                     zero_counts ]}
  ∧ BK.gap_counts
      (BK._process_tick
         (BK.process_all backup_after_first_tick
            [("EURUSD", untimed_tick, noon + 31)].*1)
         "EURUSD" timed_tick)
    = {[ "EURUSD" := classified "EURUSD" 1.20001%float (Some 1.2%float)
                       zero_counts ]}
  ∧ classified "EURUSD" 1.20001%float (Some 1.2%float) zero_counts
    = Counts 0 1.
Proof.
  destruct (next_tick_is_compared_with_the_last_bid after_first_tick
              backup_after_first_tick [("EURUSD", untimed_tick, noon + 31)]
              "EURUSD" timed_tick (noon + 60) 1.20001%float (noon + 60)
              eq_refl eq_refl eq_refl eq_refl)
    as [(_ & _ & H) (_ & _ & B)].
  split; [exact (H eq_refl)|]. split; [exact (B eq_refl)|].
  vm_compute. reflexivity.
Defined.

(** ** The tick history of the plain subscriber *)

Lemma slice_from_end_short {A} k (l : list A) :
  0 ≤ k → Z.of_nat (length l) ≤ k → RT.slice_from_end k l = l.
Proof.
  intros Hk Hl. unfold RT.slice_from_end. case_bool_decide.
  - replace (length l - Z.to_nat k)%nat with 0%nat by lia. apply drop_0.
  - replace k with 0 by lia. apply drop_0.
Qed.

Lemma slice_from_end_length {A} k (l : list A) :
  0 < k →
  Z.of_nat (length (RT.slice_from_end k l)) = Z.min k (Z.of_nat (length l)).
Proof.
  intros Hk. unfold RT.slice_from_end. rewrite bool_decide_eq_true_2 by done.
  rewrite length_drop. lia.
Qed.

(** Cutting after every append is cutting once at the end. *)
Lemma slice_from_end_snoc {A} k (l : list A) x :
  0 ≤ k →
  RT.slice_from_end k (RT.slice_from_end k l ++ [x])
  = RT.slice_from_end k (l ++ [x]).
Proof.
  intros Hk. unfold RT.slice_from_end. case_bool_decide as Hpos.
  - rewrite !length_app, length_drop. simpl.
    destruct (decide (length l ≤ Z.to_nat k)%nat) as [Hle|Hgt].
    + replace (length l - Z.to_nat k)%nat with 0%nat by lia.
      rewrite drop_0. f_equal. lia.
    + rewrite !drop_app_le by (rewrite ?length_drop; lia).
      rewrite drop_drop. do 2 f_equal. lia.
  - replace k with 0 by lia. simpl. by rewrite !drop_0.
Qed.

Lemma slice_from_end_last {A} k (l : list A) x :
  0 ≤ k → last (RT.slice_from_end k (l ++ [x])) = Some x.
Proof.
  intros Hk. unfold RT.slice_from_end. case_bool_decide as Hpos.
  - rewrite length_app. simpl. rewrite drop_app_le by lia. apply last_snoc.
  - replace k with 0 by lia. simpl. rewrite drop_0. apply last_snoc.
Qed.

Lemma receive_process_all_snoc st inputs i :
  RT.process_all st (inputs ++ [i])
  = RT._process_tick (RT.process_all st inputs) i.1 i.2.
Proof. unfold RT.process_all. by rewrite foldl_snoc. Qed.

Lemma ticks_of_snoc s inputs i :
  ticks_of s (inputs ++ [i])
  = ticks_of s inputs
    ++ match decide (i.1 = s), i.2 with
       | left _, Some x => [x]
       | _, _ => []
       end.
Proof.
  unfold ticks_of. rewrite omap_app. f_equal. simpl.
  destruct (decide (i.1 = s)); [|done]. by destruct (i.2).
Qed.

Lemma receive_process_all_max_history st inputs :
  RT.max_history (RT.process_all st inputs) = RT.max_history st.
Proof.
  induction inputs as [|i inputs IH] using rev_ind; [done|].
  rewrite receive_process_all_snoc. by destruct (i.2).
Qed.

(** One tick: the history of its symbol is extended and cut, those of the
    other symbols are left alone. *)
Lemma receive_process_tick_history st symbol payload s :
  0 ≤ RT.max_history st →
  RT.get_tick_history (RT._process_tick st symbol payload) s
  = match decide (symbol = s), payload with
    | left _, Some x =>
        RT.slice_from_end (RT.max_history st) (RT.get_tick_history st s ++ [x])
    | _, _ => RT.get_tick_history st s
    end.
Proof.
  intros Hk. unfold RT.get_tick_history.
  destruct payload as [x|]; [|by destruct (decide (symbol = s))].
  simpl. destruct (decide (symbol = s)) as [->|Hne].
  - rewrite lookup_insert_eq. simpl. case_bool_decide as Hlen; [done|].
    symmetry. apply slice_from_end_short; [done | lia].
  - by rewrite lookup_insert_ne.
Qed.

Lemma receive_process_tick_latest st symbol payload s :
  RT.get_latest_tick (RT._process_tick st symbol payload) s
  = match decide (symbol = s), payload with
    | left _, Some x => Some x
    | _, _ => RT.get_latest_tick st s
    end.
Proof.
  unfold RT.get_latest_tick.
  destruct payload as [x|]; [|by destruct (decide (symbol = s))].
  simpl. destruct (decide (symbol = s)) as [->|Hne].
  - by rewrite lookup_insert_eq.
  - by rewrite lookup_insert_ne.
Qed.

Lemma receive_process_all_history st inputs s :
  0 ≤ RT.max_history st →
  RT.get_tick_history (RT.process_all st inputs) s
  = match ticks_of s inputs with
    | [] => RT.get_tick_history st s
    | _ :: _ =>
        RT.slice_from_end (RT.max_history st)
          (RT.get_tick_history st s ++ ticks_of s inputs)
    end.
Proof.
  intros Hk. induction inputs as [|i inputs IH] using rev_ind; [done|].
  rewrite receive_process_all_snoc, ticks_of_snoc.
  rewrite receive_process_tick_history
    by by rewrite receive_process_all_max_history.
  rewrite receive_process_all_max_history, IH.
  destruct (decide (i.1 = s)) as [Hs|Hs]; [|by rewrite app_nil_r].
  destruct (i.2) as [x|]; [|by rewrite app_nil_r].
  destruct (ticks_of s inputs) as [|y ys]; [done|].
  rewrite slice_from_end_snoc by done. by rewrite <- app_assoc.
Qed.

Lemma receive_process_all_latest st inputs s :
  RT.get_latest_tick (RT.process_all st inputs) s
  = match last (ticks_of s inputs) with
    | Some x => Some x
    | None => RT.get_latest_tick st s
    end.
Proof.
  induction inputs as [|i inputs IH] using rev_ind; [done|].
  rewrite receive_process_all_snoc, ticks_of_snoc, receive_process_tick_latest.
  destruct (decide (i.1 = s)) as [Hs|Hs]; [|by rewrite app_nil_r].
  destruct (i.2) as [x|]; [|by rewrite app_nil_r].
  by rewrite last_snoc.
Qed.

(** X15.  With a non-negative [max_history], the history kept for a symbol
    after any run of frames is what [l[-max_history:]] cuts from the
    history before the run followed by the ticks of the symbol that
    decoded, in order of arrival; a frame that does not decode and the
    ticks of other symbols leave it as it is.  For a positive
    [max_history] it is therefore never longer than [max_history] (or than
    it was, when nothing arrived for the symbol); for [max_history = 0]
    nothing is ever cut and the history keeps every tick. *)
Theorem history_keeps_the_latest_ticks st inputs s :
  0 ≤ RT.max_history st →
  let k := RT.max_history st in
  let before := RT.get_tick_history st s in
  let after := RT.get_tick_history (RT.process_all st inputs) s in
  after = match ticks_of s inputs with
          | [] => before
          | _ :: _ => RT.slice_from_end k (before ++ ticks_of s inputs)
          end
  ∧ after `suffix_of` before ++ ticks_of s inputs
  ∧ if bool_decide (0 < k)
    then Z.of_nat (length after) ≤ Z.max k (Z.of_nat (length before))
    else after = before ++ ticks_of s inputs.
Proof.
  intros Hk k before after. subst k before after.
  rewrite receive_process_all_history by done.
  destruct (ticks_of s inputs) as [|y ys] eqn:Hts.
  - rewrite app_nil_r. split; [done|]. split; [done|].
    case_bool_decide; [lia | done].
  - split; [done|]. split.
    + unfold RT.slice_from_end. case_bool_decide; apply suffix_drop.
    + case_bool_decide as Hpos.
      * rewrite slice_from_end_length by done. lia.
      * replace (RT.max_history st) with 0 by lia. done.
Qed.

(** A subscriber that keeps two ticks per symbol, fed three EURUSD ticks
    around a GBPUSD tick and a frame that does not decode. *)
Lemma history_keeps_the_latest_ticks_witness :
  RT.get_tick_history
    (RT.process_all (RT.Subscriber true ∅ ∅ 2)
       [ ("EURUSD", Some (Tick (Some 1) None None));
         ("GBPUSD", Some (Tick (Some 7) None None));
         ("EURUSD", Some (Tick (Some 2) None None));
         ("EURUSD", None);
         ("EURUSD", Some (Tick (Some 3) None None)) ])
    "EURUSD"
  = [ Tick (Some 2) None None; Tick (Some 3) None None ].
Proof.
  pose proof (history_keeps_the_latest_ticks (RT.Subscriber true ∅ ∅ 2)
       [ ("EURUSD", Some (Tick (Some 1) None None));
         ("GBPUSD", Some (Tick (Some 7) None None));
         ("EURUSD", Some (Tick (Some 2) None None));
         ("EURUSD", None);
         ("EURUSD", Some (Tick (Some 3) None None)) ] "EURUSD") as H.
  cbv zeta in H. destruct H as [H _]; [simpl; lia|].
  rewrite H. vm_compute. reflexivity.
Defined.

(** X16.  After any run of frames, [get_latest_tick] gives the last tick of
    the symbol that decoded, or what it gave before when there was none;
    and while [max_history] is not negative, a subscriber in which the
    latest tick of every symbol is the end of its history (as in a new
    one, where both are empty) stays so: [get_latest_tick] and the last
    entry of [get_tick_history] never disagree. *)
Theorem latest_tick_is_the_end_of_the_history st inputs :
  0 ≤ RT.max_history st →
  (∀ s, RT.get_latest_tick st s = last (RT.get_tick_history st s)) →
  let st' := RT.process_all st inputs in
  ∀ s,
    RT.get_latest_tick st' s
    = match last (ticks_of s inputs) with
      | Some x => Some x
      | None => RT.get_latest_tick st s
      end
    ∧ RT.get_latest_tick st' s = last (RT.get_tick_history st' s).
Proof.
  intros Hk Hinv st' s. subst st'.
  rewrite receive_process_all_latest, receive_process_all_history by done.
  split; [done|].
  destruct (ticks_of s inputs) as [|y ys] eqn:Hts using rev_ind; [apply Hinv|].
  clear IHys. rewrite last_snoc.
  destruct (ys ++ [y]) as [|z zs] eqn:Hzs; [by destruct ys|].
  rewrite <- Hzs, app_assoc. symmetry. by apply slice_from_end_last.
Qed.

Lemma latest_tick_is_the_end_of_the_history_witness :
  RT.get_latest_tick
    (RT.process_all RT.init
       [ ("EURUSD", Some (Tick (Some 1) None None));
         ("EURUSD", None) ]) "EURUSD"
  = Some (Tick (Some 1) None None)
  ∧ last (RT.get_tick_history
            (RT.process_all RT.init
               [ ("EURUSD", Some (Tick (Some 1) None None));
                 ("EURUSD", None) ]) "EURUSD")
    = Some (Tick (Some 1) None None).
Proof.
  destruct (latest_tick_is_the_end_of_the_history RT.init
       [ ("EURUSD", Some (Tick (Some 1) None None));
         ("EURUSD", None) ]) with (s := "EURUSD") as [H1 H2].
  - vm_compute. discriminate.
  - intros s. reflexivity.
  - split; [exact H1 | by rewrite <- H2, H1].
Defined.

(** ** The latest tick of the backup receiver *)

Lemma backup_process_tick_tick_data st symbol tk :
  BK.tick_data (BK._process_tick st symbol tk)
  = match tick_bid tk with
    | Some _ => <[symbol := tk]> (BK.tick_data st)
    | None => BK.tick_data st
    end.
Proof.
  destruct st as [rn td pb ms gc db tr]. unfold BK._process_tick.
  destruct (tick_bid tk) as [b|]; [|done].
  destruct (tick_time tk) as [t|]; [|done].
  unfold BK._save_gap_counts. simpl.
  repeat (case_match; simpl); done.
Qed.

Lemma ticks_with_bid_snoc s inputs i :
  ticks_with_bid s (inputs ++ [i])
  = ticks_with_bid s inputs
    ++ match decide (i.1 = s), tick_bid i.2 with
       | left _, Some _ => [i.2]
       | _, _ => []
       end.
Proof.
  unfold ticks_with_bid. rewrite omap_app. f_equal. simpl.
  destruct (decide (i.1 = s)); [|done]. by destruct (tick_bid i.2).
Qed.

(** X17.  In the backup receiver [get_latest_tick] gives, after any run
    of ticks, the last tick of the symbol that carried a bid, or what it
    gave before when there was none: a tick without a bid is not kept,
    however recent, and the ticks of other symbols do not matter. *)
Theorem backup_latest_tick_carries_a_bid st inputs s :
  BK.get_latest_tick (BK.process_all st inputs) s
  = match last (ticks_with_bid s inputs) with
    | Some tk => Some tk
    | None => BK.get_latest_tick st s
    end.
Proof.
  induction inputs as [|i inputs IH] using rev_ind; [done|].
  unfold BK.process_all in *. rewrite foldl_snoc, ticks_with_bid_snoc.
  unfold BK.get_latest_tick in *. rewrite backup_process_tick_tick_data.
  destruct (tick_bid i.2) as [b|].
  - destruct (decide (i.1 = s)) as [->|Hne].
    + by rewrite lookup_insert_eq, last_snoc.
    + by rewrite lookup_insert_ne, app_nil_r.
  - rewrite IH. by destruct (decide (i.1 = s)); rewrite app_nil_r.
Qed.

(** ** The viewer reading what the receivers wrote *)

Lemma row_leb_total : Total (λ r1 r2, Is_true (VW.row_leb r1 r2)).
Proof.
  intros r1 r2. unfold VW.row_leb.
  rewrite !orb_True, !andb_True, !bool_decide_spec.
  destruct (Z.lt_trichotomy (tg_timestamp r1) (tg_timestamp r2))
    as [?|[Heq|?]]; [by left; left | | by right; left].
  destruct (String.leb_total (tg_symbol r1) (tg_symbol r2)) as [H|H];
    rewrite H; [left | right]; by right.
Qed.

Lemma get_gap_stats_rows conn symbol start_time end_time :
  VW.get_gap_stats conn symbol start_time end_time
  ≡ₚ filter (λ r, VW.where_clauses symbol start_time end_time r) conn.
Proof. apply merge_sort_Permutation. Qed.

(** With a symbol and the same minute as both bounds, the WHERE clause
    selects one primary key. *)
Lemma where_clauses_key s m t :
  s ≠ "" →
  filter (λ r, VW.where_clauses (Some s) (Some m) (Some m) r) t
  = rows_with_key (m, s) t.
Proof.
  intros Hs. unfold rows_with_key. apply list_filter_iff. intros r.
  unfold VW.where_clauses, tg_key.
  destruct (String.eqb_spec s "") as [|_]; [done|].
  destruct (String.eqb_spec (tg_symbol r) s) as [Hr|Hr]; simpl.
  - rewrite andb_True, !bool_decide_spec. split.
    + intros [? ?]. f_equal; [lia | done].
    + intros [= <- _]. lia.
  - split; [done | congruence].
Qed.

Lemma get_gap_stats_key conn s m :
  s ≠ "" →
  VW.get_gap_stats conn (Some s) (Some m) (Some m) ≡ₚ rows_with_key (m, s) conn.
Proof. intros Hs. by rewrite get_gap_stats_rows, where_clauses_key. Qed.

(** The sum of a column of one row is the integer of that row; the sum
    of a longer column can wrap around. *)
Lemma column_sum_singleton x : VW.column_sum [x] = x.
Proof.
  unfold VW.column_sum, VW.wrap_int64, VW.wrap_uint64, fits_int64.
  cbn [forallb foldr andb]. rewrite !andb_true_r, Z.add_0_r.
  case_bool_decide as H1; [rewrite Z.mod_small; lia|].
  case_bool_decide as H2; [|done]. by rewrite Z.mod_small.
Qed.

Lemma summary_wraps_around :
  VW.display_summary [ TickGapRow noon "EURUSD" noon (2 ^ 62) 1;
                       TickGapRow (noon + 60) "EURUSD" (noon + 60) (2 ^ 62) 2 ]
  = Some (VW.Summary (- 2 ^ 63) 3 2).
Proof. vm_compute. reflexivity. Qed.

(** X18.  What the backup receiver writes at shutdown is what the viewer
    reads back: with the database connected and a window open, after
    [stop] a query for a symbol of the window and for its minute (as both
    bounds) returns exactly one row, holding the counts of that symbol's
    bucket, whatever the table held before; the summary then shows these
    counts over one minute. *)
Theorem viewer_reads_back_the_last_window st t m s c :
  BK.db_conn st = Some t →
  BK.minute_start_time st = Some m →
  BK.gap_counts st !! s = Some c →
  s ≠ "" →
  ∃ t',
    BK.db_conn (BK.stop st) = Some t'
    ∧ VW.get_gap_stats t' (Some s) (Some m) (Some m)
      = [TickGapRow m s m (large c) (small c)]
    ∧ VW.display_summary (VW.get_gap_stats t' (Some s) (Some m) (Some m))
      = Some (VW.Summary (large c) (small c) 1).
Proof.
  intros Hdb Hm Hc Hs.
  destruct (backup_stop_trace st t m Hm Hdb) as [_ Ht'].
  { intros He. by rewrite He, lookup_empty in Hc. }
  eexists. split; [exact Ht'|].
  assert (VW.get_gap_stats
            (save_rows (bucket_row m <$> map_to_list (BK.gap_counts st)) t)
            (Some s) (Some m) (Some m)
          = [TickGapRow m s m (large c) (small c)]) as ->.
  { apply Permutation_singleton_r.
    by rewrite get_gap_stats_key, save_window_rows, Hc. }
  split; [done|]. unfold VW.display_summary. rewrite !fmap_cons, !fmap_nil.
  by rewrite !column_sum_singleton.
Qed.

(** The backup receiver after one classified EURUSD tick in the window
    of 12:00, the table holding an older row for that minute. *)
Lemma viewer_reads_back_the_last_window_witness :
  ∃ t',
    BK.db_conn
      (BK.stop (BK.process_all (BK.init (Some [TickGapRow noon "EURUSD" noon 7 7]))
                  [ ("EURUSD", Tick None (Some 1.1%float) (Some (noon + 30)));
                    ("EURUSD", Tick None (Some 1.10011%float) (Some (noon + 59))) ]))
    = Some t'
    ∧ VW.get_gap_stats t' (Some "EURUSD") (Some noon) (Some noon)
      = [TickGapRow noon "EURUSD" noon 1 0].
Proof.
  destruct (viewer_reads_back_the_last_window
       (BK.process_all (BK.init (Some [TickGapRow noon "EURUSD" noon 7 7]))
          [ ("EURUSD", Tick None (Some 1.1%float) (Some (noon + 30)));
            ("EURUSD", Tick None (Some 1.10011%float) (Some (noon + 59))) ])
       [TickGapRow noon "EURUSD" noon 7 7] noon "EURUSD" (Counts 1 0))
    as (t' & H1 & H2 & _).
  - vm_compute. reflexivity.
  - vm_compute. reflexivity.
  - vm_compute. reflexivity.
  - discriminate.
  - exists t'. split; [exact H1 | exact H2].
Defined.

Lemma remove_dups_NoDup `{EqDecision A} (l : list A) :
  NoDup l → remove_dups l = l.
Proof.
  induction 1 as [|x l Hx Hl IH]; [done|].
  simpl. destruct (decide_rel elem_of x l); [done|]. by rewrite IH.
Qed.

Lemma increasing_NoDup (l : list Z) : StronglySorted Z.lt l → NoDup l.
Proof.
  induction 1 as [|x l Hl IH Hx]; constructor; [|done].
  intros Hin. rewrite Forall_forall in Hx. specialize (Hx x Hin). lia.
Qed.

Lemma sorted_one_symbol s (l : list tick_gap_row) :
  Sorted (λ r1 r2, Is_true (VW.row_leb r1 r2)) l →
  Forall (λ r, tg_symbol r = s) l →
  NoDup (tg_key <$> l) →
  StronglySorted Z.lt (tg_timestamp <$> l).
Proof.
  induction l as [|r l IH]; [constructor|].
  intros Hsorted Hsym Hnd.
  apply Sorted_inv in Hsorted as [Hsorted Hhd].
  apply Forall_cons in Hsym as [Hr Hsym].
  rewrite fmap_cons in Hnd. apply NoDup_cons in Hnd as [Hnotin Hnd].
  specialize (IH Hsorted Hsym Hnd).
  rewrite fmap_cons. constructor; [done|].
  destruct l as [|r2 l]; [constructor|].
  apply HdRel_inv in Hhd. apply Forall_cons in Hsym as [Hr2 _].
  rewrite fmap_cons in IH. apply StronglySorted_inv in IH as [_ Hall].
  assert (tg_timestamp r < tg_timestamp r2) as Hlt.
  { unfold VW.row_leb in Hhd.
    rewrite orb_True, andb_True, !bool_decide_spec in Hhd.
    destruct Hhd as [?|[Heq _]]; [done|].
    exfalso. apply Hnotin. rewrite fmap_cons.
    replace (tg_key r) with (tg_key r2); [left|].
    unfold tg_key. by rewrite Heq, Hr, Hr2. }
  rewrite fmap_cons. constructor; [done|].
  eapply Forall_impl; [exact Hall|]. simpl. lia.
Qed.

(** X19.  Over a table that respects the primary key (timestamp, symbol),
    a query with a symbol returns rows of that symbol only, all within
    the bounds given, at strictly increasing timestamps: no minute shows
    twice, so that the figure printed as the total of minutes analysed is
    the number of different minutes found for the symbol. *)
Theorem symbol_query_has_one_row_per_minute t s start_time end_time :
  primary_key_ok t →
  s ≠ "" →
  let df := VW.get_gap_stats t (Some s) start_time end_time in
  Forall (λ r, r ∈ t ∧ tg_symbol r = s
               ∧ from_option (λ a, a ≤ tg_timestamp r) True start_time
               ∧ from_option (λ b, tg_timestamp r ≤ b) True end_time) df
  ∧ StronglySorted Z.lt (tg_timestamp <$> df)
  ∧ match VW.display_summary df with
    | Some sm =>
        VW.total_minutes sm
        = Z.of_nat (length (remove_dups (tg_timestamp <$> df)))
    | None => df = []
    end.
Proof.
  intros Hpk Hs df.
  assert (Hperm : df ≡ₚ filter (λ r, VW.where_clauses (Some s) start_time end_time r) t)
    by apply get_gap_stats_rows.
  assert (Hall : Forall (λ r, r ∈ t ∧ tg_symbol r = s
               ∧ from_option (λ a, a ≤ tg_timestamp r) True start_time
               ∧ from_option (λ b, tg_timestamp r ≤ b) True end_time) df).
  { rewrite Hperm. apply Forall_forall. intros r Hr.
    apply list_elem_of_filter in Hr as [Hw Hin]. split; [done|].
    unfold VW.where_clauses in Hw.
    destruct (String.eqb_spec s "") as [|_]; [done|].
    rewrite !andb_True in Hw. destruct Hw as [[Hsym Ha] Hb].
    split; [by apply String.eqb_eq; apply Is_true_true|].
    split.
    - destruct start_time; [|done]. simpl. apply bool_decide_spec in Ha. lia.
    - destruct end_time; [|done]. simpl. apply bool_decide_spec in Hb. lia. }
  assert (Hsorted : StronglySorted Z.lt (tg_timestamp <$> df)).
  { apply (sorted_one_symbol s).
    - apply Sorted_merge_sort, row_leb_total.
    - eapply Forall_impl; [exact Hall|]. by intros r (_ & ? & _).
    - rewrite Hperm.
      apply (sublist_NoDup _ (tg_key <$> t)); [exact Hpk|].
      apply fmap_sublist, sublist_filter. }
  split; [done|]. split; [done|].
  destruct df as [|r df'] eqn:Hdf; [done|].
  simpl VW.display_summary. simpl VW.total_minutes.
  rewrite remove_dups_NoDup by by apply increasing_NoDup.
  by rewrite length_fmap.
Qed.

(** EURUSD has rows for 12:00 and 12:01, GBPUSD one for 12:00: the query
    for EURUSD finds two minutes. *)
Lemma symbol_query_has_one_row_per_minute_witness :
  StronglySorted Z.lt
    (tg_timestamp
     <$> VW.get_gap_stats
           [ TickGapRow (noon + 60) "EURUSD" (noon + 60) 0 2;
             TickGapRow noon "GBPUSD" noon 1 1;
             TickGapRow noon "EURUSD" noon 3 0 ]
           (Some "EURUSD") None None).
Proof.
  refine (proj1 (proj2 (symbol_query_has_one_row_per_minute
        [ TickGapRow (noon + 60) "EURUSD" (noon + 60) 0 2;
          TickGapRow noon "GBPUSD" noon 1 1;
          TickGapRow noon "EURUSD" noon 3 0 ]
        "EURUSD" None None _ _))).
  - unfold primary_key_ok. apply (bool_decide_unpack _). vm_compute. exact I.
  - discriminate.
Defined.

(** ** Publisher and receiver together *)

Lemma sent_seqs_cons s s' tk rest :
  sent_seqs s ((s', tk) :: rest)
  = match decide (s' = s), tick_seq_num tk with
    | left _, Some n => n :: sent_seqs s rest
    | _, _ => sent_seqs s rest
    end.
Proof.
  unfold sent_seqs. simpl.
  destruct (decide (s' = s)); [|done]. by destruct (tick_seq_num tk).
Qed.

Lemma symbol_seqs_sent s inputs :
  symbol_seqs s inputs = sent_seqs s (fst <$> inputs).
Proof.
  induction inputs as [|[[s' tk] now] rest IH]; [done|].
  rewrite fmap_cons, symbol_seqs_cons. cbn [fst]. rewrite sent_seqs_cons.
  by rewrite IH.
Qed.

Lemma send_tick_spec pub choice u now :
  numbered pub →
  (choice < length (TP.symbols pub))%nat →
  ∃ symbol k bid,
    TP.symbols pub !! choice = Some symbol
    ∧ TP.seq_nums pub !! symbol = Some k
    ∧ TP._send_tick pub choice u now
      = Some (TP.Publisher (TP.symbols pub)
                (<[symbol := k + 1]> (TP.seq_nums pub)) (TP.sent_count pub + 1),
              (symbol, Tick (Some k) (Some bid) (Some now))).
Proof.
  intros Hwf Hc. unfold TP._send_tick.
  destruct (lookup_lt_is_Some_2 _ _ Hc) as [symbol Hsym].
  destruct (Hwf symbol) as [k Hk]; [by eapply list_elem_of_lookup_2|].
  exists symbol, k. rewrite Hsym. simpl. rewrite Hk. simpl. by eexists.
Qed.

Lemma send_all_spec draws : ∀ pub,
  numbered pub →
  drawn_from pub draws →
  ∃ pub' sent,
    TP.send_all pub draws = Some (pub', sent)
    ∧ TP.symbols pub' = TP.symbols pub
    ∧ TP.sent_count pub' = TP.sent_count pub + Z.of_nat (length draws)
    ∧ length sent = length draws
    ∧ ∀ s,
        match TP.seq_nums pub !! s with
        | Some k =>
            sent_seqs s sent = seqZ k (Z.of_nat (length (sent_seqs s sent)))
            ∧ TP.seq_nums pub' !! s
              = Some (k + Z.of_nat (length (sent_seqs s sent)))
        | None => sent_seqs s sent = [] ∧ TP.seq_nums pub' !! s = None
        end.
Proof.
  induction draws as [|[[choice u] now] rest IH]; intros pub Hwf Hdr.
  { exists pub, []. simpl. repeat split; [lia|]. intros s.
    destruct (TP.seq_nums pub !! s) as [k|] eqn:Hk; [|done].
    split; [done | f_equal; lia]. }
  apply Forall_cons in Hdr as [Hc Hdr]. simpl in Hc.
  destruct (send_tick_spec pub choice u now Hwf Hc)
    as (s0 & k0 & bid & Hs0 & Hk0 & Hsend).
  simpl. rewrite Hsend.
  set (pub1 := TP.Publisher _ _ _) in *.
  destruct (IH pub1) as (pub' & sent & Hall & Hsy & Hct & Hlen & Hseq).
  { intros s Hs. unfold pub1. simpl.
    destruct (decide (s0 = s)) as [->|Hne].
    - rewrite lookup_insert_eq. by eexists.
    - rewrite lookup_insert_ne by done. by apply Hwf. }
  { done. }
  rewrite Hall. exists pub', ((s0, Tick (Some k0) (Some bid) (Some now)) :: sent).
  split; [done|]. split; [done|].
  split; [rewrite Hct; unfold pub1; simpl; lia|].
  split; [simpl; by rewrite Hlen|].
  intros s. specialize (Hseq s). unfold pub1 in Hseq. simpl in Hseq.
  rewrite sent_seqs_cons. simpl.
  destruct (decide (s0 = s)) as [->|Hne].
  - rewrite lookup_insert_eq in Hseq. rewrite Hk0.
    destruct Hseq as [Hq Hn]. split.
    + simpl length. rewrite (seqZ_cons k0) by lia.
      f_equal. rewrite Hq at 1. f_equal; lia.
    + rewrite Hn. f_equal. simpl length. lia.
  - by rewrite lookup_insert_ne in Hseq.
Qed.

Lemma seqZ_increasing k n : StronglySorted Z.lt (seqZ k n).
Proof.
  destruct (decide (n ≤ 0)) as [Hn|Hn]; [rewrite seqZ_nil by done; constructor|].
  rewrite <- (Z2Nat.id n) by lia. generalize (Z.to_nat n) as m. clear n Hn.
  intros m. revert k. induction m as [|m IH]; intros k; [constructor|].
  rewrite seqZ_cons by lia. constructor.
  - replace (Z.pred (Z.of_nat (S m))) with (Z.of_nat m) by lia. apply IH.
  - apply Forall_seqZ. lia.
Qed.

Lemma sorted_sublist (l1 l2 : list Z) :
  l1 `sublist_of` l2 → StronglySorted Z.lt l2 → StronglySorted Z.lt l1.
Proof.
  induction 1 as [|x l1 l2 Hsub IH|x l1 l2 Hsub IH]; intros Hs; [done| |].
  - apply StronglySorted_inv in Hs as [Hs Hx]. constructor; [by apply IH|].
    rewrite Forall_forall in *. intros y Hy. apply Hx.
    by eapply elem_of_sublist.
  - apply StronglySorted_inv in Hs as [Hs _]. by apply IH.
Qed.

Lemma sorted_increasing_from n ns :
  StronglySorted Z.lt (n :: ns) → increasing_from n ns = true.
Proof.
  revert n. induction ns as [|m ns IH]; intros n Hs; [done|].
  apply StronglySorted_inv in Hs as [Hs Hn]. apply Forall_cons in Hn as [Hnm _].
  simpl. rewrite bool_decide_eq_true_2 by done. by apply IH.
Qed.

Lemma sent_seqs_sublist s (l1 l2 : list (string * tick)) :
  l1 `sublist_of` l2 → sent_seqs s l1 `sublist_of` sent_seqs s l2.
Proof.
  induction 1 as [|[s' tk] l1 l2 Hsub IH|[s' tk] l1 l2 Hsub IH]; [done| |].
  - rewrite !sent_seqs_cons. destruct (decide (s' = s)); [|done].
    destruct (tick_seq_num tk); [by constructor | done].
  - rewrite sent_seqs_cons. destruct (decide (s' = s)); [|done].
    destruct (tick_seq_num tk); [by constructor | done].
Qed.

Lemma sent_seqs_increasing pub draws pub' sent s :
  numbered pub →
  drawn_from pub draws →
  TP.send_all pub draws = Some (pub', sent) →
  StronglySorted Z.lt (sent_seqs s sent).
Proof.
  intros Hwf Hdr Hsend.
  destruct (send_all_spec draws pub Hwf Hdr) as (pub2 & sent2 & Hall & _ & _ & _ & Hseq).
  rewrite Hsend in Hall. injection Hall as <- <-.
  specialize (Hseq s). destruct (TP.seq_nums pub !! s) as [k|].
  - destruct Hseq as [-> _]. apply seqZ_increasing.
  - destruct Hseq as [-> _]. constructor.
Qed.

(** What the receiver holds for a symbol is one below what the publisher
    will send next for it: kept by sending a tick and delivering it. *)
Lemma send_all_consecutive draws : ∀ pub pub' sent last inputs,
  TP.send_all pub draws = Some (pub', sent) →
  (∀ s l, last !! s = Some l → TP.seq_nums pub !! s = Some (l + 1)) →
  fst <$> inputs = sent →
  consecutive_from last inputs = true.
Proof.
  induction draws as [|[[choice u] now] rest IH];
    intros pub pub' sent last inputs Hsend Hrel Hin.
  { simpl in Hsend. injection Hsend as <- <-.
    by apply fmap_nil_inv in Hin as ->. }
  simpl in Hsend.
  destruct (TP._send_tick pub choice u now) as [[pub1 o]|] eqn:Hone; [|done].
  destruct (TP.send_all pub1 rest) as [[pub2 more]|] eqn:Hrest; [|done].
  injection Hsend as <- <-.
  destruct inputs as [|[[s tk] clock] inputs]; [done|].
  rewrite fmap_cons in Hin. injection Hin as Ho Hmore. simpl in Ho.
  unfold TP._send_tick in Hone.
  destruct (TP.symbols pub !! choice) as [symbol|]; [|done]. simpl in Hone.
  destruct (TP.seq_nums pub !! symbol) as [k|] eqn:Hk; [|done]. simpl in Hone.
  injection Hone as <- <-. injection Ho as -> ->. simpl.
  assert (Hnext : consecutive_from (<[symbol := k]> last) inputs = true).
  { apply (IH _ _ _ _ _ Hrest); [|done]. intros s l. simpl.
    destruct (decide (symbol = s)) as [->|Hne].
    - rewrite !lookup_insert_eq. by intros [= ->].
    - rewrite !lookup_insert_ne by done. apply Hrel. }
  destruct (last !! symbol) as [l|] eqn:Hl; [|done].
  rewrite Hnext, andb_true_r. apply bool_decide_eq_true_2.
  apply Hrel in Hl. rewrite Hk in Hl. injection Hl as ->. lia.
Qed.

Lemma no_jump_quiet inputs : ∀ st,
  no_jump_from (HP.seq_nums st) inputs = true →
  sequence_gaps_of (HP.process_all st inputs) = sequence_gaps_of st.
Proof.
  induction inputs as [|[[s tk] now] rest IH]; intros st Hnj; [done|].
  apply no_jump_step in Hnj as [Hq Hrest].
  rewrite process_all_cons. simpl.
  destruct (process_tick_quiet st s tk now Hq) as (_ & _ & Hr).
  by rewrite IH.
Qed.

(** X20.  A publisher in which every symbol has a number sends a tick at
    every call, whatever symbol is drawn, and counts it; the numbers it
    sends for a symbol are consecutive, starting at the number it held
    for the symbol (0 in a new publisher), and it ends holding the number
    that follows the last one sent. *)
Theorem publisher_numbers_each_symbol_consecutively pub draws :
  numbered pub →
  drawn_from pub draws →
  ∃ pub' sent,
    TP.send_all pub draws = Some (pub', sent)
    ∧ length sent = length draws
    ∧ TP.sent_count pub' = TP.sent_count pub + Z.of_nat (length draws)
    ∧ ∀ s k,
        TP.seq_nums pub !! s = Some k →
        sent_seqs s sent = seqZ k (Z.of_nat (length (sent_seqs s sent)))
        ∧ TP.seq_nums pub' !! s
          = Some (k + Z.of_nat (length (sent_seqs s sent))).
Proof.
  intros Hwf Hdr.
  destruct (send_all_spec draws pub Hwf Hdr)
    as (pub' & sent & Hall & _ & Hct & Hlen & Hseq).
  exists pub', sent. do 3 (split; [done|]).
  intros s k Hk. specialize (Hseq s). by rewrite Hk in Hseq.
Qed.

Lemma init_numbered : numbered TP.init.
Proof.
  intros s Hs. unfold TP.init in Hs. simpl in Hs.
  repeat (apply elem_of_cons in Hs as [->|Hs]; [vm_compute; by eexists|]).
  by apply elem_of_nil in Hs.
Qed.

(** A new publisher drawing EURUSD, USDJPY, EURUSD, EURUSD. *)
Lemma publisher_numbers_each_symbol_consecutively_witness :
  ∃ pub' sent,
    TP.send_all TP.init
      [ (0%nat, 0.01%float, noon); (2%nat, 0.25%float, noon);
        (0%nat, 0.01%float, noon); (0%nat, 0.015%float, noon + 1) ]
    = Some (pub', sent)
    ∧ sent_seqs "EURUSD" sent
      = seqZ 0 (Z.of_nat (length (sent_seqs "EURUSD" sent)))
    ∧ TP.seq_nums pub' !! "EURUSD"
      = Some (0 + Z.of_nat (length (sent_seqs "EURUSD" sent))).
Proof.
  destruct (publisher_numbers_each_symbol_consecutively TP.init
      [ (0%nat, 0.01%float, noon); (2%nat, 0.25%float, noon);
        (0%nat, 0.01%float, noon); (0%nat, 0.015%float, noon + 1) ])
    as (pub' & sent & Hall & _ & _ & Hseq).
  - exact init_numbered.
  - unfold drawn_from. repeat constructor; simpl; lia.
  - exists pub', sent. split; [exact Hall|].
    apply (Hseq "EURUSD" 0). vm_compute. reflexivity.
Defined.

(** X21.  When every tick the publisher sends is delivered, in the order
    sent, to a receiver that holds for each symbol either nothing or the
    number just before the publisher's next one (a receiver just started
    holds nothing), the receiver reports no sequence gap: the missed
    counter keeps its value, no gap is printed and [sequence_gaps] keeps
    its rows. *)
Theorem undisturbed_stream_reports_no_gap pub draws pub' sent st inputs :
  TP.send_all pub draws = Some (pub', sent) →
  (∀ s l, HP.seq_nums st !! s = Some l → TP.seq_nums pub !! s = Some (l + 1)) →
  fst <$> inputs = sent →
  let st' := HP.process_all st inputs in
  HP.missed_messages st' = HP.missed_messages st
  ∧ new_gap_events st st' = []
  ∧ sequence_gaps_of st' = sequence_gaps_of st.
Proof.
  intros Hsend Hrel Hin st'. subst st'.
  pose proof (send_all_consecutive draws _ _ _ _ _ Hsend Hrel Hin) as Hc.
  apply consecutive_no_jump in Hc.
  destruct (no_jump_missed inputs st Hc) as [Hm Hg].
  split; [done|]. split; [|by apply no_jump_quiet].
  unfold new_gap_events. rewrite Hg. apply drop_all.
Qed.

Lemma undisturbed_stream_reports_no_gap_witness :
  ∃ pub' sent,
    TP.send_all TP.init
      [ (0%nat, 0.01%float, noon); (2%nat, 0.25%float, noon);
        (0%nat, 0.01%float, noon); (0%nat, 0.015%float, noon + 1) ]
    = Some (pub', sent)
    ∧ HP.missed_messages
        (HP.process_all fresh ((λ o, (o, noon + 2)) <$> sent)) = 0.
Proof.
  destruct (TP.send_all TP.init
      [ (0%nat, 0.01%float, noon); (2%nat, 0.25%float, noon);
        (0%nat, 0.01%float, noon); (0%nat, 0.015%float, noon + 1) ])
    as [[pub' sent]|] eqn:Hsend; [|vm_compute in Hsend; discriminate].
  exists pub', sent. split; [done|].
  destruct (undisturbed_stream_reports_no_gap _ _ _ _ fresh
              ((λ o, (o, noon + 2)) <$> sent) Hsend) as (Hm & _).
  - intros s l Hl. vm_compute in Hl. discriminate.
  - rewrite <- list_fmap_compose. apply list_fmap_id.
  - exact Hm.
Defined.

(** X22.  When ticks are lost on the way (the receiver gets some of the
    ticks sent, in the order sent) and every sequence check of the run
    returns, the gaps a receiver that held nothing for a symbol reports
    for it add up to the ticks of the symbol lost between the first and
    the last one delivered: every number from the first to the last
    delivered was sent, once, and the total is the count of these numbers
    less the count of the ticks delivered.  Ticks lost before the first
    or after the last one delivered are not counted. *)
Theorem lost_ticks_are_counted pub draws pub' sent st inputs s n1 ns :
  numbered pub →
  drawn_from pub draws →
  TP.send_all pub draws = Some (pub', sent) →
  fst <$> inputs `sublist_of` sent →
  checks_return st inputs = true →
  HP.seq_nums st !! s = None →
  symbol_seqs s inputs = n1 :: ns →
  let st' := HP.process_all st inputs in
  let last_seq := default n1 (last ns) in
  gap_total (gap_events_of s (new_gap_events st st'))
  = (last_seq - n1 + 1) - Z.of_nat (length (n1 :: ns))
  ∧ (∀ n, n1 ≤ n ≤ last_seq → n ∈ sent_seqs s sent)
  ∧ NoDup (sent_seqs s sent).
Proof.
  intros Hwf Hdr Hsend Hsub Hret Hl Hs st' last_seq. subst st' last_seq.
  assert (Hsubs : n1 :: ns `sublist_of` sent_seqs s sent).
  { rewrite <- Hs, symbol_seqs_sent. by apply sent_seqs_sublist. }
  pose proof (sent_seqs_increasing _ _ _ _ s Hwf Hdr Hsend) as Hinc.
  split; [|split].
  - unfold new_gap_events.
    destruct (unseen_run_gaps s inputs st Hret Hl) as (new & Hg & Ht).
    { rewrite Hs. apply sorted_increasing_from. by eapply sorted_sublist. }
    rewrite Hg, drop_app_length, Ht, Hs. simpl length. lia.
  - destruct (send_all_spec draws pub Hwf Hdr)
      as (pub2 & sent2 & Hall & _ & _ & _ & Hseq).
    rewrite Hsend in Hall. injection Hall as <- <-.
    specialize (Hseq s). destruct (TP.seq_nums pub !! s) as [k|].
    + destruct Hseq as [Hq _]. rewrite Hq in Hsubs |- *.
      assert (Hin : ∀ n, n ∈ n1 :: ns → n ∈ seqZ k (Z.of_nat (length (sent_seqs s sent)))).
      { intros n Hn. by eapply elem_of_sublist. }
      assert (H1 : n1 ∈ n1 :: ns) by left.
      assert (H2 : default n1 (last ns) ∈ n1 :: ns).
      { destruct (last ns) as [x|] eqn:Hlast; [|left].
        right. apply last_Some in Hlast as [l' ->].
        apply elem_of_app. right. left. }
      apply Hin in H1, H2. rewrite elem_of_seqZ in H1, H2.
      intros n Hn. apply elem_of_seqZ. lia.
    + destruct Hseq as [Hq _]. rewrite Hq in Hsubs. by apply sublist_nil_r in Hsubs.
  - by apply increasing_NoDup.
Qed.

(** A new publisher sends EURUSD 0 and 1, a USDJPY tick, then EURUSD 2
    and 3; the second tick sent is lost: one tick is counted. *)
Lemma lost_ticks_are_counted_witness :
  ∃ pub' sent,
    TP.send_all TP.init
      [ (0%nat, 0.01%float, noon); (0%nat, 0.01%float, noon);
        (2%nat, 0.25%float, noon); (0%nat, 0.01%float, noon);
        (0%nat, 0.015%float, noon + 1) ]
    = Some (pub', sent)
    ∧ gap_total
        (gap_events_of "EURUSD"
           (new_gap_events fresh
              (HP.process_all fresh
                 ((λ o, (o, noon + 2)) <$> take 1 sent ++ drop 2 sent))))
      = (3 - 0 + 1) - 3.
Proof.
  destruct (TP.send_all TP.init
      [ (0%nat, 0.01%float, noon); (0%nat, 0.01%float, noon);
        (2%nat, 0.25%float, noon); (0%nat, 0.01%float, noon);
        (0%nat, 0.015%float, noon + 1) ])
    as [[pub' sent]|] eqn:Hsend; [|vm_compute in Hsend; discriminate].
  exists pub', sent. split; [done|].
  refine (proj1 (lost_ticks_are_counted TP.init _ pub' sent fresh
                   ((λ o, (o, noon + 2)) <$> take 1 sent ++ drop 2 sent)
                   "EURUSD" 0 [2; 3] init_numbered _ Hsend _ _ _ _)).
  - unfold drawn_from. repeat constructor; simpl; lia.
  - rewrite <- list_fmap_compose, list_fmap_id.
    rewrite <- (take_drop 1 sent) at 3. apply sublist_app; [done|].
    change 2%nat with (1 + 1)%nat. rewrite <- drop_drop. apply sublist_drop.
  - vm_compute in Hsend. injection Hsend as _ <-. vm_compute. reflexivity.
  - reflexivity.
  - vm_compute in Hsend. injection Hsend as _ <-. vm_compute. reflexivity.
Defined.

(** ** Stopping the stress-test publisher *)

(** X23.  [stop] of the stress-test publisher raises ZeroDivisionError,
    after it has closed the socket and terminated the context, exactly
    when no time has been measured: the publisher never started (its
    [start] returned early because the address could not be bound), its
    starting time reads 0.0, or the clock reads the starting time again.
    Otherwise it returns. *)
Theorem stop_divides_by_the_running_time pub bind t now :
  SP.running pub = false →
  SP.start_time pub = None →
  let unmeasured :=
    negb bind || PrimFloat.eqb t 0%float
    || PrimFloat.eqb (PrimFloat.sub now t) 0%float in
  ∃ pub',
    SP.stop now (SP.start bind t pub)
    = (if unmeasured then SP.ZeroDivisionError pub' else SP.Returns pub')
    ∧ SP.running pub' = false
    ∧ SP.tick_count pub' = SP.tick_count pub
    ∧ SP.trace pub' = SP.trace pub ++ [SocketClose; ContextTerm].
Proof.
  intros Hr Hs unmeasured. subst unmeasured.
  destruct pub as [rn tc stt tr]. simpl in *. subst rn stt.
  unfold SP.start, SP.stop, SP.duration. simpl.
  destruct bind; simpl.
  - destruct (PrimFloat.eqb t 0) eqn:Ht; simpl; [by eexists|].
    destruct (PrimFloat.eqb (PrimFloat.sub now t) 0); by eexists.
  - by eexists.
Qed.

(** A publisher whose address could not be bound, stopped later. *)
Lemma stop_divides_by_the_running_time_witness :
  ∃ pub',
    SP.stop 1704110460%float (SP.start false 1704110400%float SP.init)
    = SP.ZeroDivisionError pub'
    ∧ SP.trace pub' = [SocketClose; ContextTerm].
Proof.
  destruct (stop_divides_by_the_running_time SP.init false
              1704110400%float 1704110460%float eq_refl eq_refl)
    as (pub' & H & _ & _ & Htr).
  exists pub'. split; [exact H | exact Htr].
Defined.
